(** * load-tester: a shallow embedding of the load-generation engine

    The Go package [main] (files [main.go] and [utils.go]) is embedded
    function by function.  Go's [int] is a 64-bit two's complement integer
    and is modelled by [Z] with the wrap-around written out where the
    source can overflow; [float64] is modelled by [spec_float] at the
    binary64 format; strings are byte strings.  Goroutines are modelled by
    an interleaving step relation whose atomic steps are the source's
    synchronisation points. *)

From Stdlib Require Import ZArith List String Ascii Bool Lia DecimalString.
From Stdlib Require Import Floats.SpecFloat.
From stdpp Require Import gmap strings list.

Open Scope Z_scope.

(** ** Machine numbers *)

Definition wrap64 (z : Z) : Z := (z + 2 ^ 63) mod 2 ^ 64 - 2 ^ 63.

Definition maxInt : Z := 2 ^ 63 - 1.
Definition minInt : Z := - 2 ^ 63.

Abbreviation float64 := spec_float.

Definition fadd : float64 -> float64 -> float64 := SFadd 53 1024.
Definition fsub : float64 -> float64 -> float64 := SFsub 53 1024.
Definition fmul : float64 -> float64 -> float64 := SFmul 53 1024.
Definition fdiv : float64 -> float64 -> float64 := SFdiv 53 1024.
Definition feqb : float64 -> float64 -> bool := SFeqb.

(** [float64(n)] for an integer [n]: rounding to nearest, ties to even. *)
Definition float64_of_Z (z : Z) : float64 := binary_normalize 53 1024 z 0 false.

(** [math.Ceil]: infinities, NaN and zeros are returned as they are; a
    negative value in (-1, 0) gives -0. *)
Definition math_Ceil (f : float64) : float64 :=
  match f with
  | S754_finite s m e =>
      if 0 <=? e then f
      else
        let q := Z.pos m / 2 ^ (- e) in
        let r := Z.pos m mod 2 ^ (- e) in
        if s then (if q =? 0 then S754_zero true else float64_of_Z (- q))
        else float64_of_Z (if r =? 0 then q else q + 1)
  | _ => f
  end.

(** [math.Trunc]: rounding toward zero. *)
Definition math_Trunc (f : float64) : float64 :=
  match f with
  | S754_finite s m e =>
      if 0 <=? e then f
      else
        let q := Z.pos m / 2 ^ (- e) in
        if q =? 0 then S754_zero s
        else float64_of_Z (if s then - q else q)
  | _ => f
  end.

(** The conversion [int(f)].  It truncates toward zero.  For a value that
    does not fit in [int] (and for NaN and the infinities) Go leaves the
    result to the implementation; the value taken here is the one of the
    amd64 conversion instruction. *)
Definition int_of_float64 (f : float64) : Z :=
  match f with
  | S754_zero _ => 0
  | S754_finite s m e =>
      let a := if 0 <=? e then Z.pos m * 2 ^ e else Z.pos m / 2 ^ (- e) in
      let z := if s then - a else a in
      if (minInt <=? z) && (z <=? maxInt) then z else minInt
  | _ => minInt
  end.

(** ** Durations ([time.Duration] counts nanoseconds) *)

Definition Nanosecond : Z := 1.
Definition Millisecond : Z := 1000000 * Nanosecond.
Definition Second : Z := 1000 * Millisecond.

(** [Duration.Seconds]:
    [sec := d / Second; nsec := d % Second;
     return float64(sec) + float64(nsec)/1e9]. *)
Definition Duration_Seconds (d : Z) : float64 :=
  let sec := Z.quot d Second in
  let nsec := Z.rem d Second in
  fadd (float64_of_Z sec) (fdiv (float64_of_Z nsec) (float64_of_Z 1000000000)).

(** ** Values of the variable tree ([interface{}] after YAML decoding) *)

#[local] Unset Elimination Schemes.

Inductive Value :=
| VNull
| VBool (b : bool)
| VInt (n : Z)
| VFloat (f : float64)
| VString (s : string)
| VList (l : list Value)
| VMap (m : list (string * Value)).

#[local] Set Elimination Schemes.

(** ** Data model ([main.go]) *)

Record Config := mkConfig {
  URL : string;
  Mutation : string;
  AuthHeader : string;
  AuthValue : string;
  BaseAuthValue : string;
  Headers : list (string * string);
  Concurrency : Z;
  TotalReqs : Z;
  TargetRPS : Z;
  DurationSec : Z;
  BaseVariables : option (list (string * Value));
  ShowProgress : bool;
  SaveResults : bool;
  OutputDir : string;
  LogRequests : bool;
  LogFile : string
}.

Definition set_Concurrency (c : Z) (config : Config) : Config :=
  mkConfig (URL config) (Mutation config) (AuthHeader config) (AuthValue config)
    (BaseAuthValue config) (Headers config) c (TotalReqs config) (TargetRPS config)
    (DurationSec config) (BaseVariables config) (ShowProgress config)
    (SaveResults config) (OutputDir config) (LogRequests config) (LogFile config).

Record RequestResult := mkRequestResult {
  Duration : Z;
  StatusCode : Z;
  Error : option string;
  Success : bool;
  RequestBody : string;
  ResponseBody : string
}.

(** A Go map is a reference to a table.  The program makes one
    [map[int]int], the [statusCodes] of [runLoadTest]; a [TestResults]
    holds that table itself, not a copy of it. *)
Inductive MapRef :=
| statusCodesTable.

(** [Metrics] is computed by the tachymeter library and is left out. *)
Record TestResults := mkTestResults {
  TotalRequests : Z;
  SuccessfulReqs : Z;
  FailedReqs : Z;
  StatusCodes : MapRef
}.

(** [GraphQLResponse]: only the messages of [Errors] are kept, [Data] is
    never read. *)
Record GraphQLResponse := mkGraphQLResponse {
  Errors : list string
}.

(** ** [runLoadTest]: the set-up before the dispatch loop *)

(** [windowSize := 10000; if config.TotalReqs < windowSize { windowSize = config.TotalReqs }] *)
Definition windowSize (config : Config) : Z :=
  if TotalReqs config <? 10000 then TotalReqs config else 10000.

(** [estP95 := 300 * time.Millisecond] *)
Definition estP95 : Z := 300 * Millisecond.

(** [int(math.Ceil(float64(config.TargetRPS) * estP95.Seconds()))] *)
Definition estimatedConcurrency (rps : Z) : Z :=
  int_of_float64 (math_Ceil (fmul (float64_of_Z rps) (Duration_Seconds estP95))).

(** The block [if config.TargetRPS > 0 && config.Concurrency <= 0 { ... }],
    which assigns [config.Concurrency]. *)
Definition deriveConcurrency (config : Config) : Config :=
  if (0 <? TargetRPS config) && (Concurrency config <=? 0) then
    let c := estimatedConcurrency (TargetRPS config) in
    set_Concurrency (if c <? 1 then 1 else c) config
  else config.

(** ** Byte strings and the [strings] and [strconv] functions the engine calls *)

Open Scope string_scope.

Definition is_digit (c : ascii) : bool :=
  let n := nat_of_ascii c in (48 <=? n)%nat && (n <=? 57)%nat.

Definition digit_val (c : ascii) : Z := Z.of_nat (nat_of_ascii c) - 48.

(** [strip_prefix p s] is the rest of [s] after its prefix [p]. *)
Fixpoint strip_prefix (p s : string) : option string :=
  match p with
  | EmptyString => Some s
  | String a p' =>
      match s with
      | String b s' => if Ascii.eqb a b then strip_prefix p' s' else None
      | EmptyString => None
      end
  end.

(** The longest prefix of [s] whose bytes satisfy [f], and the rest. *)
Fixpoint span (f : ascii -> bool) (s : string) : string * string :=
  match s with
  | String c s' =>
      if f c then let (a, b) := span f s' in (String c a, b)
      else (EmptyString, s)
  | EmptyString => (EmptyString, EmptyString)
  end.

Fixpoint drop_bytes (n : nat) (s : string) : string :=
  match n, s with
  | S n', String _ s' => drop_bytes n' s'
  | _, _ => s
  end.

(** [strings.Replace(s, old, new, 1)]: the first occurrence of [old]. *)
Fixpoint strings_Replace1 (s old new : string) : string :=
  match strip_prefix old s with
  | Some rest => new ++ rest
  | None =>
      match s with
      | String c s' => String c (strings_Replace1 s' old new)
      | EmptyString => EmptyString
      end
  end.

(** [strings.Split(s, ",")]. *)
Fixpoint strings_Split_comma (s : string) : list string :=
  match s with
  | EmptyString => [EmptyString]
  | String c s' =>
      if Ascii.eqb c "," then EmptyString :: strings_Split_comma s'
      else match strings_Split_comma s' with
           | x :: xs => String c x :: xs
           | [] => [String c EmptyString]
           end
  end.

Fixpoint string_rev_onto (s acc : string) : string :=
  match s with
  | EmptyString => acc
  | String c s' => string_rev_onto s' (String c acc)
  end.

Definition string_rev (s : string) : string := string_rev_onto s EmptyString.

(** The UTF-8 encodings of the white space that [unicode.IsSpace] accepts. *)
Definition utf8_spaces : list string :=
  let b (l : list nat) := string_of_list_ascii (map ascii_of_nat l) in
  map b [[9]; [10]; [11]; [12]; [13]; [32]; [194; 133]; [194; 160];
         [225; 154; 128];
         [226; 128; 128]; [226; 128; 129]; [226; 128; 130]; [226; 128; 131];
         [226; 128; 132]; [226; 128; 133]; [226; 128; 134]; [226; 128; 135];
         [226; 128; 136]; [226; 128; 137]; [226; 128; 138];
         [226; 128; 168]; [226; 128; 169]; [226; 128; 175];
         [226; 129; 159]; [227; 128; 128]]%nat.

Fixpoint strip_any (ps : list string) (s : string) : option string :=
  match ps with
  | [] => None
  | p :: ps' =>
      match strip_prefix p s with
      | Some rest => Some rest
      | None => strip_any ps' s
      end
  end.

Fixpoint trim_left (ps : list string) (fuel : nat) (s : string) : string :=
  match fuel with
  | O => s
  | S n =>
      match strip_any ps s with
      | Some rest => trim_left ps n rest
      | None => s
      end
  end.

(** [strings.TrimSpace]. *)
Definition strings_TrimSpace (s : string) : string :=
  let l := trim_left utf8_spaces (String.length s) s in
  let r := string_rev l in
  string_rev (trim_left (map string_rev utf8_spaces) (String.length r) r).

Fixpoint digits_value (s : string) (acc : Z) : Z :=
  match s with
  | EmptyString => acc
  | String c s' => digits_value s' (10 * acc + digit_val c)
  end.

Definition all_digits (s : string) : bool :=
  match span is_digit s with
  | (String _ _, EmptyString) => true
  | _ => false
  end.

(** [strconv.Atoi]: an optional sign and decimal digits; a value outside
    [int] is an error. *)
Definition strconv_Atoi (s : string) : option Z :=
  let (neg, body) :=
    match s with
    | String "-" s' => (true, s')
    | String "+" s' => (false, s')
    | _ => (false, s)
    end in
  if all_digits body then
    let v := digits_value body 0 in
    let z := if neg then - v else v in
    if ((minInt <=? z) && (z <=? maxInt))%Z then Some z else None
  else None.

(** [fmt.Sprintf("%d", n)]. *)
Definition fmt_int (z : Z) : string := DecimalString.NilZero.string_of_int (Z.to_int z).

Definition hex_digit (n : Z) : ascii :=
  match String.get (Z.to_nat n) "0123456789abcdef" with
  | Some c => c
  | None => "0"%char
  end.

(** [fmt.Sprintf("%x", b)] for a byte slice [b]. *)
Fixpoint fmt_hex (b : list Z) : string :=
  match b with
  | [] => EmptyString
  | x :: b' => String (hex_digit (x / 16)) (String (hex_digit (x mod 16)) (fmt_hex b'))
  end.

(** ** Standard-library functions and the runtime, taken as parameters

    [strconv.ParseFloat(s, 64)] ([None] when it returns an error), the [%v]
    formatting of a [float64], and the calendar functions of package
    [time].  A [time.Time] is modelled by its Unix time in nanoseconds.

    [makeslice_limit] is the longest byte slice the runtime allocates:
    [make([]byte, n)] panics ("makeslice: len out of range") when [n] is
    negative or beyond the runtime's [maxAlloc], and the process dies ("out
    of memory") when the machine cannot provide [n] bytes. *)
Record GoLib := mkGoLib {
  strconv_ParseFloat : string -> option float64;
  fmt_float64 : float64 -> string;
  time_AddDate : Z -> Z -> Z -> Z -> Z;
  time_Format_RFC3339 : Z -> string;
  makeslice_limit : Z
}.

(** ** The regular expressions of [replaceRandomPlaceholders]

    Every pattern is a sequence of literal text and of capture groups
    [(\d+)], a decimal numeral [\d+\.?\d*] in a group and [([^)]+)], with at most one optional
    non-capturing group [(?: ... )?].  In these patterns a repetition is
    always followed by a byte it cannot contain, so the greedy reading below
    is the only way a match can go. *)

Inductive Piece :=
| Lit (s : string)      (* literal text *)
| Digits                (* (\d+) *)
| Decimal               (* digits, an optional point, digits; captured *)
| NotParen.             (* ([^)]+) *)

Inductive Item :=
| One (p : Piece)
| Optional (ps : list Piece).   (* (?: ps )? *)

Definition nonempty (s : string) : bool :=
  match s with EmptyString => false | String _ _ => true end.

(** [matchPiece p s]: the text consumed, the captures and the rest of [s]. *)
Definition matchPiece (p : Piece) (s : string) : option (string * list string * string) :=
  match p with
  | Lit l =>
      match strip_prefix l s with
      | Some rest => Some (l, [], rest)
      | None => None
      end
  | Digits =>
      let (d, rest) := span is_digit s in
      if nonempty d then Some (d, [d], rest) else None
  | Decimal =>
      let (d, rest) := span is_digit s in
      if nonempty d then
        match rest with
        | String "." rest' =>
            let (d', rest'') := span is_digit rest' in
            let t := d ++ "." ++ d' in
            Some (t, [t], rest'')
        | _ => Some (d, [d], rest)
        end
      else None
  | NotParen =>
      let (t, rest) := span (fun c => negb (Ascii.eqb c ")")) s in
      if nonempty t then Some (t, [t], rest) else None
  end.

Fixpoint matchPieces (ps : list Piece) (s : string) : option (string * list string * string) :=
  match ps with
  | [] => Some (EmptyString, [], s)
  | p :: ps' =>
      match matchPiece p s with
      | Some (t, caps, rest) =>
          match matchPieces ps' rest with
          | Some (t', caps', rest') => Some (t ++ t', (caps ++ caps')%list, rest')
          | None => None
          end
      | None => None
      end
  end.

(** A group that takes no part in the match reports the empty string. *)
Definition emptyCaptures (ps : list Piece) : list string :=
  flat_map (fun p => match p with Lit _ => [] | _ => [EmptyString] end) ps.

Fixpoint matchItems (items : list Item) (s : string) : option (string * list string * string) :=
  match items with
  | [] => Some (EmptyString, [], s)
  | One p :: items' =>
      match matchPiece p s with
      | Some (t, caps, rest) =>
          match matchItems items' rest with
          | Some (t', caps', rest') => Some (t ++ t', (caps ++ caps')%list, rest')
          | None => None
          end
      | None => None
      end
  | Optional ps :: items' =>
      let skip :=
        match matchItems items' s with
        | Some (t', caps', rest') => Some (t', (emptyCaptures ps ++ caps')%list, rest')
        | None => None
        end in
      match matchPieces ps s with
      | Some (t, caps, rest) =>
          match matchItems items' rest with
          | Some (t', caps', rest') => Some (t ++ t', (caps ++ caps')%list, rest')
          | None => skip
          end
      | None => skip
      end
  end.

(** [re.FindAllStringSubmatch(s, -1)]: the successive matches from left to
    right, each as the matched text followed by its captures.  [skip] counts
    the bytes of the previous match still to pass over. *)
Fixpoint findAll (items : list Item) (skip : nat) (s : string) : list (list string) :=
  match s with
  | EmptyString => []
  | String _ s' =>
      match skip with
      | S n => findAll items n s'
      | O =>
          match matchItems items s with
          | Some (t, caps, _) => (t :: caps) :: findAll items (String.length t - 1) s'
          | None => findAll items 0 s'
          end
      end
  end.

Definition FindAllStringSubmatch (items : list Item) (s : string) : list (list string) :=
  findAll items 0 s.

(** The keys of the [patterns] table. *)
Inductive Kind :=
| KString | KNumber | KInt | KFloat | KUUID | KEmail | KName | KTimestamp | KChoice.

Definition pattern (k : Kind) : list Item :=
  match k with
  | KString =>
      [One (Lit "{{random.string"); Optional [Lit "("; Digits; Lit ")"]; One (Lit "}}")]
  | KNumber =>
      [One (Lit "{{random.number");
       Optional [Lit "("; Digits; Lit ","; Digits; Lit ")"]; One (Lit "}}")]
  | KInt =>
      [One (Lit "{{random.int");
       Optional [Lit "("; Digits; Lit ","; Digits; Lit ")"]; One (Lit "}}")]
  | KFloat =>
      [One (Lit "{{random.float");
       Optional [Lit "("; Decimal; Lit ","; Decimal; Lit ")"]; One (Lit "}}")]
  | KUUID => [One (Lit "{{random.uuid}}")]
  | KEmail => [One (Lit "{{random.email}}")]
  | KName => [One (Lit "{{random.name}}")]
  | KTimestamp => [One (Lit "{{random.timestamp}}")]
  | KChoice => [One (Lit "{{random.choice("); One NotParen; One (Lit ")}}")]
  end.

Definition allKinds : list Kind :=
  [KString; KNumber; KInt; KFloat; KUUID; KEmail; KName; KTimestamp; KChoice].

(** ** The random source and the clock

    [draws] is the stream of raw values that [math/rand] and [crypto/rand]
    hand out and [cursor] the number of values consumed so far; [clock] is
    the reading of [time.Now].  Go iterates over a map in an order it picks
    afresh for every [range]: [orders n] is the order in which the [n]-th
    [range] over the [patterns] table visits its keys, and [ranges] counts
    the [range] statements run so far. *)
Record Source := mkSource {
  draws : nat -> Z;
  cursor : nat;
  clock : Z;
  orders : nat -> list Kind;
  ranges : nat
}.

(** A computation that reads the source; [None] is a run-time panic. *)
Definition M (A : Type) : Type := Source -> option (A * Source).

Definition ret {A} (a : A) : M A := fun src => Some (a, src).

Definition bind {A B} (m : M A) (k : A -> M B) : M B :=
  fun src => match m src with
             | Some (a, src') => k a src'
             | None => None
             end.

Definition panic {A} : M A := fun _ => None.

Notation "'let*' x ':=' m 'in' k" := (bind m (fun x => k))
  (at level 10, x name, m at level 100, k at level 200).

Definition next_draw : M Z :=
  fun src => Some (draws src (cursor src),
                   mkSource (draws src) (S (cursor src)) (clock src)
                            (orders src) (ranges src)).

Definition next_order : M (list Kind) :=
  fun src => Some (orders src (ranges src),
                   mkSource (draws src) (cursor src) (clock src)
                            (orders src) (S (ranges src))).

(** A loop [for _, x := range l] that stores [f x] for every element, in
    the order of the list. *)
Definition forEach {A B} (f : A -> M B) : list A -> M (list B) :=
  fix loop (l : list A) : M (list B) :=
    match l with
    | [] => ret []
    | x :: l' => let* r := f x in let* rs := loop l' in ret (r :: rs)
    end.

(** [rand.Intn(n)] and [rand.Int63n(n)]: a value in [0, n); a panic when [n <= 0]. *)
Definition rand_Intn (n : Z) : M Z :=
  if (n <=? 0)%Z then panic else let* d := next_draw in ret (d mod n)%Z.

(** [rand.Float64()]: [float64(Int63n(1<<53)) / (1<<53)]. *)
Definition rand_Float64 : M float64 :=
  let* d := rand_Intn (2 ^ 53) in ret (fdiv (float64_of_Z d) (float64_of_Z (2 ^ 53))).

(** [crypto/rand.Read(b)] for a slice of [n] bytes. *)
Fixpoint rand_Read (n : nat) : M (list Z) :=
  match n with
  | O => ret []
  | S n' => let* d := next_draw in let* b := rand_Read n' in ret ((d mod 256)%Z :: b)
  end.

Definition time_Now : M Z := fun src => Some (clock src, src).


(** ** The placeholder engine ([utils.go]) *)

Section PlaceholderEngine.

Variable lib : GoLib.

(** [match[i]]. *)
Definition group (i : nat) (m : list string) : string := nth i m EmptyString.

Definition join_space (l : list string) : string :=
  match l with
  | [] => EmptyString
  | x :: xs => fold_left (fun acc y => acc ++ " " ++ y) xs x
  end.

(** [fmt.Sprintf("%v", v)].  The keys of a map are printed in the order of
    the list (Go sorts them); the engine only formats integers, floats and
    strings. *)
Fixpoint fmt_v (v : Value) : string :=
  match v with
  | VNull => "<nil>"
  | VBool b => if b then "true" else "false"
  | VInt n => fmt_int n
  | VFloat f => fmt_float64 lib f
  | VString s => s
  | VList l => "[" ++ join_space (map fmt_v l) ++ "]"
  | VMap m =>
      "map[" ++ join_space (map (fun kv => fst kv ++ ":" ++ fmt_v (snd kv)) m) ++ "]"
  end.

Definition charset : string :=
  "abcdefghijklmnopqrstuvwxyzABCDEFGHIJKLMNOPQRSTUVWXYZ0123456789".

Definition byte_at (s : string) (i : Z) : ascii :=
  match String.get (Z.to_nat i) s with
  | Some c => c
  | None => zero
  end.

(** [for i := range b { b[i] = charset[mathrand.Intn(len(charset))] }] *)
Fixpoint fillFromCharset (n : nat) : M string :=
  match n with
  | O => ret EmptyString
  | S n' =>
      let* i := rand_Intn (Z.of_nat (String.length charset)) in
      let* rest := fillFromCharset n' in
      ret (String (byte_at charset i) rest)
  end.

(** [b := make([]byte, length)] panics when the runtime cannot allocate
    [length] bytes. *)
Definition generateRandomString (m : list string) : M Value :=
  let length :=
    if (1 <? List.length m)%nat && nonempty (group 1 m) then
      match strconv_Atoi (group 1 m) with
      | Some l => l
      | None => 10
      end
    else 10 in
  if ((length <? 0) || (makeslice_limit lib <? length))%Z then panic
  else let* b := fillFromCharset (Z.to_nat length) in ret (VString b).

Definition generateRandomNumber (m : list string) : M Value :=
  let '(min, max) :=
    if (2 <? List.length m)%nat && nonempty (group 1 m) && nonempty (group 2 m) then
      (match strconv_Atoi (group 1 m) with Some minVal => minVal | None => 1 end,
       match strconv_Atoi (group 2 m) with Some maxVal => maxVal | None => 1000 end)
    else (1, 1000) in
  let* r := rand_Intn (wrap64 (max - min + 1)) in
  ret (VInt (wrap64 (r + min))).

Definition generateRandomInt (m : list string) : M Value := generateRandomNumber m.

(** [min + mathrand.Float64()*(max-min)], each operation rounded on its own. *)
Definition generateRandomFloat (m : list string) : M Value :=
  let '(min, max) :=
    if (2 <? List.length m)%nat && nonempty (group 1 m) && nonempty (group 2 m) then
      (match strconv_ParseFloat lib (group 1 m) with
       | Some minVal => minVal
       | None => float64_of_Z 0
       end,
       match strconv_ParseFloat lib (group 2 m) with
       | Some maxVal => maxVal
       | None => float64_of_Z 100
       end)
    else (float64_of_Z 0, float64_of_Z 100) in
  let* f := rand_Float64 in
  ret (VFloat (fadd min (fmul f (fsub max min)))).

Definition generateRandomUUID (m : list string) : M Value :=
  let* bytes := rand_Read 16 in
  let b6 := Z.lor (Z.land (nth 6 bytes 0) 15) 64 in
  let bytes := <[6%nat := b6]> bytes in
  let b8 := Z.lor (Z.land (nth 8 bytes 0) 63) 128 in
  let bytes := <[8%nat := b8]> bytes in
  ret (VString (fmt_hex (firstn 4 bytes) ++ "-" ++
                fmt_hex (firstn 2 (skipn 4 bytes)) ++ "-" ++
                fmt_hex (firstn 2 (skipn 6 bytes)) ++ "-" ++
                fmt_hex (firstn 2 (skipn 8 bytes)) ++ "-" ++
                fmt_hex (skipn 10 bytes))).

Definition pick (l : list string) (i : Z) : string := nth (Z.to_nat i) l EmptyString.

Definition generateRandomEmail (m : list string) : M Value :=
  let names := ["john"; "jane"; "bob"; "alice"; "charlie"; "diana"; "eve"; "frank"] in
  let domains := ["example.com"; "test.com"; "demo.org"; "sample.net"] in
  let* i := rand_Intn (Z.of_nat (List.length names)) in
  let* j := rand_Intn (Z.of_nat (List.length domains)) in
  let* suffix := rand_Intn 9999 in
  ret (VString (pick names i ++ fmt_int suffix ++ "@" ++ pick domains j)).

Definition generateRandomName (m : list string) : M Value :=
  let firstNames := ["John"; "Jane"; "Bob"; "Alice"; "Charlie"; "Diana"; "Eve";
                     "Frank"; "Grace"; "Henry"] in
  let lastNames := ["Smith"; "Johnson"; "Brown"; "Davis"; "Miller"; "Wilson";
                    "Moore"; "Taylor"; "Anderson"; "Thomas"] in
  let* i := rand_Intn (Z.of_nat (List.length firstNames)) in
  let* j := rand_Intn (Z.of_nat (List.length lastNames)) in
  ret (VString (pick firstNames i ++ " " ++ pick lastNames j)).

Definition generateRandomTimestamp (m : list string) : M Value :=
  let* now := time_Now in
  let pastTime := time_AddDate lib now 0 0 (-30) in
  let* d := rand_Intn (now - pastTime) in
  ret (VString (time_Format_RFC3339 lib (pastTime + d))).

Definition generateRandomChoice (m : list string) : M Value :=
  if (List.length m <? 2)%nat then ret (VString "option1")
  else
    let choices := map strings_TrimSpace (strings_Split_comma (group 1 m)) in
    if (List.length choices =? 0)%nat then ret (VString "option1")
    else
      let* i := rand_Intn (Z.of_nat (List.length choices)) in
      ret (VString (pick choices i)).

(** The values of the [patterns] table. *)
Definition generator (k : Kind) : list string -> M Value :=
  match k with
  | KString => generateRandomString
  | KNumber => generateRandomNumber
  | KInt => generateRandomInt
  | KFloat => generateRandomFloat
  | KUUID => generateRandomUUID
  | KEmail => generateRandomEmail
  | KName => generateRandomName
  | KTimestamp => generateRandomTimestamp
  | KChoice => generateRandomChoice
  end.

(** The inner loop [for _, match := range matches]. *)
Fixpoint replaceMatches (k : Kind) (matches : list (list string)) (result : string)
  : M string :=
  match matches with
  | [] => ret result
  | m :: matches' =>
      let* replacement := generator k m in
      replaceMatches k matches'
        (strings_Replace1 result (group 0 m) (fmt_v replacement))
  end.

(** The outer loop [for pattern, generator := range patterns]. *)
Fixpoint replacePatterns (order : list Kind) (result : string) : M string :=
  match order with
  | [] => ret result
  | k :: order' =>
      let* result' :=
        replaceMatches k (FindAllStringSubmatch (pattern k) result) result in
      replacePatterns order' result'
  end.

Definition replaceRandomPlaceholders (text : string) : M Value :=
  let* order := next_order in
  let* result := replacePatterns order text in
  if negb (String.eqb result text) then
    match strconv_ParseFloat lib result with
    | Some val =>
        if feqb val (math_Trunc val) then ret (VInt (int_of_float64 val))
        else ret (VFloat val)
    | None => ret (VString result)
    end
  else ret (VString result).

(** A [map[string]interface{}] is a list of entries with distinct keys; the
    list order stands for the order in which [range] visits the map. *)
Fixpoint processRandomValue (value : Value) : M Value :=
  match value with
  | VString v => replaceRandomPlaceholders v
  | VMap v =>
      let* result :=
        forEach (fun kv => let* r := processRandomValue (snd kv) in ret (fst kv, r)) v in
      ret (VMap result)
  | VList v =>
      let* result := forEach processRandomValue v in
      ret (VList result)
  | _ => ret value
  end.

(** [baseVars == nil] is [None]. *)
Definition generateRandomVariables (baseVars : option (list (string * Value)))
  : M (option (list (string * Value))) :=
  match baseVars with
  | None => ret None
  | Some vars =>
      let* result :=
        forEach (fun kv => let* r := processRandomValue (snd kv) in ret (fst kv, r)) vars in
      ret (Some result)
  end.

End PlaceholderEngine.

(** *** Vocabulary of the claims about the engine *)

(** The bounds that [generateRandomNumber] reads from a match, and the
    length that [generateRandomString] reads from it. *)
Definition numberRange (m : list string) : Z * Z :=
  if (2 <? List.length m)%nat && nonempty (group 1 m) && nonempty (group 2 m) then
    (match strconv_Atoi (group 1 m) with Some minVal => minVal | None => 1 end,
     match strconv_Atoi (group 2 m) with Some maxVal => maxVal | None => 1000 end)
  else (1, 1000).

Definition stringLength (m : list string) : Z :=
  if (1 <? List.length m)%nat && nonempty (group 1 m) then
    match strconv_Atoi (group 1 m) with
    | Some l => l
    | None => 10
    end
  else 10.

(** Some pattern of the table matches somewhere in [text]. *)
Definition containsToken (text : string) : bool :=
  existsb (fun k => match FindAllStringSubmatch (pattern k) text with
                    | [] => false
                    | _ :: _ => true
                    end) allKinds.

(** [marker] occurs in [s]. *)
Fixpoint occursIn (marker s : string) : bool :=
  match strip_prefix marker s with
  | Some _ => true
  | None =>
      match s with
      | String _ s' => occursIn marker s'
      | EmptyString => false
      end
  end.

(** The source after one [range] over the pattern table that drew nothing. *)
Definition afterRange (src : Source) : Source :=
  mkSource (draws src) (cursor src) (clock src) (orders src) (S (ranges src)).

(** [v] has the shape of the template [t]: maps have the same keys in the
    same entries, lists the same length, the leaves that are not strings
    are the same, and a string leaf has become a string or a number. *)
#[local] Unset Elimination Schemes.

Inductive sameShape : Value -> Value -> Prop :=
| shape_null : sameShape VNull VNull
| shape_bool b : sameShape (VBool b) (VBool b)
| shape_int n : sameShape (VInt n) (VInt n)
| shape_float f : sameShape (VFloat f) (VFloat f)
| shape_string s s' : sameShape (VString s) (VString s')
| shape_string_int s n : sameShape (VString s) (VInt n)
| shape_string_float s f : sameShape (VString s) (VFloat f)
| shape_list l l' :
    Forall2 sameShape l l' -> sameShape (VList l) (VList l')
| shape_map m m' :
    Forall2 (fun e e' => fst e = fst e' /\ sameShape (snd e) (snd e')) m m' ->
    sameShape (VMap m) (VMap m').

#[local] Set Elimination Schemes.

(** No string leaf of the tree contains a token. *)
Fixpoint tokenFree (t : Value) : bool :=
  match t with
  | VString s => negb (containsToken s)
  | VList l => forallb tokenFree l
  | VMap m => forallb (fun e => tokenFree (snd e)) m
  | _ => true
  end.

(** ** The asynchronous log sink ([utils.go]) *)

Record RequestLogEntry := mkRequestLogEntry {
  Date : string;
  Status : Z;
  Request : string;
  Response : string
}.

(** A [csv.Writer] over the log file: the rows written so far, how many of
    them [Flush] has handed to the file, and the sticky error of the
    buffered writer underneath ([None] while every write has succeeded). *)
Record Writer := mkWriter {
  rows : list (list string);
  flushed : nat;
  werr : option string
}.

(** [w.Write(row)] returns the sticky error, if any, and writes nothing then. *)
Definition csv_Write (w : Writer) (row : list string) : Writer * option string :=
  match werr w with
  | Some e => (w, Some e)
  | None => (mkWriter (rows w ++ [row]) (flushed w) None, None)
  end.

(** [w.Flush()]; [io] is the error of the write to the file, if it fails. *)
Definition csv_Flush (w : Writer) (io : option string) : Writer :=
  match werr w with
  | Some e => w
  | None =>
      match io with
      | Some e => mkWriter (rows w) (flushed w) (Some e)
      | None => mkWriter (rows w) (List.length (rows w)) None
      end
  end.

(** A buffered channel of log entries. *)
Record Channel := mkChannel {
  queue : list RequestLogEntry;
  capacity : nat;
  closed : bool
}.

(** [nil] pointers and the [nil] channel are [None]; [waitGroup] is the
    counter of the [sync.WaitGroup], that is, the number of [logWorker]
    goroutines launched and not yet finished. *)
Record AsyncLogger := mkAsyncLogger {
  enabled : bool;
  logFile : option string;
  csvWriter : option Writer;
  logChannel : option Channel;
  waitGroup : nat;
  started : bool
}.

(** The outcome of a call: it returns, or the goroutine panics. *)
Inductive Outcome (A : Type) :=
| Returns (a : A)
| Panics.

Arguments Returns {A} a.
Arguments Panics {A}.

(** [NewAsyncLogger(enabled, logFilePath)]; [create] is the error of
    [os.Create], if it fails. *)
Definition NewAsyncLogger (enabled : bool) (logFilePath : string) (create : option string)
  : option AsyncLogger * option string :=
  if negb enabled then (Some (mkAsyncLogger enabled None None None 0 false), None)
  else
    match create with
    | Some err => (None, Some ("failed to create log file: " ++ err))
    | None =>
        (Some (mkAsyncLogger enabled (Some logFilePath)
                 (Some (mkWriter [] 0 None))
                 (Some (mkChannel [] 1000 false)) 0 false), None)
    end.

Definition csvHeader : list string := ["Date"; "Status"; "Request"; "Response"].

(** [al.Start()]: the logger afterwards and the error returned. *)
Definition Start (al : AsyncLogger) : Outcome (AsyncLogger * option string) :=
  if negb (enabled al) || started al then Returns (al, None)
  else
    match csvWriter al with
    | None => Panics
    | Some w =>
        match csv_Write w csvHeader with
        | (w', Some err) =>
            Returns (mkAsyncLogger (enabled al) (logFile al) (Some w') (logChannel al)
                       (waitGroup al) (started al),
                     Some ("failed to write CSV header: " ++ err))
        | (w', None) =>
            Returns (mkAsyncLogger (enabled al) (logFile al) (Some w') (logChannel al)
                       (S (waitGroup al)) true,
                     None)
        end
    end.

(** The [select] of [al.Log]: a send on a [nil] channel can never proceed,
    so the [default] case runs; a send on a closed channel panics; a send
    on an open channel proceeds when the buffer has room. *)
Definition trySend (ch : option Channel) (entry : RequestLogEntry)
  : Outcome (option Channel) :=
  match ch with
  | None => Returns None
  | Some c =>
      if closed c then Panics
      else if (List.length (queue c) <? capacity c)%nat then
        Returns (Some (mkChannel (queue c ++ [entry]) (capacity c) false))
      else Returns (Some c)
  end.

(** [al.Log(entry)]. *)
Definition Log (al : AsyncLogger) (entry : RequestLogEntry) : Outcome AsyncLogger :=
  if negb (enabled al) || negb (started al) then Returns al
  else
    match trySend (logChannel al) entry with
    | Returns ch' =>
        Returns (mkAsyncLogger (enabled al) (logFile al) (csvWriter al) ch'
                   (waitGroup al) (started al))
    | Panics => Panics
    end.

(** [al.LogRequest(statusCode, requestBody, responseBody)]; [now] is
    [time.Now().Format("2006-01-02 15:04:05")]. *)
Definition LogRequest (al : AsyncLogger) (now : string) (statusCode : Z)
    (requestBody responseBody : string) : Outcome AsyncLogger :=
  if negb (enabled al) then Returns al
  else Log al (mkRequestLogEntry now statusCode requestBody responseBody).

Definition entryRow (entry : RequestLogEntry) : list string :=
  [Date entry; fmt_int (Status entry); Request entry; Response entry].

(** One iteration of [for entry := range al.logChannel] in [logWorker]:
    the oldest entry is received, written and flushed. *)
Definition logWorkerStep (al : AsyncLogger) (io : option string) : option AsyncLogger :=
  match logChannel al, csvWriter al with
  | Some c, Some w =>
      match queue c with
      | entry :: rest =>
          let w' := csv_Flush (fst (csv_Write w (entryRow entry))) io in
          Some (mkAsyncLogger (enabled al) (logFile al) (Some w')
                  (Some (mkChannel rest (capacity c) (closed c)))
                  (waitGroup al) (started al))
      | [] => None
      end
  | _, _ => None
  end.

Definition IsEnabled (al : AsyncLogger) : bool := enabled al.

(** [n] calls of [Start] in a row, the errors returned being dropped. *)
Fixpoint startTimes (n : nat) (al : AsyncLogger) : Outcome AsyncLogger :=
  match n with
  | O => Returns al
  | S n' =>
      match Start al with
      | Returns (al', _) => startTimes n' al'
      | Panics => Panics
      end
  end.

(** The loggers a run can hold between [Start] and [Stop]: built by
    [NewAsyncLogger], then driven by [Start], by [Log] and by the
    iterations of [logWorker]. *)
Inductive running : AsyncLogger -> Prop :=
| running_new enabled path create al :
    NewAsyncLogger enabled path create = (Some al, None) ->
    running al
| running_Start al al' err :
    running al -> Start al = Returns (al', err) -> running al'
| running_Log al entry al' :
    running al -> Log al entry = Returns al' -> running al'
| running_worker al io al' :
    running al -> logWorkerStep al io = Some al' -> running al'.

(** What holds of an enabled logger between [Start] and [Stop]. *)
Record loggerInvariant (al : AsyncLogger) : Prop := {
  li_writer : exists w, csvWriter al = Some w
      /\ if started al then exists es, rows w = csvHeader :: map entryRow es
         else w = mkWriter [] 0 None;
  li_channel : exists c, logChannel al = Some c
      /\ capacity c = 1000%nat /\ closed c = false
      /\ (List.length (queue c) <= 1000)%nat
      /\ (started al = false -> queue c = []);
  li_waitGroup : waitGroup al = if started al then 1%nat else 0%nat
}.

(** ** [makeRequest] ([utils.go]) *)

(** What the network does with one request: [http.NewRequest] fails,
    [client.Do] fails, or [client.Do] returns a response with a status
    code, whose body is then read.  [io.ReadAll(resp.Body)] returns the
    bytes read and, when the read fails (the connection breaks, or the
    30 seconds of [client.Timeout] run out while the body arrives), the
    error [readErr]; [body] is then what was read before the failure.
    [elapsed] is [time.Since(start)] at the point where it is read. *)
Inductive Exchange :=
| RequestError (err : string) (elapsed : Z)
| TransportError (err : string) (elapsed : Z)
| HTTPResponse (statusCode : Z) (body : string) (readErr : option string) (elapsed : Z).

Section MakeRequest.

(** [json.Unmarshal(body, &gqlResp)] on a zero [gqlResp]: the value decoded
    and the error returned. *)
Variable json_Unmarshal : string -> GraphQLResponse * option string.

(** [body, _ := io.ReadAll(resp.Body)]: the error of the read is dropped. *)
Definition makeRequest (exchange : Exchange) (url payload authHeader authValue : string)
    (logRequests : bool) : RequestResult :=
  match exchange with
  | RequestError err elapsed =>
      mkRequestResult elapsed 0 (Some err) false EmptyString EmptyString
  | TransportError err elapsed =>
      mkRequestResult elapsed 0 (Some err) false EmptyString EmptyString
  | HTTPResponse statusCode body _ duration =>
      let success := (statusCode =? 200)%Z in
      let success :=
        if success then
          match json_Unmarshal body with
          | (gqlResp, None) => (List.length (Errors gqlResp) =? 0)%nat
          | (_, Some _) => success
          end
        else success in
      if logRequests then
        mkRequestResult duration statusCode None success payload body
      else
        mkRequestResult duration statusCode None success EmptyString EmptyString
  end.

End MakeRequest.

(** ** The dispatcher ([runLoadTest] in [main.go])

    The dispatch loop, the worker goroutines and the signal handler of
    [setupSignalHandling] run interleaved.  A state records where each of
    them stands; a step is what one of them does between two of its
    synchronisation points. *)

(** Where the goroutine of [runLoadTest] stands. *)
Inductive LoopPC :=
| AtSetup                 (* before the [for] statement: [make(chan struct{}, ...)] *)
| AtLoopHead              (* [requestCount < config.TotalReqs], then the shutdown flag *)
| AtLimiterWait           (* inside [limiter.Wait(ctx)] *)
| AtSpawn                 (* [wg.Add(1)] and the [go] statement *)
| AtWait                  (* [wg.Wait()] *)
| Returned (results : TestResults).

(** Where a worker goroutine stands.  [Finished None] is a worker that
    returned without an outcome, [Finished (Some r)] one that recorded [r]. *)
Inductive WorkerPC :=
| Acquiring               (* the [select] on [ctx.Done()] and the semaphore *)
| HoldingSlot             (* slot acquired, the shutdown flag not yet read *)
| Building                (* variables, auth value and payload *)
| Sending (payload authValue : string)   (* inside [makeRequest] *)
| Recording (result : RequestResult)     (* result at hand, before [mu.Lock()] *)
| Finished (outcome : option RequestResult).

(** Where the goroutine of [setupSignalHandling] stands: waiting for a
    signal, sleeping after it has set the flag, inside
    [printResults(testResults)] or [saveResults(testResults, testConfig)]
    with the pointer it has loaded from [testResults], or past
    [os.Exit(0)].  [Exited] also stands for a process ended by a panic. *)
Inductive HandlerPC :=
| Listening
| Sleeping
| Printing (results : TestResults)
| Saving (results : TestResults)
| Exited.

Record Run := mkRun {
  loop : LoopPC;
  requestCount : Z;
  workers : list WorkerPC;
  gracefulShutdown : bool;
  handler : HandlerPC;
  successCount : Z;
  failedCount : Z;
  statusCodes : gmap Z Z;                 (* the table of the [statusCodes] map *)
  testResults : option TestResults;       (* the global pointer; [None] is [nil] *)
  semaphore : Z              (* capacity of the [semaphore] channel *)
}.

Definition holdsSlot (w : WorkerPC) : bool :=
  match w with
  | HoldingSlot | Building | Sending _ _ | Recording _ => true
  | _ => false
  end.

(** The number of elements in the [semaphore] channel. *)
Definition inFlight (ws : list WorkerPC) : Z :=
  Z.of_nat (List.length (List.filter holdsSlot ws)).

Definition isFinished (w : WorkerPC) : bool :=
  match w with Finished _ => true | _ => false end.

Definition hasRecorded (w : WorkerPC) : bool :=
  match w with Finished (Some _) => true | _ => false end.

(** The number of workers that have recorded their outcome. *)
Definition recorded (ws : list WorkerPC) : Z :=
  Z.of_nat (List.length (List.filter hasRecorded ws)).

Definition inTransport (w : WorkerPC) : bool :=
  match w with Sending _ _ => true | _ => false end.

Definition alive (s : Run) : bool :=
  match handler s with Exited => false | _ => true end.

(** [statusCodes[code]++] *)
Definition increment (code : Z) (m : gmap Z Z) : gmap Z Z :=
  <[code := default 0 (m !! code) + 1]> m.

(** What a reader of the map [ref] finds in the state [s]. *)
Definition histogramOf (s : Run) (ref : MapRef) : gmap Z Z :=
  match ref with
  | statusCodesTable => statusCodes s
  end.

(** [&TestResults{TotalRequests: successCount + failedCount, ...,
    StatusCodes: statusCodes}]: the counters are copied, the map is shared. *)
Definition snapshot (successCount failedCount : Z) : TestResults :=
  mkTestResults (successCount + failedCount) successCount failedCount statusCodesTable.

(** The critical section between [mu.Lock()] and [mu.Unlock()] of worker
    [i].  It is one step: the other workers are kept out by the mutex and
    the loop reads the counters after [wg.Wait()] only.  The signal
    handler, which reads [testResults] and the map without the mutex, does
    so in steps of its own, before or after this one. *)
Definition record (i : nat) (result : RequestResult) (s : Run) : Run :=
  let successCount' := if Success result then successCount s + 1 else successCount s in
  let failedCount' := if Success result then failedCount s else failedCount s + 1 in
  let statusCodes' := increment (StatusCode result) (statusCodes s) in
  mkRun (loop s) (requestCount s) (<[i := Finished (Some result)]> (workers s))
    (gracefulShutdown s) (handler s) successCount' failedCount' statusCodes'
    (Some (snapshot successCount' failedCount')) (semaphore s).

Definition setLoop (pc : LoopPC) (s : Run) : Run :=
  mkRun pc (requestCount s) (workers s) (gracefulShutdown s) (handler s)
    (successCount s) (failedCount s) (statusCodes s) (testResults s) (semaphore s).

Definition setWorker (i : nat) (w : WorkerPC) (s : Run) : Run :=
  mkRun (loop s) (requestCount s) (<[i := w]> (workers s)) (gracefulShutdown s)
    (handler s) (successCount s) (failedCount s) (statusCodes s) (testResults s)
    (semaphore s).

(** [wg.Add(1); go func() { ... }()] and [requestCount++]. *)
Definition spawn (s : Run) : Run :=
  mkRun AtLoopHead (requestCount s + 1) (workers s ++ [Acquiring])
    (gracefulShutdown s) (handler s) (successCount s) (failedCount s)
    (statusCodes s) (testResults s) (semaphore s).

(** The handler receives the signal and stores 1 in [gracefulShutdown]. *)
Definition signal (s : Run) : Run :=
  mkRun (loop s) (requestCount s) (workers s) true Sleeping
    (successCount s) (failedCount s) (statusCodes s) (testResults s) (semaphore s).

Definition setHandler (pc : HandlerPC) (s : Run) : Run :=
  mkRun (loop s) (requestCount s) (workers s) (gracefulShutdown s) pc
    (successCount s) (failedCount s) (statusCodes s) (testResults s) (semaphore s).

(** The process ends: the handler calls [os.Exit(0)], or a goroutine
    panics. *)
Definition exit (s : Run) : Run :=
  mkRun (loop s) (requestCount s) (workers s) (gracefulShutdown s) Exited
    (successCount s) (failedCount s) (statusCodes s) (testResults s) (semaphore s).

(** Who takes a step. *)
Inductive Actor :=
| TheLoop
| Worker (i : nat)
| TheHandler.

Section Dispatcher.

Variable lib : GoLib.

(** [json.Marshal(GraphQLRequest{Query: q, Variables: v})]; [None] is an error. *)
Variable json_Marshal : string -> option (list (string * Value)) -> option string.

Variable json_Unmarshal : string -> GraphQLResponse * option string.

(** The run of [runLoadTest config], [config] being the configuration after
    [deriveConcurrency]. *)
Variable config : Config.

(** What a worker does between the shutdown check and [makeRequest]: the
    variables, the auth value and the payload.  The result is the payload
    and the auth value, or [None] when [json.Marshal] fails. *)
Definition buildRequest : M (option (string * string)) :=
  let* variables :=
    match BaseVariables config with
    | Some _ => generateRandomVariables lib (BaseVariables config)
    | None => ret None
    end in
  let* authValue :=
    if nonempty (BaseAuthValue config) then
      let* processed := replaceRandomPlaceholders lib (BaseAuthValue config) in
      match processed with
      | VString str => ret str
      | _ => ret (fmt_v lib processed)
      end
    else ret (BaseAuthValue config) in
  match json_Marshal (Mutation config) variables with
  | Some payloadBytes => ret (Some (payloadBytes, authValue))
  | None => ret None
  end.

(** The state in which [runLoadTest] is entered.  [semaphore] is the
    capacity that the set-up asks [make] for. *)
Definition start : Run :=
  mkRun AtSetup 0 [] false Listening 0 0 ∅ None (Concurrency config).

Inductive step : Run -> Actor -> Run -> Prop :=
(* [semaphore := make(chan struct{}, config.Concurrency)] *)
| loop_setup s :
    alive s = true -> loop s = AtSetup ->
    0 <= Concurrency config ->
    step s TheLoop (setLoop AtLoopHead s)
(* [make] panics on a negative capacity, which ends the process *)
| loop_setup_panic s :
    alive s = true -> loop s = AtSetup ->
    Concurrency config < 0 ->
    step s TheLoop (exit s)
(* the loop condition fails *)
| loop_end s :
    alive s = true -> loop s = AtLoopHead ->
    TotalReqs config <= requestCount s ->
    step s TheLoop (setLoop AtWait s)
(* [if atomic.LoadInt32(&gracefulShutdown) == 1 { break }] *)
| loop_shutdown s :
    alive s = true -> loop s = AtLoopHead ->
    requestCount s < TotalReqs config ->
    gracefulShutdown s = true ->
    step s TheLoop (setLoop AtWait s)
(* the flag is clear; [limiter != nil] exactly when [TargetRPS > 0] *)
| loop_admit s :
    alive s = true -> loop s = AtLoopHead ->
    requestCount s < TotalReqs config ->
    gracefulShutdown s = false ->
    step s TheLoop
      (setLoop (if (0 <? TargetRPS config)%Z then AtLimiterWait else AtSpawn) s)
(* [limiter.Wait(ctx)] returns nil *)
| loop_limiter_ok s :
    alive s = true -> loop s = AtLimiterWait ->
    step s TheLoop (setLoop AtSpawn s)
(* [limiter.Wait(ctx)] returns an error: [break] *)
| loop_limiter_err s :
    alive s = true -> loop s = AtLimiterWait ->
    step s TheLoop (setLoop AtWait s)
| loop_spawn s :
    alive s = true -> loop s = AtSpawn ->
    step s TheLoop (spawn s)
(* [wg.Wait()] returns once every worker has returned; the results are built *)
| loop_return s :
    alive s = true -> loop s = AtWait ->
    forallb isFinished (workers s) = true ->
    step s TheLoop
      (setLoop (Returned (snapshot (successCount s) (failedCount s))) s)
(* [case semaphore <- struct{}{}] *)
| worker_acquire s i :
    alive s = true -> workers s !! i = Some Acquiring ->
    inFlight (workers s) < semaphore s ->
    step s (Worker i) (setWorker i HoldingSlot s)
(* [case <-ctx.Done()]: the context is cancelled when [runLoadTest] returns *)
| worker_cancelled s i results :
    alive s = true -> workers s !! i = Some Acquiring ->
    loop s = Returned results ->
    step s (Worker i) (setWorker i (Finished None) s)
(* [if atomic.LoadInt32(&gracefulShutdown) == 1 { return }] *)
| worker_shutdown s i :
    alive s = true -> workers s !! i = Some HoldingSlot ->
    gracefulShutdown s = true ->
    step s (Worker i) (setWorker i (Finished None) s)
| worker_proceed s i :
    alive s = true -> workers s !! i = Some HoldingSlot ->
    gracefulShutdown s = false ->
    step s (Worker i) (setWorker i Building s)
(* the placeholder engine panics, which ends the process *)
| worker_panic s i src :
    alive s = true -> workers s !! i = Some Building ->
    buildRequest src = None ->
    step s (Worker i) (exit s)
(* [json.Marshal(payload)] fails: the worker prints the error and returns *)
| worker_marshal_err s i src src' :
    alive s = true -> workers s !! i = Some Building ->
    buildRequest src = Some (None, src') ->
    step s (Worker i) (setWorker i (Finished None) s)
| worker_send s i src src' payload authValue :
    alive s = true -> workers s !! i = Some Building ->
    buildRequest src = Some (Some (payload, authValue), src') ->
    step s (Worker i) (setWorker i (Sending payload authValue) s)
(* [makeRequest] returns *)
| worker_result s i payload authValue exchange :
    alive s = true -> workers s !! i = Some (Sending payload authValue) ->
    step s (Worker i)
      (setWorker i
         (Recording (makeRequest json_Unmarshal exchange (URL config) payload
                       (AuthHeader config) authValue (LogRequests config))) s)
| worker_record s i result :
    alive s = true -> workers s !! i = Some (Recording result) ->
    step s (Worker i) (record i result s)
(* a signal arrives *)
| handler_signal s :
    handler s = Listening ->
    step s TheHandler (signal s)
(* two seconds later: [testResults] is [nil], and the handler ends the process *)
| handler_exit s :
    handler s = Sleeping -> testResults s = None ->
    step s TheHandler (exit s)
(* [printResults(testResults)]: the pointer is loaded, without the mutex *)
| handler_print s results :
    handler s = Sleeping -> testResults s = Some results ->
    step s TheHandler (setHandler (Printing results) s)
(* the runtime finds the map being written while [printResults] ranges
   over it ("concurrent map iteration and map write") and ends the process *)
| handler_fault s results :
    handler s = Printing results ->
    step s TheHandler (exit s)
(* [testConfig.SaveResults] is false: [os.Exit(0)] *)
| handler_printed s results :
    handler s = Printing results -> SaveResults config = false ->
    step s TheHandler (exit s)
(* [saveResults(testResults, testConfig)]: the pointer is loaded again *)
| handler_save s printed results :
    handler s = Printing printed -> SaveResults config = true ->
    testResults s = Some results ->
    step s TheHandler (setHandler (Saving results) s)
(* [os.Exit(0)], or the same fault while [saveResults] encodes the map *)
| handler_saved s results :
    handler s = Saving results ->
    step s TheHandler (exit s).

(** The states a run passes through. *)
Inductive reachable : Run -> Prop :=
| reachable_start : reachable start
| reachable_step s a s' : reachable s -> step s a s' -> reachable s'.

End Dispatcher.

(** ** A library for the worked examples

    [exampleLib] fills [GoLib] so that the engine can be run on concrete
    inputs.  Its [ParseFloat] reads the decimal floating-point literals
    without underscores and the special values, correctly rounded (Go also
    reads hexadecimal literals and underscores between digits); its [%v]
    prints the shortest decimal that reads back as the same [float64]; its
    calendar is the one of the UTC time zone. *)

Definition lower (c : ascii) : ascii :=
  let n := nat_of_ascii c in
  if (65 <=? n)%nat && (n <=? 90)%nat then ascii_of_nat (n + 32) else c.

Fixpoint string_lower (s : string) : string :=
  match s with
  | EmptyString => EmptyString
  | String c s' => String (lower c) (string_lower s')
  end.

(** The correctly rounded [float64] of [(-1)^neg * n / d], for [0 <= n] and [0 < d]. *)
Definition float64_of_ratio (neg : bool) (n d : Z) : float64 :=
  if (n =? 0)%Z then S754_zero neg
  else
    let sh := Z.max 0 (Z.log2 d + 56 - Z.log2 n) in
    let '(q, r) := Z.div_eucl (n * 2 ^ sh) d in
    binary_round_aux 53 1024 neg q (- sh) (new_location d r).

(** The value [(-1)^neg * m * 10^e]. *)
Definition float64_of_decimal (neg : bool) (m e : Z) : float64 :=
  if (0 <=? e)%Z then float64_of_ratio neg (m * 10 ^ e) 1
  else float64_of_ratio neg m (10 ^ (- e)).

(** The exponent part of a literal: empty, or [e] or [E], an optional sign
    and digits. *)
Definition parse_exponent (s : string) : option Z :=
  match s with
  | EmptyString => Some 0
  | String c s' =>
      if Ascii.eqb (lower c) "e" then
        match s' with
        | String "-" ds => if all_digits ds then Some (- digits_value ds 0) else None
        | String "+" ds => if all_digits ds then Some (digits_value ds 0) else None
        | ds => if all_digits ds then Some (digits_value ds 0) else None
        end
      else None
  end.

Definition exampleParseFloat (s : string) : option float64 :=
  let (neg, body) :=
    match s with
    | String "-" s' => (true, s')
    | String "+" s' => (false, s')
    | _ => (false, s)
    end in
  let word := string_lower body in
  if String.eqb word "inf" || String.eqb word "infinity" then Some (S754_infinity neg)
  else if String.eqb (string_lower s) "nan" then Some S754_nan
  else
    let (ip, rest) := span is_digit body in
    let '(fp, rest) :=
      match rest with
      | String "." rest' => span is_digit rest'
      | _ => (EmptyString, rest)
      end in
    if nonempty ip || nonempty fp then
      match parse_exponent rest with
      | Some e =>
          let f := float64_of_decimal neg (digits_value (ip ++ fp) 0)
                     (e - Z.of_nat (String.length fp)) in
          match f with
          | S754_infinity _ => None
          | _ => Some f
          end
      | None => None
      end
    else None.

(** [floor(n / d * 10^p)] for a possibly negative [p]. *)
Definition scaled_floor (n d p : Z) : Z :=
  if (0 <=? p)%Z then (n * 10 ^ p) / d else n / (d * 10 ^ (- p)).

(** The decimal exponent [k] with [10^k <= n/d < 10^(k+1)]: an estimate
    from the binary logarithms, then corrected. *)
Definition decimal_exponent (n d : Z) : Z :=
  let k := ((Z.log2 n - Z.log2 d) * 30103) / 100000 - 1 in
  let fits k := (1 <=? scaled_floor n d (- k))%Z && (scaled_floor n d (- k) <? 10)%Z in
  if fits k then k else if fits (k + 1) then k + 1 else k + 2.

(** The shortest digits: [(D, k)] stands for [D * 10^(k - digits(D) + 1)].
    With [i] digits, the two decimals around the value are tried. *)
Fixpoint shortest_digits (fuel : nat) (i : Z) (f : float64) (n d k : Z) : Z * Z :=
  match fuel with
  | O => (scaled_floor n d (16 - k), k)
  | S fuel' =>
      let p := i - 1 - k in
      let lo := scaled_floor n d p in
      let hi := lo + 1 in
      let back x := float64_of_decimal false x (- p) in
      let okLo := feqb (back lo) f in
      let okHi := feqb (back hi) f in
      (* twice the distance of the value to [lo] against the gap *)
      let nearerLo :=
        (2 * (if (0 <=? p)%Z then n * 10 ^ p - lo * d
              else n - lo * d * 10 ^ (- p))
         <=? (if (0 <=? p)%Z then d else d * 10 ^ (- p)))%Z in
      if okLo && (negb okHi || nearerLo) then (lo, k)
      else if okHi then (if (hi =? 10 ^ i)%Z then (10 ^ (i - 1), k + 1) else (hi, k))
      else shortest_digits fuel' (i + 1) f n d k
  end.

Fixpoint strip_zeros (fuel : nat) (x : Z) : Z :=
  match fuel with
  | O => x
  | S fuel' => if (x mod 10 =? 0)%Z && negb (x =? 0)%Z then strip_zeros fuel' (x / 10) else x
  end.

Fixpoint zeros (n : nat) : string :=
  match n with O => EmptyString | S n' => String "0" (zeros n') end.

Definition take_bytes (n : nat) (s : string) : string := String.substring 0 n s.

(** The digits [ds] with the decimal point after the first digit and the
    exponent [k], as the verb [%e] prints them. *)
Definition format_e (ds : string) (k : Z) : string :=
  let mant :=
    match ds with
    | String c EmptyString => ds
    | String c rest => String c ("." ++ rest)
    | EmptyString => "0"
    end in
  let a := Z.abs k in
  mant ++ "e" ++ (if (k <? 0)%Z then "-" else "+")
       ++ (if (a <? 10)%Z then "0" else "") ++ fmt_int a.

(** The same digits in positional notation, as the verb [%f] prints them. *)
Definition format_f (ds : string) (k : Z) : string :=
  let nd := Z.of_nat (String.length ds) in
  if (k <? 0)%Z then "0." ++ zeros (Z.to_nat (- k - 1)) ++ ds
  else if (nd <=? k + 1)%Z then ds ++ zeros (Z.to_nat (k + 1 - nd))
  else take_bytes (Z.to_nat (k + 1)) ds ++ "." ++ drop_bytes (Z.to_nat (k + 1)) ds.

Definition exampleFormatFloat (f : float64) : string :=
  match f with
  | S754_nan => "NaN"
  | S754_infinity s => if s then "-Inf" else "+Inf"
  | S754_zero s => if s then "-0" else "0"
  | S754_finite s m e =>
      let n := if (0 <=? e)%Z then Z.pos m * 2 ^ e else Z.pos m in
      let d := if (0 <=? e)%Z then 1 else 2 ^ (- e) in
      let k := decimal_exponent n d in
      let '(digits, k) := shortest_digits 17 1 (S754_finite false m e) n d k in
      let ds := fmt_int (strip_zeros 17 digits) in
      (if s then "-" else "") ++
      (if (k <? -4)%Z || (6 <=? k)%Z then format_e ds k else format_f ds k)
  end.

Definition pad2 (n : Z) : string := (if (n <? 10)%Z then "0" else "") ++ fmt_int n.

Definition pad4 (n : Z) : string :=
  (if (n <? 10)%Z then "000" else if (n <? 100)%Z then "00"
   else if (n <? 1000)%Z then "0" else "") ++ fmt_int n.

(** The civil date of a day number counted from 1970-01-01. *)
Definition civil_of_days (days : Z) : Z * Z * Z :=
  let z := days + 719468 in
  let era := z / 146097 in
  let doe := z - era * 146097 in
  let yoe := (doe - doe / 1460 + doe / 36524 - doe / 146096) / 365 in
  let doy := doe - (365 * yoe + yoe / 4 - yoe / 100) in
  let mp := (5 * doy + 2) / 153 in
  let d := doy - (153 * mp + 2) / 5 + 1 in
  let m := if (mp <? 10)%Z then mp + 3 else mp - 9 in
  let y := yoe + era * 400 + (if (m <=? 2)%Z then 1 else 0) in
  (y, m, d).

Definition days_of_civil (y m d : Z) : Z :=
  let y := if (m <=? 2)%Z then y - 1 else y in
  let era := y / 400 in
  let yoe := y - era * 400 in
  let mp := if (2 <? m)%Z then m - 3 else m + 9 in
  let doy := (153 * mp + 2) / 5 + d - 1 in
  let doe := yoe * 365 + yoe / 4 - yoe / 100 + doy in
  era * 146097 + doe - 719468.

Definition nanosPerDay : Z := 86400 * Second.

(** [t.AddDate(years, months, days)] in UTC. *)
Definition exampleAddDate (t years months days : Z) : Z :=
  let '(y, m, d) := civil_of_days (t / nanosPerDay) in
  let months' := m - 1 + months in
  let y' := y + years + months' / 12 in
  let m' := months' mod 12 + 1 in
  (days_of_civil y' m' 1 + (d - 1) + days) * nanosPerDay + t mod nanosPerDay.

(** [t.Format(time.RFC3339)] in UTC. *)
Definition exampleFormatRFC3339 (t : Z) : string :=
  let '(y, m, d) := civil_of_days (t / nanosPerDay) in
  let secs := (t mod nanosPerDay) / Second in
  pad4 y ++ "-" ++ pad2 m ++ "-" ++ pad2 d ++ "T" ++
  pad2 (secs / 3600) ++ ":" ++ pad2 (secs / 60 mod 60) ++ ":" ++ pad2 (secs mod 60) ++ "Z".

(** The calendar and the formats above, on a machine that has a gigabyte
    to give. *)
Definition exampleLib : GoLib :=
  mkGoLib exampleParseFloat exampleFormatFloat exampleAddDate exampleFormatRFC3339
          (2 ^ 30).

Section DispatcherVocabulary.

Variable lib : GoLib.
Variable json_Marshal : string -> option (list (string * Value)) -> option string.
Variable json_Unmarshal : string -> GraphQLResponse * option string.
Variable config : Config.

(** What holds in every state of a run. *)
Record invariant (s : Run) : Prop := {
  inv_semaphore : semaphore s = Concurrency config;
  inv_count : requestCount s = Z.of_nat (List.length (workers s));
  inv_bound :
    match loop s with
    | AtLimiterWait | AtSpawn => requestCount s < TotalReqs config
    | _ => requestCount s <= Z.max 0 (TotalReqs config)
    end;
  inv_recorded : successCount s + failedCount s = recorded (workers s);
  inv_nonneg : 0 <= successCount s /\ 0 <= failedCount s;
  inv_published :
    forall r, testResults s = Some r ->
      r = snapshot (successCount s) (failedCount s);
  inv_held :
    forall r, handler s = Printing r \/ handler s = Saving r ->
      exists successes failures,
        r = snapshot successes failures
        /\ 0 <= successes <= successCount s /\ 0 <= failures <= failedCount s;
  inv_returned :
    forall r, loop s = Returned r ->
      r = snapshot (successCount s) (failedCount s)
      /\ forallb isFinished (workers s) = true
}.

(** The loop has left the [for] statement. *)
Definition loopLeft (s : Run) : Prop :=
  loop s = AtWait \/ exists results, loop s = Returned results.

(** "Workers that were dispatched are never aborted": whenever the process
    has ended, every worker has run to its end. *)
Definition neverAborted : Prop :=
  forall s, reachable lib json_Marshal json_Unmarshal config s ->
    alive s = false -> forallb isFinished (workers s) = true.

End DispatcherVocabulary.

(** ** Concrete loggers for the worked examples *)

(** The logger of [NewAsyncLogger(true, "results/dev/log.csv")] after
    [Start], with the entries [q] in its queue. *)
Definition loggerWithQueue (q : list RequestLogEntry) : AsyncLogger :=
  mkAsyncLogger true (Some "results/dev/log.csv")
    (Some (mkWriter [csvHeader] 0 None)) (Some (mkChannel q 1000 false)) 1 true.

Definition freshLogger : AsyncLogger :=
  mkAsyncLogger true (Some "results/dev/log.csv")
    (Some (mkWriter [] 0 None)) (Some (mkChannel [] 1000 false)) 0 false.

Definition exampleEntry : RequestLogEntry :=
  mkRequestLogEntry "2024-05-01 10:00:00" 200 "{}" "{}".

(** ** A concrete source for the worked examples *)

Definition exampleSource : Source :=
  mkSource (fun n => Z.of_nat n * 7919 + 3) 0 (1700000000 * Second)
           (fun _ => allKinds) 0.

(** A template with a map, a list and leaves of every kind. *)
Definition exampleTree : Value :=
  VMap [("id", VString "{{random.int(5,5)}}");
        ("tag", VString "user-{{random.choice(a, b)}}");
        ("flags", VList [VBool true; VNull; VInt 3; VString "plain"])].

(** [exampleTree] after expansion from [exampleSource], and the source then. *)
Definition expandedTree : Value :=
  VMap [("id", VInt 5);
        ("tag", VString "user-a");
        ("flags", VList [VBool true; VNull; VInt 3; VString "plain"])].

Definition exampleSourceAfter : Source :=
  mkSource (draws exampleSource) 2 (clock exampleSource) (orders exampleSource) 3.

(** The source after one value has been drawn. *)
Definition afterDraw (src : Source) : Source :=
  mkSource (draws src) (S (cursor src)) (clock src) (orders src) (ranges src).

(** A leaf that is more than one token: three digits, then a token. *)
Definition mixedLeaf : string := "555{{random.int(7,7)}}".

(** ** Concrete runs for the worked examples *)

(** An encoder that writes the query alone, and never fails. *)
Definition queryOnlyEncoder (query : string) (variables : option (list (string * Value)))
  : option string :=
  Some ("{query:" ++ query ++ "}").

(** A decoder that reads every body as a response without errors. *)
Definition noErrorsDecoder (body : string) : GraphQLResponse * option string :=
  (mkGraphQLResponse [], None).

Definition config_two : Config :=
  mkConfig "http://localhost:8894/graphql" "query { ok }" "Authorization" "Bearer x"
    "Bearer x" [] 1 2 0 0 None true true "results/dev" false "".

(** The result of the first request of the examples: status 200. *)
Definition firstResult : RequestResult :=
  makeRequest noErrorsDecoder (HTTPResponse 200 "{}" None 50)
    (URL config_two) "{query:query { ok }}" (AuthHeader config_two) "Bearer x"
    (LogRequests config_two).

(** The first iteration has spawned worker 0, which has taken the slot,
    sent its request and received status 200. *)
Definition answeredRun : Run :=
  setWorker 0 (Recording firstResult)
    (setWorker 0 (Sending "{query:query { ok }}" "Bearer x")
       (setWorker 0 Building
          (setWorker 0 HoldingSlot
             (spawn (setLoop AtSpawn (start config_two)))))).

(** Worker 0 has recorded the outcome. *)
Definition recordedRun : Run := record 0 firstResult answeredRun.

(** Worker 1 has passed its shutdown check when the signal arrives; two
    seconds later the handler picks up the result of [recordedRun] to
    print it, and then worker 1 records the outcome of the second request. *)
Definition staleRun : Run :=
  record 1 firstResult
    (setWorker 1 (Recording firstResult)
       (setWorker 1 (Sending "{query:query { ok }}" "Bearer x")
          (setHandler (Printing (snapshot 1 0))
             (signal
                (setWorker 1 Building
                   (setWorker 1 HoldingSlot
                      (spawn (setLoop AtSpawn recordedRun)))))))).

(** Worker 0 is inside the transport when the signal arrives; the handler
    then ends the process. *)
Definition abortedRun : Run :=
  exit (signal
    (setWorker 0 (Sending "{query:query { ok }}" "Bearer x")
       (setWorker 0 Building
          (setWorker 0 HoldingSlot
             (spawn (setLoop AtSpawn (start config_two))))))).

(** ** More vocabulary for the dispatcher *)

Section DispatcherRuns.

Variable lib : GoLib.
Variable json_Marshal : string -> option (list (string * Value)) -> option string.
Variable json_Unmarshal : string -> GraphQLResponse * option string.
Variable config : Config.

(** Any number of steps. *)
Inductive steps : Run -> Run -> Prop :=
| steps_refl s : steps s s
| steps_step s a s' s'' :
    step lib json_Marshal json_Unmarshal config s a s' -> steps s' s'' -> steps s s''.

(** The run that led to [s] went through the head of the [i]-th iteration
    of the loop: there, before any worker [i] existed, the loop read the
    shutdown flag clear, and only then did it go on to the wait on the
    limiter (with a target rate) or to the [go] statement (without). *)
Definition admittedAt (i : nat) (s : Run) : Prop :=
  exists s0 s1,
    reachable lib json_Marshal json_Unmarshal config s0
    /\ step lib json_Marshal json_Unmarshal config s0 TheLoop s1
    /\ steps s1 s
    /\ loop s0 = AtLoopHead /\ gracefulShutdown s0 = false
    /\ List.length (workers s0) = i
    /\ loop s1 = (if (0 <? TargetRPS config)%Z then AtLimiterWait else AtSpawn).

(** The run that led to [s] went through the shutdown check of worker [i]:
    there the worker held its slot and read the flag clear, and only then
    did it go on to build its request. *)
Definition checkedAt (i : nat) (s : Run) : Prop :=
  exists s0 s1,
    reachable lib json_Marshal json_Unmarshal config s0
    /\ step lib json_Marshal json_Unmarshal config s0 (Worker i) s1
    /\ steps s1 s
    /\ workers s0 !! i = Some HoldingSlot /\ gracefulShutdown s0 = false
    /\ workers s1 !! i = Some Building.

(** The run that led to [s] went through the acquisition of a slot by
    worker [i]: the worker was at the [select], and the semaphore had room. *)
Definition acquiredAt (i : nat) (s : Run) : Prop :=
  exists s0 s1,
    reachable lib json_Marshal json_Unmarshal config s0
    /\ step lib json_Marshal json_Unmarshal config s0 (Worker i) s1
    /\ steps s1 s
    /\ workers s0 !! i = Some Acquiring
    /\ inFlight (workers s0) < semaphore s0
    /\ workers s1 !! i = Some HoldingSlot.

End DispatcherRuns.

(** The worker has gone past its shutdown check. *)
Definition pastCheck (w : WorkerPC) : bool :=
  match w with
  | Building | Sending _ _ | Recording _ | Finished (Some _) => true
  | _ => false
  end.

(** The worker is inside [makeRequest] or has come back from it. *)
Definition hasSent (w : WorkerPC) : bool :=
  match w with
  | Sending _ _ | Recording _ | Finished (Some _) => true
  | _ => false
  end.

(** The number of workers inside [makeRequest]. *)
Definition inTransit (ws : list WorkerPC) : Z :=
  Z.of_nat (List.length (List.filter inTransport ws)).

(** The sum of the counts of a status-code histogram. *)
Definition histogramTotal (m : gmap Z Z) : Z :=
  map_fold (fun _ n acc => n + acc) 0 m.

(** The loop has passed the shutdown check of an iteration whose worker is
    not yet spawned. *)
Definition admitted (s : Run) : Z :=
  match loop s with
  | AtLimiterWait | AtSpawn => 1
  | _ => 0
  end.

Definition isAcquiring (w : WorkerPC) : bool :=
  match w with Acquiring => true | _ => false end.

(** ** More concrete runs *)

(** The loop of [config_two] has spawned both workers and left the [for]
    statement. *)
Definition spawnedAll : Run :=
  setLoop AtWait
    (spawn (setLoop AtSpawn (spawn (setLoop AtSpawn (start config_two))))).

(** The signal arrives when the first iteration has passed the check at
    the head of the loop. *)
Definition signalledAfterCheck : Run :=
  signal (setLoop AtSpawn (start config_two)).

Definition config_zero : Config :=
  mkConfig "http://localhost:8894/graphql" "query { ok }" "Authorization" "Bearer x"
    "Bearer x" [] 0 2 0 0 None true true "results/dev" false "".

(** The first worker of [config_zero] has been spawned. *)
Definition blockedRun : Run := spawn (setLoop AtSpawn (start config_zero)).

(** ** [AsyncLogger.Stop] and the end of [logWorker] ([utils.go]) *)

(** [close(ch)]: a panic on a [nil] channel and on a closed one. *)
Definition closeChannel (ch : option Channel) : Outcome Channel :=
  match ch with
  | None => Panics
  | Some c =>
      if closed c then Panics
      else Returns (mkChannel (queue c) (capacity c) true)
  end.

(** The iterations of [for entry := range al.logChannel] over the entries
    [q] still in the queue: each is written, then flushed.  [io] is the
    error of the writes to the file, if they fail. *)
Fixpoint drain (q : list RequestLogEntry) (w : Writer) (io : option string) : Writer :=
  match q with
  | [] => w
  | entry :: q' => drain q' (csv_Flush (fst (csv_Write w (entryRow entry))) io) io
  end.

(** [al.Stop()].  After [close], [waitGroup.Wait()] returns when [logWorker]
    has received what is left in the queue, run its deferred [Flush] and
    called [Done]; with a counter of 0 there is no worker to wait for, and
    a worker without a [csv.Writer] panics.  [closeErr] is the error of
    [logFile.Close()], if it fails. *)
Definition Stop (al : AsyncLogger) (io closeErr : option string)
  : Outcome (AsyncLogger * option string) :=
  if negb (enabled al) || negb (started al) then Returns (al, None)
  else
    match closeChannel (logChannel al) with
    | Panics => Panics
    | Returns c =>
        let joined :=
          if (waitGroup al =? 0)%nat then
            Returns (mkAsyncLogger (enabled al) (logFile al) (csvWriter al) (Some c)
                       (waitGroup al) (started al))
          else
            match csvWriter al with
            | Some w =>
                Returns (mkAsyncLogger (enabled al) (logFile al)
                           (Some (csv_Flush (drain (queue c) w io) io))
                           (Some (mkChannel [] (capacity c) true)) 0 (started al))
            | None => Panics
            end in
        match joined with
        | Panics => Panics
        | Returns al' =>
            match logFile al', closeErr with
            | Some _, Some err =>
                Returns (al', Some ("failed to close log file: " ++ err))
            | _, _ =>
                Returns (mkAsyncLogger (enabled al') (logFile al') (csvWriter al')
                           (logChannel al') (waitGroup al') false, None)
            end
        end
    end.

(** What happens to a logger between [Start] and [Stop], in the order in
    which it happens: some goroutine calls [Log] with an entry, or
    [logWorker] goes through one iteration of its loop. *)
Inductive LogEvent :=
| Offer (entry : RequestLogEntry)
| Consume.

(** A schedule of such events.  An iteration of [logWorker] on an empty
    queue waits, and leaves the logger as it is.  [io] is the error of
    the writes to the file, if they fail. *)
Fixpoint runLog (io : option string) (events : list LogEvent) (al : AsyncLogger)
  : Outcome AsyncLogger :=
  match events with
  | [] => Returns al
  | Offer entry :: events' =>
      match Log al entry with
      | Returns al' => runLog io events' al'
      | Panics => Panics
      end
  | Consume :: events' =>
      match logWorkerStep al io with
      | Some al' => runLog io events' al'
      | None => runLog io events' al
      end
  end.

(** The entries of a schedule that find room in the queue, which holds
    [queued] entries when the schedule begins: an entry is left out when
    1000 entries are waiting at the moment it is offered. *)
Fixpoint accepted (events : list LogEvent) (queued : nat) : list RequestLogEntry :=
  match events with
  | [] => []
  | Offer entry :: events' =>
      if (queued <? 1000)%nat then entry :: accepted events' (S queued)
      else accepted events' queued
  | Consume :: events' => accepted events' (Nat.pred queued)
  end.

(** ** [loadConfigFromFile] ([utils.go]) *)

(** [EnvConfig] and [MutationConfig], the nested anonymous structs
    flattened: [Auth.Header] is [AuthHeaderName], [Load.Requests] is
    [LoadRequests], and so on. *)
Record EnvConfig := mkEnvConfig {
  EnvURL : string;
  EnvHeaders : list (string * string);
  AuthHeaderName : string;
  AuthHeaderValue : string
}.

Record MutationConfig := mkMutationConfig {
  Name : string;
  Description : string;
  Environments : gmap string EnvConfig;
  Query : string;
  Variables : option (list (string * Value));
  MutationHeaders : list (string * string);
  LoadConcurrency : Z;
  LoadRequests : Z;
  LoadRPS : Z;
  LoadDurationSec : Z;
  LoggingEnabled : bool;
  LoggingLogFile : string
}.

Section Loader.

(** [yaml.Unmarshal(data, &yamlConfig)]: the configuration decoded, or the
    error. *)
Variable yaml_Unmarshal : string -> MutationConfig + string.

(** [file] is what [os.ReadFile(filename)] returns, the data or the error;
    [timestamp] is [time.Now().Format("20060102_150405")].  The result is
    the configuration or the error. *)
Definition loadConfigFromFile (file : string + string) (environment timestamp : string)
  : Config + string :=
  match file with
  | inr err => inr ("failed to read config file: " ++ err)
  | inl data =>
      match yaml_Unmarshal data with
      | inr err => inr ("failed to parse YAML config: " ++ err)
      | inl yamlConfig =>
          match Environments yamlConfig !! environment with
          | None => inr ("environment '" ++ environment ++ "' not found in config file")
          | Some envConfig =>
              let authHeader :=
                if nonempty (AuthHeaderName envConfig) then AuthHeaderName envConfig
                else "Authorization" in
              let concurrency :=
                if (LoadConcurrency yamlConfig =? 0)%Z then 10
                else LoadConcurrency yamlConfig in
              let requests :=
                if (LoadRequests yamlConfig =? 0)%Z then 100
                else LoadRequests yamlConfig in
              if negb (nonempty (EnvURL envConfig)) then
                inr ("URL is required for environment '" ++ environment
                     ++ "' in config file")
              else if negb (nonempty (Query yamlConfig)) then
                inr "Query/Mutation is required in config file"
              else if negb (nonempty (AuthHeaderValue envConfig)) then
                inr ("auth value is required for environment '" ++ environment
                     ++ "' in config file")
              else
                let logFile :=
                  if LoggingEnabled yamlConfig && negb (nonempty (LoggingLogFile yamlConfig))
                  then "results/" ++ environment ++ "/request_log_" ++ timestamp ++ ".jsonl"
                  else LoggingLogFile yamlConfig in
                inl (mkConfig (EnvURL envConfig) (Query yamlConfig) authHeader
                       (AuthHeaderValue envConfig) (AuthHeaderValue envConfig)
                       [] concurrency requests 0 0 (Variables yamlConfig)
                       true true ("results/" ++ environment)
                       (LoggingEnabled yamlConfig) logFile)
          end
      end
  end.

End Loader.

(** A configuration file for the worked examples, as decoded. *)
Definition exampleMutationConfig : MutationConfig :=
  mkMutationConfig "create user" "creates one user"
    {[ "dev" := mkEnvConfig "http://localhost:8894/graphql" [("X-Trace", "1")] ""
                  "Bearer {{random.string(10)}}" ]}
    "mutation { createUser { id } }"
    (Some [("id", VString "{{random.uuid}}")])
    [] 0 0 50 30 true "".

Definition exampleYamlDecoder (data : string) : MutationConfig + string :=
  inl exampleMutationConfig.

Definition exampleLoadedConfig : Config :=
  mkConfig "http://localhost:8894/graphql" "mutation { createUser { id } }"
    "Authorization" "Bearer {{random.string(10)}}" "Bearer {{random.string(10)}}"
    [] 10 100 0 0 (Some [("id", VString "{{random.uuid}}")]) true true "results/dev"
    true "results/dev/request_log_20240501_100000.jsonl".

(** ** More vocabulary for the engine *)

(** Every byte of [s] satisfies [f]. *)
Fixpoint all_bytes (f : ascii -> bool) (s : string) : bool :=
  match s with
  | EmptyString => true
  | String c s' => f c && all_bytes f s'
  end.

(** [c] is one of the bytes of [charset]. *)
Definition in_charset (c : ascii) : bool :=
  existsb (Ascii.eqb c) (list_ascii_of_string charset).

Definition is_hex (c : ascii) : bool :=
  existsb (Ascii.eqb c) (list_ascii_of_string "0123456789abcdef").

(** The source after [n] values have been drawn. *)
Definition afterDraws (n : nat) (src : Source) : Source :=
  mkSource (draws src) (n + cursor src) (clock src) (orders src) (ranges src).

(** A capture of a [\d+] group: empty when the group took no part in the
    match, decimal digits otherwise. *)
Definition digitCapture (c : string) : Prop := c = EmptyString \/ all_digits c = true.

(** The pieces and items whose captures are [\d+] groups. *)
Definition digitPiece (p : Piece) : bool :=
  match p with Lit _ | Digits => true | _ => false end.

Definition digitItem (i : Item) : bool :=
  match i with One p => digitPiece p | Optional ps => forallb digitPiece ps end.

(** A computation that leaves the clock as it found it. *)
Definition keepsClock {A} (c : M A) : Prop :=
  forall src a src', c src = Some (a, src') -> clock src' = clock src.

(** The bounds of a [random.number] or [random.int] token leave [rand.Intn]
    nothing to choose from: they are reversed, or they span every
    non-negative [int], so that the size of the range overflows. *)
Definition emptyRange (m : list string) : Prop :=
  snd (numberRange m) < fst (numberRange m) \/ numberRange m = (0, maxInt).

(** The two ways a match [m] of the pattern of [k] brings its generator
    down: an empty range, and a string longer than the runtime allocates. *)
Definition panicSite (lib : GoLib) (k : Kind) (m : list string) : Prop :=
  ((k = KNumber \/ k = KInt) /\ emptyRange m)
  \/ (k = KString /\ makeslice_limit lib < stringLength m).

(** The string leaves of a tree, in the order of the traversal. *)
Fixpoint leaves (t : Value) : list string :=
  match t with
  | VString s => [s]
  | VList l => flat_map leaves l
  | VMap m => flat_map (fun e => leaves (snd e)) m
  | _ => []
  end.

(** ** Response bodies for the worked examples *)

Definition dquote : string := String (ascii_of_nat 34) EmptyString.

(** The body [{"errors":[{"message":1}]}]: an error list whose message is
    a number, not a string. *)
Definition ill_typed_errors : string :=
  "{" ++ dquote ++ "errors" ++ dquote ++ ":[{" ++ dquote ++ "message" ++ dquote ++ ":1}]}".

(** The body [{"errors":[{"message":"boom"}]}]. *)
Definition boom_errors : string :=
  "{" ++ dquote ++ "errors" ++ dquote ++ ":[{" ++ dquote ++ "message" ++ dquote ++ ":"
      ++ dquote ++ "boom" ++ dquote ++ "}]}".

(** [json.Unmarshal] into a zero [GraphQLResponse] on four bodies.  On a
    value of the wrong type it goes on decoding, here into one error with
    an empty message, and returns an [UnmarshalTypeError]; on a text that
    is not a complete JSON value it leaves the response untouched and
    returns a [SyntaxError]. *)
Definition exampleDecoder (body : string) : GraphQLResponse * option string :=
  if String.eqb body "{}" then (mkGraphQLResponse [], None)
  else if String.eqb body boom_errors then (mkGraphQLResponse ["boom"], None)
  else if String.eqb body ill_typed_errors then
    (mkGraphQLResponse [EmptyString],
     Some "json: cannot unmarshal number into Go struct field .errors.message of type string")
  else (mkGraphQLResponse [], Some "unexpected end of JSON input").

(** A template whose one leaf asks for an integer between 5 and 1. *)
Definition reversedTree : Value := VMap [("n", VString "{{random.int(5,1)}}")].

(** Neither the variables nor the auth value of [config] hold a token. *)
Definition staticTemplate (config : Config) : bool :=
  match BaseVariables config with
  | Some vars => tokenFree (VMap vars)
  | None => true
  end && negb (containsToken (BaseAuthValue config)).

Definition config_static : Config :=
  mkConfig "http://localhost:8894/graphql" "mutation { ping }" "Authorization" "Bearer x"
    "Bearer x" [] 1 2 0 0 (Some [("id", VInt 7); ("tag", VString "fixed")])
    true true "results/dev" false "".

(** The text of a [random.number] or [random.int] token with the bounds
    [a] and [b]. *)
Definition rangeToken (k : Kind) (a b : string) : string :=
  match k with
  | KNumber => "{{random.number" ++ "(" ++ a ++ "," ++ b ++ ")" ++ "}}"
  | _ => "{{random.int" ++ "(" ++ a ++ "," ++ b ++ ")" ++ "}}"
  end.

Definition no_brace (c : ascii) : bool := negb (Ascii.eqb c "{").

(** ** The report ([main.go])

    What [printResults] and [saveResults] compute from the counters: the
    two rates and the colours of the summary lines. *)









(** * Properties *)

(** ** The set-up of [runLoadTest] *)

Lemma estP95_seconds : Duration_Seconds estP95 = S754_finite false 5404319552844595 (-54).
Proof. reflexivity. Qed.

Example estimatedConcurrency_10 : estimatedConcurrency 10 = 3.
Proof. reflexivity. Qed.

Example estimatedConcurrency_7 : estimatedConcurrency 7 = 3.
Proof. reflexivity. Qed.

Example estimatedConcurrency_1000000007 : estimatedConcurrency 1000000007 = 300000003.
Proof. reflexivity. Qed.

(** *** The binary64 computation of the derived concurrency

    [float64(R)] is exact for a rate below 2^52; the product with the
    binary64 value of 0.3 seconds is rounded once, to nearest and ties to
    even; [math.Ceil] and the conversion to [int] are exact.  The lemmas
    below follow the rounding of [SpecFloat] step by step. *)

Section Binary64.

Local Open Scope Z_scope.

Lemma digits2_pos_bounds (p : positive) :
  2 ^ (Z.pos (digits2_pos p) - 1) <= Z.pos p < 2 ^ Z.pos (digits2_pos p).
Proof.
  induction p as [p IH | p IH |]; cbn [digits2_pos].
  - rewrite Pos2Z.inj_succ. replace (Z.succ (Z.pos (digits2_pos p)) - 1) with (Z.succ (Z.pos (digits2_pos p) - 1)) by lia.
    rewrite !Z.pow_succ_r by lia. lia.
  - rewrite Pos2Z.inj_succ. replace (Z.succ (Z.pos (digits2_pos p)) - 1) with (Z.succ (Z.pos (digits2_pos p) - 1)) by lia.
    rewrite !Z.pow_succ_r by lia. lia.
  - cbn. lia.
Qed.

Lemma digits2_pos_range (p : positive) (a b : Z) :
  0 <= a -> 0 <= b -> 2 ^ a <= Z.pos p < 2 ^ b ->
  a < Z.pos (digits2_pos p) <= b.
Proof.
  intros Ha Hb [Hlo Hhi]. pose proof (digits2_pos_bounds p) as [Hl Hh].
  split.
  - apply (Z.pow_lt_mono_r_iff 2); lia.
  - assert (Z.pos (digits2_pos p) - 1 < b); [|lia].
    apply (Z.pow_lt_mono_r_iff 2); lia.
Qed.

Lemma iter_xO_value (k : positive) (r : positive) :
  Z.pos (Pos.iter xO r k) = Z.pos r * 2 ^ Z.pos k.
Proof.
  revert r. induction k as [|k IH] using Pos.peano_ind; intros r.
  - cbn [Pos.iter]. lia.
  - rewrite Pos.iter_succ, Pos2Z.inj_xO, IH, Pos2Z.inj_succ, Z.pow_succ_r by lia. lia.
Qed.

(** [iter_pos] counts its iterations like [Nat.iter]. *)
Lemma iter_pos_nat {A} (f : A -> A) (p : positive) (x : A) :
  @SpecFloat.iter_pos A f p x = Nat.iter (Pos.to_nat p) f x.
Proof.
  revert x. induction p as [p IH | p IH |]; intros x; cbn [SpecFloat.iter_pos].
  - rewrite !IH. rewrite Pos2Nat.inj_xI. 
    replace (S (2 * Pos.to_nat p))%nat with (Pos.to_nat p + (Pos.to_nat p + 1))%nat by lia.
    rewrite !Nat.iter_add. reflexivity.
  - rewrite !IH. rewrite Pos2Nat.inj_xO.
    replace (2 * Pos.to_nat p)%nat with (Pos.to_nat p + Pos.to_nat p)%nat by lia.
    rewrite !Nat.iter_add. reflexivity.
  - reflexivity.
Qed.

Lemma shr_1_nonneg (m : Z) (r s : bool) :
  0 <= m ->
  shr_1 (Build_shr_record m r s) = Build_shr_record (m / 2) (Z.odd m) (orb r s).
Proof.
  intros Hm. destruct m as [|p|p]; [reflexivity| |lia].
  destruct p as [p|p|]; cbn [shr_1].
  - replace (Z.pos p~1 / 2) with (Z.pos p); [reflexivity|].
    apply (Z.div_unique _ 2 _ 1); lia.
  - replace (Z.pos p~0 / 2) with (Z.pos p); [reflexivity|].
    apply (Z.div_unique _ 2 _ 0); lia.
  - reflexivity.
Qed.

Lemma shr_iter_spec (M : Z) (n : nat) :
  0 <= M ->
  let x := Nat.iter (S n) shr_1 (Build_shr_record M false false) in
  shr_m x = M / 2 ^ Z.of_nat (S n)
  /\ shr_r x = (2 ^ Z.of_nat n <=? M mod 2 ^ Z.of_nat (S n))
  /\ shr_s x = negb (M mod 2 ^ Z.of_nat n =? 0).
Proof.
  intros HM. induction n as [|n IH].
  - cbn [Nat.iter]. rewrite shr_1_nonneg by lia. cbn [shr_m shr_r shr_s].
    change (2 ^ Z.of_nat 1) with 2. change (2 ^ Z.of_nat 0) with 1.
    rewrite Z.mod_1_r. split; [reflexivity|]. split; [|reflexivity].
    rewrite Zodd_mod. pose proof (Z.mod_pos_bound M 2 ltac:(lia)).
    destruct (Z.eqb_spec (M mod 2) 1), (Z.leb_spec 1 (M mod 2)); try reflexivity; lia.
  - cbv zeta in IH |- *. 
    set (x := Nat.iter (S n) shr_1 _) in *.
    change (Nat.iter (S (S n)) shr_1 ?y) with (shr_1 (Nat.iter (S n) shr_1 y)).
    fold x. destruct IH as (Hm & Hr & Hs). destruct x as [m r s]. cbn [shr_m shr_r shr_s] in *.
    assert (Hpow : 0 < 2 ^ Z.of_nat n) by (apply Z.pow_pos_nonneg; lia).
    assert (HS : 2 ^ Z.of_nat (S n) = 2 * 2 ^ Z.of_nat n)
      by (rewrite Nat2Z.inj_succ, Z.pow_succ_r by lia; reflexivity).
    assert (HSS : 2 ^ Z.of_nat (S (S n)) = 2 * 2 ^ Z.of_nat (S n))
      by (rewrite (Nat2Z.inj_succ (S n)), Z.pow_succ_r by lia; reflexivity).
    assert (0 <= m) by (subst m; apply Z.div_pos; lia).
    rewrite shr_1_nonneg by assumption. cbn [shr_m shr_r shr_s].
    pose proof (Z.div_mod M (2 ^ Z.of_nat (S n)) ltac:(lia)) as E1.
    pose proof (Z.mod_pos_bound M (2 ^ Z.of_nat (S n)) ltac:(lia)) as B1.
    pose proof (Z.div_mod m 2 ltac:(lia)) as E2.
    pose proof (Z.mod_pos_bound m 2 ltac:(lia)) as B2.
    pose proof (Z.div_mod M (2 ^ Z.of_nat n) ltac:(lia)) as E0.
    pose proof (Z.mod_pos_bound M (2 ^ Z.of_nat n) ltac:(lia)) as B0.
    rewrite <- Hm in E1.
    set (P := 2 ^ Z.of_nat n) in *. set (Q := 2 ^ Z.of_nat (S n)) in *.
    set (rho := M mod Q) in *. set (rho0 := M mod P) in *.
    assert (Hdiv2 : M / 2 ^ Z.of_nat (S (S n)) = m / 2).
    { rewrite HSS. symmetry. apply (Z.div_unique _ _ _ (Q * (m mod 2) + rho)); nia. }
    assert (Hmod2 : M mod 2 ^ Z.of_nat (S (S n)) = Q * (m mod 2) + rho).
    { rewrite HSS. symmetry. apply (Z.mod_unique _ _ (m / 2)); nia. }
    split; [symmetry; exact Hdiv2|]. split.
    + rewrite Hmod2, Zodd_mod.
      destruct (Z.eqb_spec (m mod 2) 1), (Z.leb_spec Q (Q * (m mod 2) + rho)); try reflexivity; nia.
    + rewrite Hr, Hs. fold rho rho0.
      assert (Hrho : rho = rho0 \/ rho = rho0 + P).
      { assert (rho0 = rho mod P).
        { apply (Z.mod_unique rho P (M / P - 2 * m) rho0); [left; lia | nia]. }
        pose proof (Z.div_mod rho P ltac:(lia)).
        assert (0 <= rho / P < 2).
        { split; [apply Z.div_pos; lia|]. apply Z.div_lt_upper_bound; lia. }
        assert (rho / P = 0 \/ rho / P = 1) as [E|E] by lia; rewrite E in *; lia. }
      destruct (Z.leb_spec P rho), (Z.eqb_spec rho0 0), (Z.eqb_spec rho 0); cbn; try reflexivity; lia.
Qed.

Lemma shr_fexp_keep (m : positive) (e : Z) :
  Z.pos (digits2_pos m) = 53 -> -1074 <= e ->
  shr_fexp 53 1024 (Z.pos m) e loc_Exact = (Build_shr_record (Z.pos m) false false, e).
Proof.
  intros Hd He. unfold shr_fexp, Zdigits2, shr_record_of_loc. rewrite Hd.
  replace (fexp 53 1024 (53 + e) - e) with 0; [reflexivity|].
  unfold fexp, emin. lia.
Qed.

Lemma shr_fexp_shift (m : positive) (e : Z) (p : positive) :
  Z.pos (digits2_pos m) = 53 + Z.pos p -> -1074 <= e ->
  shr_fexp 53 1024 (Z.pos m) e loc_Exact
  = (Nat.iter (Pos.to_nat p) shr_1 (Build_shr_record (Z.pos m) false false), e + Z.pos p).
Proof.
  intros Hd He. unfold shr_fexp, Zdigits2, shr_record_of_loc. rewrite Hd.
  replace (fexp 53 1024 (53 + Z.pos p + e) - e) with (Z.pos p) by (unfold fexp, emin; lia).
  cbn [shr]. rewrite iter_pos_nat. reflexivity.
Qed.

Lemma binary_round_aux_keep (m : positive) (e : Z) :
  Z.pos (digits2_pos m) = 53 -> -1074 <= e <= 971 ->
  binary_round_aux 53 1024 false (Z.pos m) e loc_Exact = S754_finite false m e.
Proof.
  intros Hd He. unfold binary_round_aux.
  rewrite shr_fexp_keep by lia. cbn [shr_m loc_of_shr_record round_nearest_even].
  rewrite shr_fexp_keep by lia. cbn [shr_m].
  replace (e <=? 1024 - 53) with true by (symmetry; apply Z.leb_le; lia). reflexivity.
Qed.

(** [float64(n)] for 1 <= n < 2^53 is exact. *)
Lemma float64_of_Z_small (r : positive) :
  Z.pos r < 2 ^ 52 ->
  exists m, float64_of_Z (Z.pos r) = S754_finite false m (Z.pos (digits2_pos r) - 53)
            /\ Z.pos m = Z.pos r * 2 ^ (53 - Z.pos (digits2_pos r))
            /\ Z.pos (digits2_pos m) = 53.
Proof.
  intros Hr. pose proof (digits2_pos_bounds r) as Hb.
  set (d := Z.pos (digits2_pos r)) in *.
  assert (Hd : 0 < d <= 52).
  { split; [unfold d; lia|]. assert (d - 1 < 52); [|lia].
    apply (Z.pow_lt_mono_r_iff 2); lia. }
  exists (Pos.iter xO r (Z.to_pos (53 - d))).
  assert (Hval : Z.pos (Pos.iter xO r (Z.to_pos (53 - d))) = Z.pos r * 2 ^ (53 - d)).
  { rewrite iter_xO_value, Z2Pos.id by lia. reflexivity. }
  assert (Hdig : Z.pos (digits2_pos (Pos.iter xO r (Z.to_pos (53 - d)))) = 53).
  { assert (52 < Z.pos (digits2_pos (Pos.iter xO r (Z.to_pos (53 - d)))) <= 53); [|lia].
    apply digits2_pos_range; [lia|lia|]. rewrite Hval.
    assert (E1 : 2 ^ 52 = 2 ^ (d - 1) * 2 ^ (53 - d))
      by (rewrite <- Z.pow_add_r by lia; f_equal; lia).
    assert (E2 : 2 ^ 53 = 2 ^ d * 2 ^ (53 - d))
      by (rewrite <- Z.pow_add_r by lia; f_equal; lia).
    assert (0 < 2 ^ (53 - d)) by (apply Z.pow_pos_nonneg; lia).
    rewrite E1, E2. nia. }
  split; [|split; assumption].
  unfold float64_of_Z, binary_normalize, binary_round, shl_align. fold d.
  replace (fexp 53 1024 (d + 0) - 0) with (Z.neg (Z.to_pos (53 - d))).
  2:{ unfold fexp, emin. rewrite <- Pos2Z.opp_pos, Z2Pos.id by lia. lia. }
  replace (fexp 53 1024 (d + 0)) with (d - 53) by (unfold fexp, emin; lia).
  apply binary_round_aux_keep; [assumption | lia].
Qed.

(** Rounding a wider positive mantissa to 53 bits, to nearest, ties to even. *)
Lemma binary_round_aux_shift (M : positive) (e : Z) (p : positive) :
  Z.pos (digits2_pos M) = 53 + Z.pos p -> -1074 <= e -> e + Z.pos p + 1 <= 971 ->
  exists mf ef mr,
    binary_round_aux 53 1024 false (Z.pos M) e loc_Exact = S754_finite false mf ef
    /\ Z.pos M / 2 ^ Z.pos p <= mr <= Z.pos M / 2 ^ Z.pos p + 1
    /\ (2 ^ (Z.pos p - 1) < Z.pos M mod 2 ^ Z.pos p -> mr = Z.pos M / 2 ^ Z.pos p + 1)
    /\ ((mr < 2 ^ 53 /\ Z.pos mf = mr /\ ef = e + Z.pos p)
        \/ (mr = 2 ^ 53 /\ Z.pos mf = 2 ^ 52 /\ ef = e + Z.pos p + 1)).
Proof.
  intros Hd He Htop. unfold binary_round_aux.
  rewrite (shr_fexp_shift M e p Hd He).
  destruct (Pos2Nat.is_succ p) as [n Hn]. rewrite Hn.
  pose proof (shr_iter_spec (Z.pos M) n ltac:(lia)) as Hspec. cbv zeta in Hspec.
  assert (HSn : Z.of_nat (S n) = Z.pos p) by (rewrite <- Hn; apply positive_nat_Z).
  assert (Hnn : Z.of_nat n = Z.pos p - 1) by lia.
  rewrite HSn, Hnn in Hspec.
  set (x := Nat.iter (S n) shr_1 _) in *.
  destruct Hspec as (Hm & Hr & Hs). destruct x as [m' r' s']. cbn [shr_m shr_r shr_s] in *.
  pose proof (digits2_pos_bounds M) as HbM. rewrite Hd in HbM.
  assert (HP : 0 < 2 ^ Z.pos p) by (apply Z.pow_pos_nonneg; lia).
  assert (E1 : 2 ^ (53 + Z.pos p - 1) = 2 ^ 52 * 2 ^ Z.pos p)
    by (rewrite <- Z.pow_add_r by lia; f_equal; lia).
  assert (E2 : 2 ^ (53 + Z.pos p) = 2 ^ 53 * 2 ^ Z.pos p)
    by (rewrite <- Z.pow_add_r by lia; f_equal; lia).
  assert (Hm'b : 2 ^ 52 <= m' < 2 ^ 53).
  { subst m'. split.
    - apply Z.div_le_lower_bound; lia.
    - apply Z.div_lt_upper_bound; lia. }
  set (mr := round_nearest_even m' (loc_of_shr_record (Build_shr_record m' r' s'))).
  assert (Hmr : m' <= mr <= m' + 1).
  { unfold mr. destruct r', s'; cbn [loc_of_shr_record round_nearest_even];
      try destruct (Z.even m'); lia. }
  assert (Hup : 2 ^ (Z.pos p - 1) < Z.pos M mod 2 ^ Z.pos p -> mr = m' + 1).
  { intros Hgt. unfold mr.
    assert (Hr1 : r' = true) by (rewrite Hr; apply Z.leb_le; lia).
    assert (Hs1 : s' = true).
    { rewrite Hs. apply negb_true_iff, Z.eqb_neq. intros H0.
      assert (Hpp : 2 ^ Z.pos p = 2 * 2 ^ (Z.pos p - 1)).
      { rewrite <- Z.pow_succ_r by lia. f_equal. lia. }
      assert (0 < 2 ^ (Z.pos p - 1)) by (apply Z.pow_pos_nonneg; lia).
      pose proof (Z.mod_pos_bound (Z.pos M) (2 ^ Z.pos p) ltac:(lia)) as Bq.
      pose proof (Z.div_mod (Z.pos M) (2 ^ Z.pos p) ltac:(lia)) as Eq1.
      pose proof (Z.div_mod (Z.pos M) (2 ^ (Z.pos p - 1)) ltac:(lia)) as Eq0.
      rewrite H0 in Eq0.
      set (rho := Z.pos M mod 2 ^ Z.pos p) in *.
      set (P := 2 ^ (Z.pos p - 1)) in *.
      set (a := Z.pos M / 2 ^ Z.pos p) in *. set (b := Z.pos M / P) in *.
      assert (rho = P * (b - 2 * a)) by nia.
      assert (1 < b - 2 * a < 2) by nia. lia. }
    clear Hr Hs. subst r' s'. reflexivity. }
  assert (Hmrpos : 0 < mr) by lia.
  destruct mr as [|mrp|mrp] eqn:Emr; [lia| |lia].
  assert (Hdr : 52 < Z.pos (digits2_pos mrp) <= 54).
  { apply digits2_pos_range; [lia|lia|]. change (2 ^ 54) with (2 * 2 ^ 53). lia. }
  try (fold mr; rewrite Emr).
  destruct (Z.eq_dec (Z.pos (digits2_pos mrp)) 53) as [H53|H53].
  - rewrite shr_fexp_keep by lia. cbn [shr_m].
    replace (e + Z.pos p <=? 1024 - 53) with true by (symmetry; apply Z.leb_le; lia).
    exists mrp, (e + Z.pos p), (Z.pos mrp). split; [reflexivity|].
    rewrite <- Hm. split; [lia|]. split; [exact Hup|]. left.
    split; [|split; reflexivity].
    pose proof (digits2_pos_bounds mrp). rewrite H53 in *. lia.
  - assert (H54 : Z.pos (digits2_pos mrp) = 53 + 1) by lia.
    rewrite (shr_fexp_shift mrp (e + Z.pos p) 1 H54) by lia.
    change (Nat.iter (Pos.to_nat 1) shr_1 ?y) with (shr_1 y).
    rewrite shr_1_nonneg by lia. cbn [shr_m].
    assert (Hval : Z.pos mrp = 2 ^ 53).
    { pose proof (digits2_pos_bounds mrp) as Hb. rewrite H54 in Hb.
      change (2 ^ (53 + 1 - 1)) with (2 ^ 53) in Hb. lia. }
    rewrite Hval. change (2 ^ 53 / 2) with (Z.pos (2 ^ 52)).
    replace (e + Z.pos p + 1 <=? 1024 - 53) with true by (symmetry; apply Z.leb_le; lia).
    exists (2 ^ 52)%positive, (e + Z.pos p + 1), (2 ^ 53). split; [reflexivity|].
    rewrite <- Hm. split; [lia|]. split; [intros Hgt; specialize (Hup Hgt); lia|]. right.
    split; [reflexivity|]. split; reflexivity.
Qed.

Lemma int_of_float64_of_Z (n : positive) :
  Z.pos n < 2 ^ 52 -> int_of_float64 (float64_of_Z (Z.pos n)) = Z.pos n.
Proof.
  intros Hn. destruct (float64_of_Z_small n Hn) as (m & E & Hv & _). rewrite E.
  pose proof (digits2_pos_bounds n) as Hb.
  set (d := Z.pos (digits2_pos n)) in *.
  assert (Hd : 0 < d <= 52).
  { split; [unfold d; lia|]. assert (d - 1 < 52); [|lia].
    apply (Z.pow_lt_mono_r_iff 2); lia. }
  unfold int_of_float64.
  replace (0 <=? d - 53) with false by (symmetry; apply Z.leb_gt; lia).
  replace (- (d - 53)) with (53 - d) by lia.
  rewrite Hv, Z.div_mul by (apply Z.pow_nonzero; lia).
  replace (minInt <=? Z.pos n) with true by (symmetry; apply Z.leb_le; unfold minInt; lia).
  replace (Z.pos n <=? maxInt) with true by (symmetry; apply Z.leb_le; unfold maxInt; lia).
  reflexivity.
Qed.

Lemma ceiling_of_quotient (x K N : Z) :
  0 < K -> (N - 1) * K < x <= N * K ->
  (if x mod K =? 0 then x / K else x / K + 1) = N.
Proof.
  intros HK Hx.
  pose proof (Z.div_mod x K ltac:(lia)) as E.
  pose proof (Z.mod_pos_bound x K ltac:(lia)) as B.
  destruct (Z.eqb_spec (x mod K) 0) as [H0|H0]; nia.
Qed.

(** The rounded product of R * 2^a by the binary64 value of 0.3 lies in
    the last interval of width 2^k below ceil(3R/10) * 2^k. *)
Lemma rounded_product_interval (R A P half Kp M mr N : Z) :
  1 <= R -> 0 < A -> 2 ^ 52 <= R * A < 2 ^ 53 ->
  M = R * A * 5404319552844595 ->
  2 ^ 52 <= P -> P = 2 * half ->
  A * 2 ^ 54 = Kp * P -> 14 <= Kp ->
  M / P <= mr <= M / P + 1 ->
  (half < M mod P -> mr = M / P + 1) ->
  N = (3 * R + 9) / 10 ->
  (N - 1) * Kp < mr <= N * Kp.
Proof.
  intros HR HA HX HM HP Hhalf HKP HK Hmr Hup HN.
  pose proof (Z.div_mod (3 * R + 9) 10 ltac:(lia)) as E.
  pose proof (Z.mod_pos_bound (3 * R + 9) 10 ltac:(lia)) as B.
  rewrite <- HN in E.
  set (t := 9 - (3 * R + 9) mod 10) in *.
  assert (Ht : 3 * R = 10 * N - t) by (unfold t; lia).
  assert (Htb : 0 <= t <= 9) by (unfold t; lia).
  clearbody t. clear E B HN.
  set (X := R * A) in *.
  assert (H10 : 10 * M = 10 * N * (Kp * P) - t * (Kp * P) - 2 * X).
  { rewrite <- HKP, HM. unfold X.
    replace (10 * N * (A * 2 ^ 54)) with ((10 * N) * A * 2 ^ 54) by ring.
    replace (10 * N) with (3 * R + t) by lia.
    change (2 ^ 54) with 18014398509481984. ring. }
  pose proof (Z.div_mod M P ltac:(lia)) as EM.
  pose proof (Z.mod_pos_bound M P ltac:(lia)) as BM.
  set (m' := M / P) in *. set (rho := M mod P) in *.
  change (2 ^ 52) with 4503599627370496 in *.
  change (2 ^ 53) with 9007199254740992 in *.
  assert (HKpP : 0 < Kp * P) by nia.
  split.
  - assert (Hcase : t = 0 \/ 1 <= t) by lia. destruct Hcase as [Ht0|Ht1].
    + subst t. 
      assert (HX5 : 5 * (N * (Kp * P) - M) = X) by lia.
      set (delta := N * (Kp * P) - M) in *.
      assert (Hd : 0 < delta /\ 2 * delta < P) by lia.
      assert (Hq : m' = N * Kp - 1).
      { unfold m'. symmetry. apply (Z.div_unique M P (N * Kp - 1) (P - delta)); [lia|].
        unfold delta. ring. }
      assert (Hr : rho = P - delta).
      { unfold rho. symmetry. apply (Z.mod_unique M P (N * Kp - 1) (P - delta)); [lia|].
        unfold delta. ring. }
      rewrite Hup by lia. rewrite Hq. nia.
    + assert (Hlow : 10 * (((N - 1) * Kp + 1) * P) <= 10 * M).
      { rewrite H10.
        assert (t * (Kp * P) <= 9 * (Kp * P)) by nia.
        assert (14 * P <= Kp * P) by nia.
        nia. }
      assert ((N - 1) * Kp + 1 <= m').
      { unfold m'. apply Z.div_le_lower_bound; lia. }
      lia.
  - assert (Hlt : M < N * Kp * P).
    { assert (0 <= t * (Kp * P)) by nia. nia. }
    assert (m' < N * Kp).
    { unfold m'. apply Z.div_lt_upper_bound; lia. }
    lia.
Qed.

(** For every rate below 2^50 the binary64 computation gives the exact
    ceiling of 3R/10. *)
Lemma estimatedConcurrency_ceiling (R : Z) :
  1 <= R < 2 ^ 50 -> estimatedConcurrency R = (3 * R + 9) / 10.
Proof.
  intros HR. destruct R as [|r|r]; [lia| |lia].
  unfold estimatedConcurrency. rewrite estP95_seconds.
  assert (Hr52 : Z.pos r < 2 ^ 52) by (change (2 ^ 52) with (4 * 2 ^ 50); lia).
  destruct (float64_of_Z_small r Hr52) as (mz & E & Hv & Hdz). rewrite E.
  pose proof (digits2_pos_bounds r) as Hbr.
  set (d := Z.pos (digits2_pos r)) in *.
  assert (Hd : 0 < d <= 50).
  { split; [unfold d; lia|]. assert (d - 1 < 50); [|lia].
    apply (Z.pow_lt_mono_r_iff 2); lia. }
  unfold fmul, SFmul. cbn [xorb].
  set (M := (mz * 5404319552844595)%positive).
  assert (HM : Z.pos M = Z.pos r * 2 ^ (53 - d) * 5404319552844595)
    by (unfold M; rewrite Pos2Z.inj_mul, Hv; reflexivity).
  pose proof (digits2_pos_bounds mz) as Hbz. rewrite Hdz in Hbz.
  change (2 ^ (53 - 1)) with 4503599627370496 in Hbz.
  change (2 ^ 53) with 9007199254740992 in Hbz.
  assert (HD : 104 < Z.pos (digits2_pos M) <= 106).
  { apply digits2_pos_range; [lia|lia|].
    unfold M. rewrite Pos2Z.inj_mul.
    change (2 ^ 104) with (4503599627370496 * 4503599627370496).
    change (2 ^ 106) with (9007199254740992 * 9007199254740992). nia. }
  set (p := Z.to_pos (Z.pos (digits2_pos M) - 53)).
  assert (Hp : Z.pos (digits2_pos M) = 53 + Z.pos p) by (unfold p; rewrite Z2Pos.id; lia).
  assert (Hpv : 52 <= Z.pos p <= 53) by lia.
  destruct (binary_round_aux_shift M (d - 53 + -54) p Hp ltac:(lia) ltac:(lia))
    as (mf & ef & mr & Eround & Hmr & Hup & Hfinal).
  rewrite Eround. clear Eround E.
  set (N := (3 * Z.pos r + 9) / 10).
  assert (HN : 1 <= N < 2 ^ 52).
  { unfold N. split.
    - apply Z.div_le_lower_bound; lia.
    - apply Z.div_lt_upper_bound; [lia|]. change (2 ^ 52) with (4 * 2 ^ 50). lia. }
  set (K := 107 - d - Z.pos p).
  assert (HK : 4 <= K) by (unfold K; lia).
  assert (HKp : 14 <= 2 ^ K).
  { assert (2 ^ 4 <= 2 ^ K) by (apply Z.pow_le_mono_r; lia).
    change (2 ^ 4) with 16 in *. lia. }
  assert (HA : 0 < 2 ^ (53 - d)) by (apply Z.pow_pos_nonneg; lia).
  assert (Hint : (N - 1) * 2 ^ K < mr <= N * 2 ^ K).
  { apply (rounded_product_interval (Z.pos r) (2 ^ (53 - d)) (2 ^ Z.pos p)
             (2 ^ (Z.pos p - 1)) (2 ^ K) (Z.pos M) mr N).
    - lia.
    - exact HA.
    - rewrite <- Hv. change (2 ^ 52) with 4503599627370496.
      change (2 ^ 53) with 9007199254740992. lia.
    - exact HM.
    - apply Z.pow_le_mono_r; lia.
    - rewrite <- Z.pow_succ_r by lia. f_equal. lia.
    - rewrite <- !Z.pow_add_r by lia. f_equal. unfold K. lia.
    - exact HKp.
    - exact Hmr.
    - exact Hup.
    - reflexivity. }
  assert (Hresult : math_Ceil (S754_finite false mf ef) = float64_of_Z N).
  { unfold math_Ceil.
    destruct Hfinal as [(Hlt & Hmf & Hef) | (Heq & Hmf & Hef)].
    - replace (0 <=? ef) with false by (symmetry; apply Z.leb_gt; lia).
      replace (- ef) with K by (unfold K; lia).
      rewrite Hmf. f_equal. apply ceiling_of_quotient; lia.
    - replace (0 <=? ef) with false by (symmetry; apply Z.leb_gt; lia).
      replace (- ef) with (K - 1) by (unfold K; lia).
      rewrite Hmf. f_equal.
      assert (HK2 : 2 ^ K = 2 * 2 ^ (K - 1)).
      { rewrite <- Z.pow_succ_r by lia. f_equal. lia. }
      assert (0 < 2 ^ (K - 1)) by (apply Z.pow_pos_nonneg; lia).
      apply ceiling_of_quotient; [assumption|].
      rewrite Heq, HK2 in Hint. change (2 ^ 53) with (2 * 2 ^ 52) in Hint. lia. }
  rewrite Hresult.
  destruct N as [|n|n]; [lia| |lia].
  apply int_of_float64_of_Z. lia.
Qed.

End Binary64.

(** C8. For a total request count N >= 1 the size handed to the latency
    window is min(N, 10000), a capacity of at least one sample. *)
Theorem windowSize_min (config : Config) :
  1 <= TotalReqs config ->
  windowSize config = Z.min (TotalReqs config) 10000 /\ 1 <= windowSize config.
Proof.
  intros HN. unfold windowSize.
  destruct (TotalReqs config <? 10000)%Z eqn:E; [apply Z.ltb_lt in E | apply Z.ltb_ge in E]; lia.
Qed.

Definition config_25k : Config :=
  mkConfig "http://localhost:8894/graphql" "query { ok }" "Authorization" "Bearer x"
    "Bearer x" [] 0 25000 50 0 None true true "results/dev" false "".

Lemma windowSize_min_witness :
  windowSize config_25k = Z.min (TotalReqs config_25k) 10000 /\ 1 <= windowSize config_25k.
Proof. apply (windowSize_min config_25k). vm_compute. discriminate. Defined.

(** ** The dispatcher *)

Section DispatcherProperties.

Variable lib : GoLib.
Variable json_Marshal : string -> option (list (string * Value)) -> option string.
Variable json_Unmarshal : string -> GraphQLResponse * option string.
Variable config : Config.

Local Abbreviation step := (step lib json_Marshal json_Unmarshal config).
Local Abbreviation reachable := (reachable lib json_Marshal json_Unmarshal config).
Local Abbreviation steps := (steps lib json_Marshal json_Unmarshal config).
Local Abbreviation admittedAt := (admittedAt lib json_Marshal json_Unmarshal config).
Local Abbreviation checkedAt := (checkedAt lib json_Marshal json_Unmarshal config).
Local Abbreviation acquiredAt := (acquiredAt lib json_Marshal json_Unmarshal config).
Local Abbreviation invariant := (invariant config).

Lemma recorded_app ws w :
  recorded (ws ++ [w]) = recorded ws + (if hasRecorded w then 1 else 0).
Proof.
  unfold recorded. rewrite List.filter_app, length_app. simpl.
  destruct (hasRecorded w); simpl; lia.
Qed.

Lemma recorded_insert ws i w0 w :
  ws !! i = Some w0 ->
  recorded (<[i := w]> ws)
  = recorded ws - (if hasRecorded w0 then 1 else 0) + (if hasRecorded w then 1 else 0).
Proof.
  unfold recorded. revert i. induction ws as [|x ws IH]; intros [|i] H; simpl in *; try discriminate.
  - injection H as ->. destruct (hasRecorded w0), (hasRecorded w); simpl; lia.
  - specialize (IH _ H). destruct (hasRecorded x); simpl; lia.
Qed.

Lemma recorded_le_length ws : recorded ws <= Z.of_nat (List.length ws).
Proof.
  unfold recorded. pose proof (List.filter_length_le hasRecorded ws). lia.
Qed.

Lemma invariant_start : invariant (start config).
Proof.
  split; simpl; try reflexivity; try lia; try discriminate.
  intros r [H | H]; discriminate H.
Qed.

Lemma unfinished_not_all ws i w :
  ws !! i = Some w -> isFinished w = false -> forallb isFinished ws = true -> False.
Proof.
  intros Hi Hw Hall. rewrite forallb_forall in Hall.
  apply list_elem_of_lookup_2, list_elem_of_In in Hi. apply Hall in Hi. congruence.
Qed.

Lemma invariant_setLoop s pc :
  invariant s ->
  match pc with
  | AtLimiterWait | AtSpawn => requestCount s < TotalReqs config
  | Returned r =>
      r = snapshot (successCount s) (failedCount s)
      /\ forallb isFinished (workers s) = true
  | _ => True
  end ->
  (forall r, loop s = Returned r -> pc = Returned r) ->
  invariant (setLoop pc s).
Proof.
  intros [Hsem Hcnt Hbnd Hrec Hnn Hpub Hheld Hret] Hpc Hkeep.
  split; simpl; auto.
  - destruct pc; try lia; destruct (loop s); lia.
  - intros r ->. exact Hpc.
Qed.

Lemma invariant_setWorker s i w0 w :
  invariant s ->
  workers s !! i = Some w0 ->
  isFinished w0 = false -> hasRecorded w = false ->
  invariant (setWorker i w s).
Proof.
  intros [Hsem Hcnt Hbnd Hrec Hnn Hpub Hheld Hret] Hi Hw0 Hw.
  split; simpl; rewrite ?length_insert; auto.
  - rewrite (recorded_insert _ _ _ _ Hi), Hw.
    destruct w0; simpl in *; try discriminate; lia.
  - intros r Hr. destruct (Hret r Hr) as [_ Hall].
    exfalso. exact (unfinished_not_all _ _ _ Hi Hw0 Hall).
Qed.

Lemma invariant_record s i result :
  invariant s ->
  workers s !! i = Some (Recording result) ->
  invariant (record i result s).
Proof.
  intros [Hsem Hcnt Hbnd Hrec Hnn Hpub Hheld Hret] Hi.
  split; simpl; rewrite ?length_insert; auto.
  - rewrite (recorded_insert _ _ _ _ Hi). simpl. destruct (Success result); lia.
  - destruct (Success result); lia.
  - intros r Hr. injection Hr as <-. reflexivity.
  - intros r Hr. destruct (Hheld r Hr) as (a & b & -> & Ha & Hb).
    exists a, b. split; [reflexivity|]. destruct (Success result); lia.
  - intros r Hr. destruct (Hret r Hr) as [_ Hall].
    exfalso. exact (unfinished_not_all _ _ _ Hi eq_refl Hall).
Qed.

Lemma invariant_setHandler s pc :
  invariant s ->
  (forall r, pc = Printing r \/ pc = Saving r -> testResults s = Some r) ->
  invariant (setHandler pc s).
Proof.
  intros [Hsem Hcnt Hbnd Hrec Hnn Hpub Hheld Hret] Hpc.
  split; simpl; auto.
  intros r Hr. rewrite (Hpub r (Hpc r Hr)).
  exists (successCount s), (failedCount s). split; [reflexivity | lia].
Qed.

Lemma invariant_signal s : invariant s -> invariant (signal s).
Proof.
  intros [Hsem Hcnt Hbnd Hrec Hnn Hpub Hheld Hret].
  split; simpl; auto. intros r [H | H]; discriminate H.
Qed.

Lemma invariant_exit s : invariant s -> invariant (exit s).
Proof.
  intros [Hsem Hcnt Hbnd Hrec Hnn Hpub Hheld Hret].
  split; simpl; auto. intros r [H | H]; discriminate H.
Qed.

Lemma invariant_step s a s' : invariant s -> step s a s' -> invariant s'.
Proof.
  intros Hinv Hstep.
  inversion Hstep; subst; clear Hstep;
    try (apply invariant_exit; exact Hinv);
    try (apply invariant_signal; exact Hinv);
    try (eapply invariant_setWorker; [exact Hinv | eassumption | reflexivity | reflexivity]);
    try (apply invariant_record; assumption);
    try (apply invariant_setHandler;
         [exact Hinv | intros r [Hr | Hr]; try discriminate Hr; congruence]);
    try (apply invariant_setLoop; [exact Hinv | | intros r Hr; congruence]).
  all: try exact I.
  - destruct (0 <? TargetRPS config)%Z; assumption.
  - destruct Hinv as [_ _ Hbnd _ _ _ _ _]. rewrite H0 in Hbnd. exact Hbnd.
  - destruct Hinv as [Hsem Hcnt Hbnd Hrec Hnn Hpub Hheld Hret].
    split; simpl; auto.
    + rewrite length_app. simpl. lia.
    + rewrite H0 in Hbnd. lia.
    + rewrite recorded_app. simpl. lia.
    + intros r Hr. discriminate.
  - split; [reflexivity | assumption].
Qed.

Lemma reachable_invariant s : reachable s -> invariant s.
Proof.
  induction 1 as [|s a s' _ IH Hstep].
  - apply invariant_start.
  - exact (invariant_step _ _ _ IH Hstep).
Qed.

(** C1. At every state of a run the two counters add up to the number of
    outcomes recorded, which is at most the configured total.  Every
    result that is published or returned reports their sum as its total,
    and a result that the signal handler has picked up reports the sum
    they had when it was published, which the counters may have passed
    since.  A step changes the counters only by recording one outcome;
    and the step of a worker that has the result of its request at hand
    records it: it adds one to the success counter when the result is a
    success and to the failure counter when not, leaves the other as it
    is, publishes the new counts and ends the worker. *)
Theorem counters_consistent (s : Run) :
  0 <= TotalReqs config ->
  reachable s ->
  successCount s + failedCount s = recorded (workers s)
  /\ successCount s + failedCount s <= TotalReqs config
  /\ (forall r, testResults s = Some r \/ loop s = Returned r ->
        SuccessfulReqs r + FailedReqs r = TotalRequests r
        /\ TotalRequests r = successCount s + failedCount s
        /\ TotalRequests r <= TotalReqs config)
  /\ (forall r, handler s = Printing r \/ handler s = Saving r ->
        SuccessfulReqs r + FailedReqs r = TotalRequests r
        /\ TotalRequests r <= successCount s + failedCount s)
  /\ (forall a s', step s a s' ->
        (successCount s' = successCount s /\ failedCount s' = failedCount s)
        \/ exists i result,
             a = Worker i /\ workers s !! i = Some (Recording result))
  /\ (forall i result s',
        step s (Worker i) s' -> workers s !! i = Some (Recording result) ->
        successCount s' = successCount s + (if Success result then 1 else 0)
        /\ failedCount s' = failedCount s + (if Success result then 0 else 1)
        /\ testResults s' = Some (snapshot (successCount s') (failedCount s'))
        /\ workers s' !! i = Some (Finished (Some result))).
Proof.
  intros HN Hreach.
  destruct (reachable_invariant s Hreach) as [Hsem Hcnt Hbnd Hrec Hnn Hpub Hheld Hret].
  assert (Hle : successCount s + failedCount s <= TotalReqs config).
  { rewrite Hrec. pose proof (recorded_le_length (workers s)).
    destruct (loop s); lia. }
  split; [exact Hrec|]. split; [exact Hle|]. split; [|split; [|split]].
  - intros r [Hr|Hr].
    + rewrite (Hpub r Hr). simpl. lia.
    + destruct (Hret r Hr) as [-> _]. simpl. lia.
  - intros r Hr. destruct (Hheld r Hr) as (a & b & -> & Ha & Hb). simpl. lia.
  - intros a s' Hstep.
    inversion Hstep; subst; simpl; try (left; split; reflexivity).
    right. exists i, result. split; [reflexivity | assumption].
  - intros i result s' Hstep Hi. pose proof (lookup_lt_Some _ _ _ Hi) as Hlt.
    inversion Hstep; subst; try congruence.
    assert (result0 = result) as -> by congruence.
    cbn [record successCount failedCount testResults workers].
    split; [destruct (Success result); lia|].
    split; [destruct (Success result); lia|].
    split; [reflexivity|]. apply list_lookup_insert_eq. exact Hlt.
Qed.

(** *** The history of a run *)

Lemma steps_snoc s s' a s'' : steps s s' -> step s' a s'' -> steps s s''.
Proof.
  induction 1 as [s | s b s1 s2 Hb _ IH]; intros Hstep.
  - eapply steps_step; [exact Hstep | apply steps_refl].
  - eapply steps_step; [exact Hb | exact (IH Hstep)].
Qed.

Lemma steps_trans s s' s'' : steps s s' -> steps s' s'' -> steps s s''.
Proof.
  induction 1 as [s | s b s1 s2 Hb _ IH]; intros H2; [exact H2|].
  eapply steps_step; [exact Hb | exact (IH H2)].
Qed.

Lemma reachable_steps s s' : reachable s -> steps s s' -> reachable s'.
Proof.
  intros Hs H. induction H as [s | s b s1 s2 Hb _ IH]; [exact Hs|].
  apply IH. eapply reachable_step; eassumption.
Qed.

Lemma admittedAt_step i s a s' : admittedAt i s -> step s a s' -> admittedAt i s'.
Proof.
  intros (s0 & s1 & H0 & H01 & H1 & Hrest) Hstep.
  exists s0, s1. split; [exact H0|]. split; [exact H01|].
  split; [exact (steps_snoc _ _ _ _ H1 Hstep) | exact Hrest].
Qed.

Lemma checkedAt_step i s a s' : checkedAt i s -> step s a s' -> checkedAt i s'.
Proof.
  intros (s0 & s1 & H0 & H01 & H1 & Hrest) Hstep.
  exists s0, s1. split; [exact H0|]. split; [exact H01|].
  split; [exact (steps_snoc _ _ _ _ H1 Hstep) | exact Hrest].
Qed.

Lemma acquiredAt_step i s a s' : acquiredAt i s -> step s a s' -> acquiredAt i s'.
Proof.
  intros (s0 & s1 & H0 & H01 & H1 & Hrest) Hstep.
  exists s0, s1. split; [exact H0|]. split; [exact H01|].
  split; [exact (steps_snoc _ _ _ _ H1 Hstep) | exact Hrest].
Qed.

(** What the history of a run holds for its loop and for each worker. *)
Record history (s : Run) : Prop := {
  hist_admitted : forall i, (i < List.length (workers s))%nat -> admittedAt i s;
  hist_pending :
    loop s = AtLimiterWait \/ loop s = AtSpawn -> admittedAt (List.length (workers s)) s;
  hist_acquired :
    forall i w, workers s !! i = Some w -> holdsSlot w = true \/ pastCheck w = true ->
                acquiredAt i s;
  hist_checked :
    forall i w, workers s !! i = Some w -> pastCheck w = true -> checkedAt i s
}.

Lemma history_start : history (start config).
Proof.
  split; cbn.
  - intros i Hi. lia.
  - intros [H | H]; discriminate H.
  - intros i w Hi. rewrite lookup_nil in Hi. discriminate Hi.
  - intros i w Hi. rewrite lookup_nil in Hi. discriminate Hi.
Qed.

(** A step that leaves the workers as they are and does not move the loop
    to the limiter or to the [go] statement. *)
Lemma history_frame s a s' :
  history s -> step s a s' ->
  workers s' = workers s ->
  (loop s' = AtLimiterWait \/ loop s' = AtSpawn ->
   (loop s = AtLimiterWait \/ loop s = AtSpawn)
   \/ (a = TheLoop /\ loop s = AtLoopHead /\ gracefulShutdown s = false
       /\ loop s' = (if (0 <? TargetRPS config)%Z then AtLimiterWait else AtSpawn)
       /\ reachable s)) ->
  history s'.
Proof.
  intros [Hadm Hpend Hacq Hchk] Hstep Hw Hloop.
  split; rewrite ?Hw.
  - intros i Hi. exact (admittedAt_step _ _ _ _ (Hadm i Hi) Hstep).
  - intros Hl. destruct (Hloop Hl) as [Hold | (-> & Hhead & Hflag & Hnext & Hreach)].
    + exact (admittedAt_step _ _ _ _ (Hpend Hold) Hstep).
    + exists s, s'. split; [exact Hreach|]. split; [exact Hstep|].
      split; [apply steps_refl|]. auto.
  - intros i w Hi Hw'. exact (acquiredAt_step _ _ _ _ (Hacq i w Hi Hw') Hstep).
  - intros i w Hi Hw'. exact (checkedAt_step _ _ _ _ (Hchk i w Hi Hw') Hstep).
Qed.

(** A step of worker [i] from [w0] to [w]. *)
Lemma history_setWorker s i w0 w s' :
  history s -> reachable s -> step s (Worker i) s' ->
  workers s !! i = Some w0 ->
  workers s' = <[i := w]> (workers s) -> loop s' = loop s ->
  (holdsSlot w = true \/ pastCheck w = true ->
   (holdsSlot w0 = true \/ pastCheck w0 = true)
   \/ (w0 = Acquiring /\ w = HoldingSlot /\ inFlight (workers s) < semaphore s)) ->
  (pastCheck w = true ->
   pastCheck w0 = true
   \/ (w0 = HoldingSlot /\ w = Building /\ gracefulShutdown s = false)) ->
  history s'.
Proof.
  intros [Hadm Hpend Hacq Hchk] Hreach Hstep Hi Hw Hloop Hslot Hpast.
  pose proof (lookup_lt_Some _ _ _ Hi) as Hlt.
  split; rewrite ?Hw, ?Hloop, ?length_insert.
  - intros j Hj. exact (admittedAt_step _ _ _ _ (Hadm j Hj) Hstep).
  - intros Hl. exact (admittedAt_step _ _ _ _ (Hpend Hl) Hstep).
  - intros j w' Hj Hw'. destruct (decide (j = i)) as [-> | Hne].
    + rewrite list_lookup_insert_eq in Hj by exact Hlt. injection Hj as <-.
      destruct (Hslot Hw') as [Hold | (-> & -> & Hroom)].
      * exact (acquiredAt_step _ _ _ _ (Hacq i w0 Hi Hold) Hstep).
      * exists s, s'. split; [exact Hreach|]. split; [exact Hstep|].
        split; [apply steps_refl|]. split; [exact Hi|]. split; [exact Hroom|].
        rewrite Hw. apply list_lookup_insert_eq. exact Hlt.
    + rewrite list_lookup_insert_ne in Hj by congruence.
      exact (acquiredAt_step _ _ _ _ (Hacq j w' Hj Hw') Hstep).
  - intros j w' Hj Hw'. destruct (decide (j = i)) as [-> | Hne].
    + rewrite list_lookup_insert_eq in Hj by exact Hlt. injection Hj as <-.
      destruct (Hpast Hw') as [Hold | (-> & -> & Hflag)].
      * exact (checkedAt_step _ _ _ _ (Hchk i w0 Hi Hold) Hstep).
      * exists s, s'. split; [exact Hreach|]. split; [exact Hstep|].
        split; [apply steps_refl|]. split; [exact Hi|]. split; [exact Hflag|].
        rewrite Hw. apply list_lookup_insert_eq. exact Hlt.
    + rewrite list_lookup_insert_ne in Hj by congruence.
      exact (checkedAt_step _ _ _ _ (Hchk j w' Hj Hw') Hstep).
Qed.

Lemma history_spawn s :
  history s -> step s TheLoop (spawn s) -> loop s = AtSpawn -> history (spawn s).
Proof.
  intros [Hadm Hpend Hacq Hchk] Hstep Hloop.
  split; cbn [spawn workers loop]; rewrite ?length_app; cbn [List.length].
  - intros i Hi. destruct (decide (i = List.length (workers s))) as [-> | Hne].
    + exact (admittedAt_step _ _ _ _ (Hpend (or_intror Hloop)) Hstep).
    + apply (admittedAt_step _ _ _ _ (Hadm i ltac:(lia)) Hstep).
  - intros [H | H]; discriminate H.
  - intros i w Hi Hw. apply lookup_app_Some in Hi as [Hi | [_ Hi]].
    + exact (acquiredAt_step _ _ _ _ (Hacq i w Hi Hw) Hstep).
    + destruct (i - List.length (workers s))%nat as [|n]; cbn in Hi; [|discriminate Hi].
      injection Hi as <-. destruct Hw as [Hw | Hw]; discriminate Hw.
  - intros i w Hi Hw. apply lookup_app_Some in Hi as [Hi | [_ Hi]].
    + exact (checkedAt_step _ _ _ _ (Hchk i w Hi Hw) Hstep).
    + destruct (i - List.length (workers s))%nat as [|n]; cbn in Hi; [|discriminate Hi].
      injection Hi as <-. discriminate Hw.
Qed.

Lemma history_step s a s' : reachable s -> history s -> step s a s' -> history s'.
Proof.
  intros Hreach Hhist Hstep.
  inversion Hstep; subst;
    try (match goal with
         | Hi : workers s !! ?i = Some ?w0 |- history (setWorker ?i ?w s) =>
             apply (history_setWorker s i w0 w _ Hhist Hreach Hstep Hi);
             [ reflexivity | reflexivity
             | cbn; intros [Hw | Hw]; try discriminate Hw; auto
             | cbn; intros Hw; try discriminate Hw; auto ]
         | Hi : workers s !! ?i = Some (Recording ?r) |- history (record ?i ?r s) =>
             apply (history_setWorker s i (Recording r) (Finished (Some r)) _
                      Hhist Hreach Hstep Hi);
             [ reflexivity | reflexivity | cbn; auto | cbn; auto ]
         end);
    try (apply (history_frame s _ _ Hhist Hstep); [reflexivity|];
         cbn [loop setLoop exit signal setHandler];
         intros Hl;
         first [ solve [left; exact Hl]
               | solve [left; left; assumption]
               | solve [left; right; assumption]
               | solve [destruct Hl as [Hl | Hl]; discriminate Hl]
               | solve [right; repeat split; auto] ]).
  - apply history_spawn; assumption.
Qed.

Lemma reachable_history s : reachable s -> history s.
Proof.
  induction 1 as [|s a s' Hs IH Hstep].
  - apply history_start.
  - exact (history_step _ _ _ Hs IH Hstep).
Qed.

(** Once the loop has left the [for] statement no worker is added. *)
Lemma no_origination_after_loop s a s' :
  step s a s' -> loopLeft s ->
  loopLeft s' /\ List.length (workers s') = List.length (workers s).
Proof.
  intros Hstep Hleft. unfold loopLeft in *.
  inversion Hstep; subst; simpl; rewrite ?length_insert;
    try (split; [assumption | reflexivity]);
    try (split; [eauto | reflexivity]);
    destruct Hleft as [Hl | [r Hl]]; congruence.
Qed.

Lemma no_origination_after_loop_steps s s' :
  steps s s' -> loopLeft s ->
  loopLeft s' /\ List.length (workers s') = List.length (workers s).
Proof.
  induction 1 as [s | s a s1 s2 Hstep _ IH]; intros Hleft; [auto|].
  destruct (no_origination_after_loop _ _ _ Hstep Hleft) as [Hleft1 Hlen1].
  destruct (IH Hleft1) as [Hleft2 Hlen2]. split; [exact Hleft2 | congruence].
Qed.

(** No step takes a worker out of the transport: while the process lives
    the worker stays there or comes back with its result. *)
Lemma transport_not_aborted s a s' i w :
  step s a s' -> workers s !! i = Some w -> hasSent w = true ->
  exists w', workers s' !! i = Some w' /\ hasSent w' = true.
Proof.
  intros Hstep Hi Hw. pose proof (lookup_lt_Some _ _ _ Hi) as Hlt.
  inversion Hstep; subst; simpl in *; try (exists w; split; assumption).
  all: try (destruct (decide (i0 = i)) as [->|Hne];
            [ try (rewrite Hi in *; match goal with
                   | H : Some _ = Some _ |- _ => injection H as <-; discriminate Hw
                   | H : Some _ = Some _ |- _ => injection H as ->; discriminate Hw
                   end)
            | exists w; split; [rewrite list_lookup_insert_ne by congruence|]; assumption ]).
  - exists w. split; [rewrite lookup_app_l by lia|]; assumption.
  - eexists. split; [apply list_lookup_insert_eq; exact Hlt | reflexivity].
  - eexists. split; [apply list_lookup_insert_eq; exact Hlt | reflexivity].
Qed.

Lemma transport_not_aborted_steps s s' i w :
  steps s s' -> workers s !! i = Some w -> hasSent w = true ->
  exists w', workers s' !! i = Some w' /\ hasSent w' = true.
Proof.
  induction 1 as [s | s a s1 s2 Hstep _ IH] in w |- *; intros Hi Hw; [eauto|].
  destruct (transport_not_aborted _ _ _ _ _ Hstep Hi Hw) as (w1 & Hi1 & Hw1).
  exact (IH _ Hi1 Hw1).
Qed.

(** C3, as the code has it.  In every state of a run:
    every worker that exists belongs to an iteration at whose head the
    loop read the flag clear, before it waited on the limiter and before it
    spawned the worker; every worker that holds a slot or has held one
    took it at the [select], which waits on the context and the semaphore
    and does not read the flag (a worker at the [select] takes a slot as
    soon as there is room, whatever the flag); every worker that has built
    a request, is
    inside the transport or has come back from it read the flag clear
    while it held its slot, before it built the request.  When the loop
    reads the flag set at its head it leaves the [for] statement, and from
    then on no worker is ever added.  A worker that reads the flag set
    after it has taken its slot returns without a request.  The
    dispatcher takes no worker out of the transport: a worker that is
    inside it stays there or comes back with its result.  And the loop
    returns only when every worker has returned. *)
Theorem shutdown_is_cooperative (s : Run) :
  reachable s ->
  (forall i, (i < List.length (workers s))%nat -> admittedAt i s)
  /\ (forall i w, workers s !! i = Some w ->
        holdsSlot w = true \/ pastCheck w = true -> acquiredAt i s)
  /\ (forall i, alive s = true -> workers s !! i = Some Acquiring ->
        inFlight (workers s) < semaphore s ->
        step s (Worker i) (setWorker i HoldingSlot s))
  /\ (forall i w, workers s !! i = Some w -> pastCheck w = true -> checkedAt i s)
  /\ (forall s', step s TheLoop s' -> loop s = AtLoopHead -> gracefulShutdown s = true ->
        loop s' = AtWait /\ workers s' = workers s)
  /\ (forall s', steps s s' -> loopLeft s ->
        loopLeft s' /\ List.length (workers s') = List.length (workers s))
  /\ (forall i s', step s (Worker i) s' -> workers s !! i = Some HoldingSlot ->
        gracefulShutdown s = true -> workers s' !! i = Some (Finished None))
  /\ (forall s' i w, steps s s' -> workers s !! i = Some w -> hasSent w = true ->
        exists w', workers s' !! i = Some w' /\ hasSent w' = true)
  /\ (forall results, loop s = Returned results ->
        forallb isFinished (workers s) = true).
Proof.
  intros Hreach. destruct (reachable_history s Hreach) as [Hadm _ Hacq Hchk].
  split; [exact Hadm|]. split; [exact Hacq|].
  split; [intros i Halive Hi Hroom; apply worker_acquire; assumption|].
  split; [exact Hchk|].
  split; [|split; [|split; [|split]]].
  - intros s' Hstep Hpc Hflag.
    inversion Hstep; subst; simpl; try (split; reflexivity); congruence.
  - intros s'. apply no_origination_after_loop_steps.
  - intros i s' Hstep Hi Hflag. pose proof (lookup_lt_Some _ _ _ Hi) as Hlt.
    inversion Hstep; subst; simpl; try congruence.
    apply list_lookup_insert_eq. exact Hlt.
  - intros s' i w. apply transport_not_aborted_steps.
  - intros results Hret.
    exact (proj2 (inv_returned _ _ (reachable_invariant s Hreach) results Hret)).
Qed.

End DispatcherProperties.

Lemma reachable_ready lib json_Marshal json_Unmarshal config :
  0 <= Concurrency config ->
  reachable lib json_Marshal json_Unmarshal config (setLoop AtLoopHead (start config)).
Proof.
  intros H. eapply reachable_step; [apply reachable_start|].
  apply loop_setup; [reflexivity | reflexivity | exact H].
Qed.

(** Without a target rate, the first iteration goes from the head of the
    loop to the [go] statement. *)
Lemma reachable_admitted lib json_Marshal json_Unmarshal config :
  0 <= Concurrency config -> 0 < TotalReqs config -> TargetRPS config <= 0 ->
  reachable lib json_Marshal json_Unmarshal config (setLoop AtSpawn (start config)).
Proof.
  intros HC HN HR.
  eapply reachable_step; [exact (reachable_ready lib json_Marshal json_Unmarshal config HC)|].
  pose proof (loop_admit lib json_Marshal json_Unmarshal config
                (setLoop AtLoopHead (start config)) eq_refl eq_refl HN eq_refl) as Hstep.
  destruct (Z.ltb_spec 0 (TargetRPS config)) as [Hlt | _]; [lia|].
  exact Hstep.
Qed.

(** A run of two requests with one slot, followed up to the first result. *)
Lemma answeredRun_reachable :
  reachable exampleLib queryOnlyEncoder noErrorsDecoder config_two answeredRun.
Proof.
  unfold answeredRun.
  eapply reachable_step;
    [|apply (worker_result _ _ _ _ _ 0%nat "{query:query { ok }}" "Bearer x"
               (HTTPResponse 200 "{}" None 50));
      reflexivity].
  eapply reachable_step;
    [|apply (worker_send _ _ _ _ _ 0%nat exampleSource (afterRange exampleSource));
      reflexivity].
  eapply reachable_step; [|apply (worker_proceed _ _ _ _ _ 0%nat); reflexivity].
  eapply reachable_step; [|apply (worker_acquire _ _ _ _ _ 0%nat); reflexivity].
  eapply reachable_step; [|apply loop_spawn; reflexivity].
  apply reachable_admitted; vm_compute; congruence.
Qed.

Lemma recordedRun_reachable :
  reachable exampleLib queryOnlyEncoder noErrorsDecoder config_two recordedRun.
Proof.
  unfold recordedRun.
  eapply reachable_step; [exact answeredRun_reachable|].
  apply worker_record; reflexivity.
Qed.

Lemma counters_consistent_witness :
  successCount answeredRun + failedCount answeredRun = recorded (workers answeredRun)
  /\ successCount answeredRun + failedCount answeredRun <= TotalReqs config_two
  /\ (forall r, testResults answeredRun = Some r \/ loop answeredRun = Returned r ->
        SuccessfulReqs r + FailedReqs r = TotalRequests r
        /\ TotalRequests r = successCount answeredRun + failedCount answeredRun
        /\ TotalRequests r <= TotalReqs config_two)
  /\ (forall r, handler answeredRun = Printing r \/ handler answeredRun = Saving r ->
        SuccessfulReqs r + FailedReqs r = TotalRequests r
        /\ TotalRequests r <= successCount answeredRun + failedCount answeredRun)
  /\ (forall a s',
        step exampleLib queryOnlyEncoder noErrorsDecoder config_two answeredRun a s' ->
        (successCount s' = successCount answeredRun
         /\ failedCount s' = failedCount answeredRun)
        \/ exists i result,
             a = Worker i /\ workers answeredRun !! i = Some (Recording result))
  /\ (forall i result s',
        step exampleLib queryOnlyEncoder noErrorsDecoder config_two answeredRun (Worker i) s' ->
        workers answeredRun !! i = Some (Recording result) ->
        successCount s' = successCount answeredRun + (if Success result then 1 else 0)
        /\ failedCount s' = failedCount answeredRun + (if Success result then 0 else 1)
        /\ testResults s' = Some (snapshot (successCount s') (failedCount s'))
        /\ workers s' !! i = Some (Finished (Some result))).
Proof.
  apply (counters_consistent exampleLib queryOnlyEncoder noErrorsDecoder config_two answeredRun).
  - vm_compute. discriminate.
  - exact answeredRun_reachable.
Defined.

(** The step of worker 0 from [answeredRun] is the recording of its result. *)
Example recordedRun_counts :
  step exampleLib queryOnlyEncoder noErrorsDecoder config_two answeredRun (Worker 0)
       recordedRun
  /\ successCount answeredRun = 0 /\ failedCount answeredRun = 0
  /\ successCount recordedRun = 1 /\ failedCount recordedRun = 0
  /\ testResults recordedRun = Some (mkTestResults 1 1 0 statusCodesTable)
  /\ statusCodes recordedRun = {[ 200 := 1 ]}.
Proof.
  split; [apply worker_record; reflexivity|]. repeat split.
Qed.

Lemma shutdown_is_cooperative_witness :
  (forall i, (i < List.length (workers recordedRun))%nat ->
     admittedAt exampleLib queryOnlyEncoder noErrorsDecoder config_two i recordedRun)
  /\ (forall i w, workers recordedRun !! i = Some w ->
        holdsSlot w = true \/ pastCheck w = true ->
        acquiredAt exampleLib queryOnlyEncoder noErrorsDecoder config_two i recordedRun)
  /\ (forall i, alive recordedRun = true -> workers recordedRun !! i = Some Acquiring ->
        inFlight (workers recordedRun) < semaphore recordedRun ->
        step exampleLib queryOnlyEncoder noErrorsDecoder config_two recordedRun (Worker i)
             (setWorker i HoldingSlot recordedRun))
  /\ (forall i w, workers recordedRun !! i = Some w -> pastCheck w = true ->
        checkedAt exampleLib queryOnlyEncoder noErrorsDecoder config_two i recordedRun)
  /\ (forall s',
        step exampleLib queryOnlyEncoder noErrorsDecoder config_two recordedRun TheLoop s' ->
        loop recordedRun = AtLoopHead -> gracefulShutdown recordedRun = true ->
        loop s' = AtWait /\ workers s' = workers recordedRun)
  /\ (forall s',
        steps exampleLib queryOnlyEncoder noErrorsDecoder config_two recordedRun s' ->
        loopLeft recordedRun ->
        loopLeft s' /\ List.length (workers s') = List.length (workers recordedRun))
  /\ (forall i s',
        step exampleLib queryOnlyEncoder noErrorsDecoder config_two recordedRun (Worker i) s' ->
        workers recordedRun !! i = Some HoldingSlot ->
        gracefulShutdown recordedRun = true -> workers s' !! i = Some (Finished None))
  /\ (forall s' i w,
        steps exampleLib queryOnlyEncoder noErrorsDecoder config_two recordedRun s' ->
        workers recordedRun !! i = Some w -> hasSent w = true ->
        exists w', workers s' !! i = Some w' /\ hasSent w' = true)
  /\ (forall results, loop recordedRun = Returned results ->
        forallb isFinished (workers recordedRun) = true).
Proof.
  apply (shutdown_is_cooperative exampleLib queryOnlyEncoder noErrorsDecoder config_two
           recordedRun).
  exact recordedRun_reachable.
Defined.

Lemma abortedRun_reachable : reachable exampleLib queryOnlyEncoder noErrorsDecoder config_two abortedRun.
Proof.
  unfold abortedRun.
  eapply reachable_step; [|apply handler_exit; reflexivity].
  eapply reachable_step; [|apply handler_signal; reflexivity].
  eapply reachable_step;
    [|apply (worker_send _ _ _ _ _ 0%nat exampleSource (afterRange exampleSource));
      reflexivity].
  eapply reachable_step; [|apply (worker_proceed _ _ _ _ _ 0%nat); reflexivity].
  eapply reachable_step; [|apply (worker_acquire _ _ _ _ _ 0%nat); reflexivity].
  eapply reachable_step; [|apply loop_spawn; reflexivity].
  apply reachable_admitted; vm_compute; congruence.
Qed.

(** C3 as stated fails: after a signal the handler ends the process while
    worker 0 is still inside the transport, so a dispatched worker is
    aborted. *)
Lemma signal_aborts_worker :
  reachable exampleLib queryOnlyEncoder noErrorsDecoder config_two abortedRun
  /\ gracefulShutdown abortedRun = true
  /\ alive abortedRun = false
  /\ workers abortedRun !! 0%nat = Some (Sending "{query:query { ok }}" "Bearer x")
  /\ ~ neverAborted exampleLib queryOnlyEncoder noErrorsDecoder config_two.
Proof.
  split; [exact abortedRun_reachable|].
  split; [reflexivity|]. split; [reflexivity|]. split; [reflexivity|].
  intros Hnever. specialize (Hnever abortedRun abortedRun_reachable eq_refl).
  discriminate Hnever.
Qed.

(** C5. With no concurrency configured and a target rate R > 0 the limit
    is computed in binary64 as the ceiling of R times the seconds of the
    fixed estimate of 300 ms, but at least 1.  For every rate below 2^50
    requests per second, where [float64(R)] and the rounded product keep
    enough bits, it is the ceiling of R x 0.3: the least integer that is
    not below three tenths of R.  It is the capacity of the semaphore in
    every state of the run. *)
Theorem derived_concurrency (lib : GoLib)
    (json_Marshal : string -> option (list (string * Value)) -> option string)
    (json_Unmarshal : string -> GraphQLResponse * option string)
    (config : Config) :
  Concurrency config = 0 ->
  0 < TargetRPS config ->
  let limit := Concurrency (deriveConcurrency config) in
  estP95 = 300 * Millisecond
  /\ limit = Z.max 1 (int_of_float64
                        (math_Ceil (fmul (float64_of_Z (TargetRPS config))
                                         (Duration_Seconds estP95))))
  /\ (TargetRPS config < 2 ^ 50 ->
      1 <= limit /\ 3 * TargetRPS config <= 10 * limit < 3 * TargetRPS config + 10)
  /\ forall s, reachable lib json_Marshal json_Unmarshal (deriveConcurrency config) s ->
               semaphore s = limit.
Proof.
  intros HC HR limit.
  assert (Hlimit : limit = Z.max 1 (estimatedConcurrency (TargetRPS config))).
  { unfold limit, deriveConcurrency. rewrite HC.
    pose proof HR as HR'. apply Z.ltb_lt in HR'. rewrite HR'.
    change ((true && (0 <=? 0)%Z)%bool) with true. cbv iota.
    change (Concurrency (set_Concurrency ?c _)) with c.
    destruct (Z.ltb_spec (estimatedConcurrency (TargetRPS config)) 1); lia. }
  split; [reflexivity|]. split; [exact Hlimit|]. split.
  - intros Hbound. rewrite Hlimit.
    assert (Hexact : estimatedConcurrency (TargetRPS config)
                     = (3 * TargetRPS config + 9) / 10).
    { apply estimatedConcurrency_ceiling. lia. }
    rewrite Hexact.
    pose proof (Z.div_mod (3 * TargetRPS config + 9) 10 ltac:(lia)).
    pose proof (Z.mod_pos_bound (3 * TargetRPS config + 9) 10 ltac:(lia)).
    lia.
  - intros s Hs.
    exact (inv_semaphore _ _ (reachable_invariant _ _ _ _ s Hs)).
Qed.

Definition config_rate50 : Config :=
  mkConfig "http://localhost:8894/graphql" "query { ok }" "Authorization" "Bearer x"
    "Bearer x" [] 0 100 50 0 None true true "results/dev" false "".

Lemma derived_concurrency_witness :
  let limit := Concurrency (deriveConcurrency config_rate50) in
  estP95 = 300 * Millisecond
  /\ limit = Z.max 1 (int_of_float64
                        (math_Ceil (fmul (float64_of_Z (TargetRPS config_rate50))
                                         (Duration_Seconds estP95))))
  /\ (TargetRPS config_rate50 < 2 ^ 50 ->
      1 <= limit
      /\ 3 * TargetRPS config_rate50 <= 10 * limit < 3 * TargetRPS config_rate50 + 10)
  /\ forall s, reachable exampleLib queryOnlyEncoder noErrorsDecoder
                 (deriveConcurrency config_rate50) s ->
               semaphore s = limit.
Proof.
  apply (derived_concurrency exampleLib queryOnlyEncoder noErrorsDecoder config_rate50);
    reflexivity.
Defined.

Example derived_concurrency_50 : Concurrency (deriveConcurrency config_rate50) = 15.
Proof. reflexivity. Qed.

(** ** [makeRequest] *)

Section MakeRequestProperties.

Variable json_Unmarshal : string -> GraphQLResponse * option string.

Lemma success_on_response statusCode body readErr elapsed url payload authHeader authValue
    logRequests :
  Success (makeRequest json_Unmarshal (HTTPResponse statusCode body readErr elapsed)
             url payload authHeader authValue logRequests)
  = (statusCode =? 200)%Z
    && match json_Unmarshal body with
       | (gqlResp, None) => (List.length (Errors gqlResp) =? 0)%nat
       | (_, Some _) => true
       end.
Proof.
  unfold makeRequest.
  destruct (statusCode =? 200)%Z, (json_Unmarshal body) as [gqlResp [err|]], logRequests;
    reflexivity.
Qed.

(** C2, as the code has it.  When [http.NewRequest] or [client.Do] returns
    an error the outcome has [Success = false], that error, and the status
    code left at its zero value.  When [client.Do] returns a response the
    outcome has the response's status code and no error, whether or not
    the read of the body then fails, and its [Success] is false exactly
    when the status is not 200, or it is 200 and the bytes read decode
    without error into a response whose error list is not empty. *)
Theorem makeRequest_outcome (exchange : Exchange)
    (url payload authHeader authValue : string) (logRequests : bool) :
  let result :=
    makeRequest json_Unmarshal exchange url payload authHeader authValue logRequests in
  match exchange with
  | RequestError err _ | TransportError err _ =>
      Success result = false /\ StatusCode result = 0 /\ Error result = Some err
  | HTTPResponse statusCode body readErr _ =>
      StatusCode result = statusCode /\ Error result = None
      /\ result = makeRequest json_Unmarshal (HTTPResponse statusCode body None
                                                (Duration result))
                    url payload authHeader authValue logRequests
      /\ (Success result = false <->
          statusCode <> 200
          \/ (statusCode = 200
              /\ exists gqlResp,
                   json_Unmarshal body = (gqlResp, None) /\ Errors gqlResp <> []))
  end.
Proof.
  destruct exchange as [err el | err el | statusCode body readErr el]; cbv zeta.
  - repeat split.
  - repeat split.
  - split; [destruct logRequests; reflexivity|].
    split; [destruct logRequests; reflexivity|].
    split; [unfold makeRequest; destruct logRequests; reflexivity|].
    rewrite success_on_response.
    destruct (Z.eqb_spec statusCode 200) as [->|Hne]; cbn [andb].
    + destruct (json_Unmarshal body) as [gqlResp [err|]].
      * split; [discriminate|].
        intros [H | [_ (g & Hg & _)]]; [congruence | discriminate Hg].
      * destruct (Errors gqlResp) as [|e es] eqn:E; cbn [List.length Nat.eqb].
        -- split; [discriminate|].
           intros [H | [_ (g & Hg & Hne)]]; [congruence|].
           injection Hg as <-. congruence.
        -- split; [|reflexivity]. intros _. right. split; [reflexivity|].
           exists gqlResp. split; [reflexivity|]. rewrite E. discriminate.
    + split; [intros _; left; exact Hne | reflexivity].
Qed.

End MakeRequestProperties.

(** C2 as stated fails, in both halves.  A request whose body cannot be
    read to its end, because the 30 seconds of the client's timeout run
    out, is a success with status 200: the error of [io.ReadAll] is
    dropped.  And a response with status 200 whose body holds a non-empty
    error list that does not decode without error is a success too. *)
Lemma read_timeout_is_success :
  (let result :=
     makeRequest exampleDecoder
       (HTTPResponse 200 "{" (Some "context deadline exceeded") (30 * Second))
       "http://localhost:8894/graphql" "{}" "Authorization" "Bearer x" false in
   Success result = true /\ StatusCode result = 200 /\ Error result = None)
  /\ (let result :=
        makeRequest exampleDecoder (HTTPResponse 200 ill_typed_errors None 50)
          "http://localhost:8894/graphql" "{}" "Authorization" "Bearer x" false in
      Errors (fst (exampleDecoder ill_typed_errors)) <> []
      /\ Success result = true).
Proof.
  split; [repeat split|]. split; [discriminate | reflexivity].
Qed.

Example makeRequest_examples :
  Success (makeRequest exampleDecoder (HTTPResponse 200 boom_errors None 7)
             "u" "p" "h" "a" false) = false
  /\ Success (makeRequest exampleDecoder (HTTPResponse 200 "<html>" None 7)
                "u" "p" "h" "a" false) = true
  /\ Success (makeRequest exampleDecoder (HTTPResponse 500 "{}" None 7)
                "u" "p" "h" "a" false) = false
  /\ Success (makeRequest exampleDecoder (HTTPResponse 200 "{}" None 7)
                "u" "p" "h" "a" false) = true.
Proof. repeat split. Qed.

(** ** The asynchronous log sink *)

Lemma Start_started al : started al = true -> Start al = Returns (al, None).
Proof. intros H. unfold Start. rewrite H, orb_true_r. reflexivity. Qed.

Lemma Start_disabled al : enabled al = false -> Start al = Returns (al, None).
Proof. intros H. unfold Start. rewrite H. reflexivity. Qed.

Lemma running_invariant al : running al -> enabled al = true -> loggerInvariant al.
Proof.
  induction 1 as [en path create al Hnew | al al' err Hrun IH Hstart
                 | al entry al' Hrun IH Hlog | al io al' Hrun IH Hw]; intros Hen.
  - unfold NewAsyncLogger in Hnew. destruct en; simpl in Hnew.
    + destruct create; [discriminate|]. injection Hnew as <-.
      split; cbn [csvWriter logChannel started waitGroup].
      * exists (mkWriter [] 0 None). split; reflexivity.
      * exists (mkChannel [] 1000 false).
        cbn [capacity closed queue List.length]. repeat split. lia.
      * reflexivity.
    + injection Hnew as <-. discriminate.
  - unfold Start in Hstart.
    destruct (negb (enabled al) || started al) eqn:E.
    + injection Hstart as <- <-. auto.
    + apply orb_false_elim in E as [E1 E2]. apply negb_false_iff in E1.
      destruct (IH E1) as [[w [Hw Hrows]] [c (Hc & Hcap & Hcl & Hlen & Hq)] Hwg].
      rewrite E2 in Hrows, Hwg. subst w. rewrite Hw in Hstart. simpl in Hstart.
      injection Hstart as <- <-.
      split; simpl.
      * eexists. split; [reflexivity|]. exists []. reflexivity.
      * exists c. repeat split; auto.
      * rewrite Hwg. reflexivity.
  - unfold Log in Hlog.
    destruct (negb (enabled al) || negb (started al)) eqn:E.
    + injection Hlog as <-. auto.
    + apply orb_false_elim in E as [E1 E2].
      apply negb_false_iff in E1. apply negb_false_iff in E2.
      destruct (IH E1) as [[w [Hw Hrows]] [c (Hc & Hcap & Hcl & Hlen & Hq)] Hwg].
      rewrite Hc in Hlog. simpl in Hlog. rewrite Hcl, Hcap in Hlog.
      destruct (List.length (queue c) <? 1000)%nat eqn:Hroom; injection Hlog as <-.
      * split; simpl; [eauto | | exact Hwg].
        eexists. split; [reflexivity|]. simpl.
        apply Nat.ltb_lt in Hroom. rewrite length_app. simpl.
        repeat split; auto with lia. congruence.
      * split; simpl; [eauto | | exact Hwg].
        exists c. repeat split; auto.
  - unfold logWorkerStep in Hw.
    destruct (logChannel al) as [c|] eqn:Hc; [|discriminate].
    destruct (csvWriter al) as [w|] eqn:Hcsv; [|discriminate].
    destruct (queue c) as [|entry rest] eqn:Hqueue; [discriminate|].
    injection Hw as <-. simpl in Hen.
    destruct (IH Hen) as [[w0 [Hw0 Hrows]] [c0 (Hc0 & Hcap & Hcl & Hlen & Hq)] Hwg].
    rewrite Hcsv in Hw0. injection Hw0 as <-.
    rewrite Hc in Hc0. injection Hc0 as <-.
    destruct (started al) eqn:Hst.
    + split; simpl; rewrite ?Hst; [ | | exact Hwg].
      * eexists. split; [reflexivity|]. destruct Hrows as [es Hes].
        unfold csv_Write, csv_Flush.
        destruct (werr w) eqn:Herr; simpl; rewrite ?Herr; [exists es; exact Hes|].
        exists (es ++ [entry])%list.
        destruct io; simpl; rewrite Hes, map_app; reflexivity.
      * eexists. split; [reflexivity|]. simpl.
        rewrite Hqueue in Hlen. simpl in Hlen.
        repeat split; auto with lia.
    + rewrite Hq in Hqueue by reflexivity. discriminate.
Qed.

(** [Start] called [n] times in a row. *)
Lemma startTimes_started n al :
  started al = true -> startTimes n al = Returns al.
Proof.
  intros Hst. induction n as [|n IH]; simpl; [reflexivity|].
  rewrite (Start_started al Hst). exact IH.
Qed.

(** C9. On an enabled logger that has not been started, [Start] writes the
    header row, launches one [logWorker] and marks the logger started; on a
    started logger it changes nothing and returns no error.  So after any
    number of calls the rows begin with one header, followed by entry rows
    only, and one writer has been launched. *)
Theorem Start_idempotent (al : AsyncLogger) :
  running al -> enabled al = true ->
  exists al1,
    Start al = Returns (al1, None)
    /\ started al1 = true
    /\ waitGroup al1 = 1%nat
    /\ (exists w es, csvWriter al1 = Some w /\ rows w = csvHeader :: map entryRow es)
    /\ (started al = false ->
        exists w, csvWriter al1 = Some w /\ rows w = [csvHeader]
                  /\ waitGroup al1 = S (waitGroup al))
    /\ (started al = true -> al1 = al)
    /\ Start al1 = Returns (al1, None)
    /\ forall n, startTimes (S n) al = Returns al1.
Proof.
  intros Hrun Hen.
  destruct (running_invariant al Hrun Hen)
    as [[w [Hw Hrows]] [c (Hc & Hcap & Hcl & Hlen & Hq)] Hwg].
  destruct (started al) eqn:Hst.
  - exists al. rewrite (Start_started al Hst).
    repeat split; auto; try discriminate.
    + destruct Hrows as [es Hes]. eauto.
    + intros n. exact (startTimes_started (S n) al Hst).
  - subst w.
    assert (HS : Start al
                 = Returns (mkAsyncLogger (enabled al) (logFile al)
                              (Some (mkWriter [csvHeader] 0 None)) (logChannel al)
                              (S (waitGroup al)) true, None)).
    { unfold Start. rewrite Hen, Hst, Hw. reflexivity. }
    eexists. split; [exact HS|].
    split; [reflexivity|]. split; [simpl; rewrite Hwg; reflexivity|].
    split; [exists (mkWriter [csvHeader] 0 None), []; split; reflexivity|].
    split; [intros _; eexists; repeat split|].
    split; [discriminate|].
    split; [apply Start_started; reflexivity|].
    intros n. simpl. rewrite HS. apply startTimes_started. reflexivity.
Qed.

(** C7. On a started, enabled logger the queue has capacity 1000 and is
    open; [Log] returns, with the entry appended when fewer than 1000
    entries are queued and with the logger unchanged when the queue is
    full. *)
Theorem Log_never_blocks (al : AsyncLogger) (entry : RequestLogEntry) :
  running al -> enabled al = true -> started al = true ->
  exists c,
    logChannel al = Some c /\ capacity c = 1000%nat /\ closed c = false
    /\ ((List.length (queue c) < 1000)%nat ->
        Log al entry
        = Returns (mkAsyncLogger (enabled al) (logFile al) (csvWriter al)
                     (Some (mkChannel (queue c ++ [entry]) 1000 false))
                     (waitGroup al) (started al)))
    /\ (List.length (queue c) = 1000%nat -> Log al entry = Returns al)
    /\ exists al', Log al entry = Returns al'.
Proof.
  intros Hrun Hen Hst.
  destruct (running_invariant al Hrun Hen)
    as [_ [c (Hc & Hcap & Hcl & Hlen & _)] _].
  exists c. split; [exact Hc|]. split; [exact Hcap|]. split; [exact Hcl|].
  assert (Hroom : (List.length (queue c) < 1000)%nat ->
                  Log al entry
                  = Returns (mkAsyncLogger (enabled al) (logFile al) (csvWriter al)
                               (Some (mkChannel (queue c ++ [entry]) 1000 false))
                               (waitGroup al) (started al))).
  { intros Hlt. unfold Log. rewrite Hen, Hst, Hc. simpl. rewrite Hcl, Hcap.
    apply Nat.ltb_lt in Hlt. rewrite Hlt. reflexivity. }
  assert (Hfull : List.length (queue c) = 1000%nat -> Log al entry = Returns al).
  { intros Heq. clear Hroom Hrun.
    destruct al as [en lf cw lc wg st]. cbn in Hen, Hst, Hc. subst en st lc.
    unfold Log, trySend. cbn [enabled started logChannel negb orb].
    rewrite Hcl, Hcap, Heq, Nat.ltb_irrefl. reflexivity. }
  split; [exact Hroom|]. split; [exact Hfull|].
  destruct (Nat.eq_dec (List.length (queue c)) 1000%nat) as [Heq|Hne].
  - eexists. exact (Hfull Heq).
  - eexists. apply Hroom. lia.
Qed.

Lemma freshLogger_running : running freshLogger.
Proof. apply (running_new true "results/dev/log.csv" None). reflexivity. Qed.

Lemma loggerWithQueue_running n :
  (n <= 1000)%nat -> running (loggerWithQueue (repeat exampleEntry n)).
Proof.
  induction n as [|n IH]; intros Hn.
  - apply (running_Start freshLogger _ None freshLogger_running). reflexivity.
  - apply (running_Log (loggerWithQueue (repeat exampleEntry n)) exampleEntry).
    + apply IH. lia.
    + unfold Log, trySend, loggerWithQueue.
      cbn [enabled started logChannel negb orb closed capacity queue].
      rewrite repeat_length.
      replace (n <? 1000)%nat with true by (symmetry; apply Nat.ltb_lt; lia).
      rewrite <- repeat_cons. reflexivity.
Qed.

Lemma Start_idempotent_witness :
  exists al1,
    Start freshLogger = Returns (al1, None)
    /\ started al1 = true
    /\ waitGroup al1 = 1%nat
    /\ (exists w es, csvWriter al1 = Some w /\ rows w = csvHeader :: map entryRow es)
    /\ (started freshLogger = false ->
        exists w, csvWriter al1 = Some w /\ rows w = [csvHeader]
                  /\ waitGroup al1 = S (waitGroup freshLogger))
    /\ (started freshLogger = true -> al1 = freshLogger)
    /\ Start al1 = Returns (al1, None)
    /\ forall n, startTimes (S n) freshLogger = Returns al1.
Proof.
  apply (Start_idempotent freshLogger).
  - exact freshLogger_running.
  - reflexivity.
Defined.

Example Start_twice :
  startTimes 1 freshLogger = Returns (loggerWithQueue [])
  /\ startTimes 2 freshLogger = Returns (loggerWithQueue []).
Proof. split; reflexivity. Qed.

Lemma Log_never_blocks_witness :
  exists c,
    logChannel (loggerWithQueue [exampleEntry]) = Some c
    /\ capacity c = 1000%nat /\ closed c = false
    /\ ((List.length (queue c) < 1000)%nat ->
        Log (loggerWithQueue [exampleEntry]) exampleEntry
        = Returns (mkAsyncLogger (enabled (loggerWithQueue [exampleEntry]))
                     (logFile (loggerWithQueue [exampleEntry]))
                     (csvWriter (loggerWithQueue [exampleEntry]))
                     (Some (mkChannel (queue c ++ [exampleEntry]) 1000 false))
                     (waitGroup (loggerWithQueue [exampleEntry]))
                     (started (loggerWithQueue [exampleEntry]))))
    /\ (List.length (queue c) = 1000%nat ->
        Log (loggerWithQueue [exampleEntry]) exampleEntry
        = Returns (loggerWithQueue [exampleEntry]))
    /\ exists al', Log (loggerWithQueue [exampleEntry]) exampleEntry = Returns al'.
Proof.
  apply (Log_never_blocks (loggerWithQueue [exampleEntry]) exampleEntry).
  - apply (loggerWithQueue_running 1). lia.
  - reflexivity.
  - reflexivity.
Defined.

(** With 1000 entries queued, a state the logger can reach, the entry is
    dropped. *)
Example Log_full_queue_drops :
  running (loggerWithQueue (repeat exampleEntry 1000))
  /\ Log (loggerWithQueue (repeat exampleEntry 1000)) exampleEntry
     = Returns (loggerWithQueue (repeat exampleEntry 1000)).
Proof.
  split; [apply loggerWithQueue_running; lia|].
  unfold Log, trySend, loggerWithQueue.
  cbn [enabled started logChannel negb orb closed capacity queue].
  rewrite repeat_length. reflexivity.
Qed.

(** ** The placeholder engine *)

Lemma allKinds_complete k : In k allKinds.
Proof. destruct k; simpl; tauto. Qed.

Lemma findAll_no_token text k :
  containsToken text = false -> FindAllStringSubmatch (pattern k) text = [].
Proof.
  unfold containsToken. intros H.
  assert (Hk := allKinds_complete k).
  destruct (FindAllStringSubmatch (pattern k) text) as [|m ms] eqn:E; [reflexivity|].
  exfalso. apply not_true_iff_false in H. apply H.
  apply existsb_exists. exists k. split; [exact Hk|]. rewrite E. reflexivity.
Qed.

Lemma strip_prefix_append p q s :
  strip_prefix (p ++ q) s
  = match strip_prefix p s with
    | Some r => strip_prefix q r
    | None => None
    end.
Proof.
  revert s. induction p as [|a p IH]; intros s; simpl; [reflexivity|].
  destruct s as [|b s]; [reflexivity|].
  destruct (Ascii.eqb a b); [apply IH | reflexivity].
Qed.

(** Every pattern of the table begins with the text [{{random.]. *)
Lemma match_begins_with_marker k s :
  matchItems (pattern k) s <> None -> strip_prefix "{{random." s <> None.
Proof.
  intros Hm Hs. apply Hm. clear Hm.
  destruct k; unfold pattern; cbn [matchItems matchPiece];
    match goal with
    | |- context [strip_prefix ?l s] =>
        let t := eval vm_compute in (drop_bytes 9 l) in
        change l with ("{{random." ++ t); rewrite strip_prefix_append, Hs
    end; reflexivity.
Qed.

Lemma occursIn_false_inv marker c s :
  occursIn marker (String c s) = false ->
  strip_prefix marker (String c s) = None /\ occursIn marker s = false.
Proof.
  simpl. destruct marker as [|a marker]; simpl; [discriminate|].
  destruct (Ascii.eqb a c); [|auto].
  destruct (strip_prefix marker s); [discriminate | auto].
Qed.

Lemma findAll_no_marker k s skip :
  occursIn "{{random." s = false -> findAll (pattern k) skip s = [].
Proof.
  revert skip. induction s as [|c s IH]; intros skip H; [reflexivity|].
  apply occursIn_false_inv in H as [Hhere Hrest].
  cbn [findAll]. destruct skip as [|n]; [|apply IH, Hrest].
  destruct (matchItems (pattern k) (String c s)) as [[[t caps] rest]|] eqn:E.
  - exfalso. apply (match_begins_with_marker k (String c s)); [congruence | exact Hhere].
  - apply IH, Hrest.
Qed.

(** A text in which [{{random.] does not occur contains no token. *)
Lemma no_marker_no_token text :
  occursIn "{{random." text = false -> containsToken text = false.
Proof.
  intros H. unfold containsToken. apply not_true_iff_false. intros Hex.
  apply existsb_exists in Hex as [k [_ Hk]].
  unfold FindAllStringSubmatch in Hk. rewrite (findAll_no_marker k text 0 H) in Hk.
  discriminate.
Qed.

Section EngineProperties.

Variable lib : GoLib.

Lemma replacePatterns_no_token order text src :
  containsToken text = false ->
  replacePatterns lib order text src = Some (text, src).
Proof.
  intros H. induction order as [|k order IH]; [reflexivity|].
  cbn [replacePatterns]. rewrite (findAll_no_token text k H).
  unfold bind. cbn [replaceMatches]. unfold ret at 1. exact IH.
Qed.

Lemma replace_no_token text src :
  containsToken text = false ->
  replaceRandomPlaceholders lib text src = Some (VString text, afterRange src).
Proof.
  intros H. unfold replaceRandomPlaceholders, bind, next_order.
  fold (afterRange src).
  rewrite (replacePatterns_no_token _ text (afterRange src) H).
  rewrite String.eqb_refl. reflexivity.
Qed.

(** C10. A text that contains no token comes back as the same text, as a
    string, also when the text reads as a number; of the source only the
    choice of the iteration order is consumed. *)
Theorem replaceRandomPlaceholders_identity (text : string) (src : Source) :
  containsToken text = false ->
  replaceRandomPlaceholders lib text src = Some (VString text, afterRange src).
Proof. exact (replace_no_token text src). Qed.

End EngineProperties.

Lemma replaceRandomPlaceholders_identity_witness :
  replaceRandomPlaceholders exampleLib "42" exampleSource
  = Some (VString "42", afterRange exampleSource).
Proof.
  apply (replaceRandomPlaceholders_identity exampleLib "42" exampleSource).
  vm_compute. reflexivity.
Defined.

(** Tokens the table does not know are not replaced either. *)
Example unknown_token_unchanged :
  replaceRandomPlaceholders exampleLib "{{random.boolean()}}" exampleSource
  = Some (VString "{{random.boolean()}}", afterRange exampleSource).
Proof.
  apply replace_no_token. vm_compute. reflexivity.
Qed.

(** Induction over a tree, with the elements of a list and the values of a
    map as induction hypotheses. *)
Section ValueInduction.

Variable P : Value -> Prop.
Hypothesis Hnull : P VNull.
Hypothesis Hbool : forall b, P (VBool b).
Hypothesis Hint : forall n, P (VInt n).
Hypothesis Hfloat : forall f, P (VFloat f).
Hypothesis Hstring : forall s, P (VString s).
Hypothesis Hlist : forall l, Forall P l -> P (VList l).
Hypothesis Hmap : forall m, Forall (fun e => P (snd e)) m -> P (VMap m).

Fixpoint Value_tree_ind (v : Value) : P v :=
  match v with
  | VNull => Hnull
  | VBool b => Hbool b
  | VInt n => Hint n
  | VFloat f => Hfloat f
  | VString s => Hstring s
  | VList l =>
      Hlist l ((fix all (l : list Value) : Forall P l :=
                  match l with
                  | [] => @List.Forall_nil _ P
                  | x :: l' => @List.Forall_cons _ P x l' (Value_tree_ind x) (all l')
                  end) l)
  | VMap m =>
      Hmap m ((fix all (m : list (string * Value)) : Forall (fun e => P (snd e)) m :=
                 match m with
                 | [] => @List.Forall_nil _ _
                 | e :: m' => @List.Forall_cons _ _ e m' (Value_tree_ind (snd e)) (all m')
                 end) m)
  end.

End ValueInduction.

Lemma forEach_Forall2 {A B} (f : A -> M B) (R : A -> B -> Prop) (l : list A) :
  Forall (fun x => forall src r src', f x src = Some (r, src') -> R x r) l ->
  forall src rs src', forEach f l src = Some (rs, src') -> Forall2 R l rs.
Proof.
  induction 1 as [|x l Hx _ IH]; intros src rs src' Hrun.
  - injection Hrun as <- _. constructor.
  - cbn [forEach] in Hrun. unfold bind in Hrun.
    destruct (f x src) as [[r src1]|] eqn:Ef; [|discriminate].
    fold (forEach f) in Hrun.
    destruct (forEach f l src1) as [[rs' src2]|] eqn:El; [|discriminate].
    injection Hrun as <- _.
    constructor; [exact (Hx _ _ _ Ef) | exact (IH _ _ _ El)].
Qed.

Lemma forEach_unchanged {A} (f : A -> M A) (l : list A) :
  Forall (fun x => forall src, exists src', f x src = Some (x, src')) l ->
  forall src, exists src', forEach f l src = Some (l, src').
Proof.
  induction 1 as [|x l Hx _ IH]; intros src.
  - eexists. reflexivity.
  - destruct (Hx src) as [src1 E1]. destruct (IH src1) as [src2 E2].
    exists src2. cbn [forEach]. unfold bind. rewrite E1.
    fold (forEach f). rewrite E2. reflexivity.
Qed.

Lemma sameShape_keys (m m' : list (string * Value)) :
  Forall2 (fun e e' => fst e = fst e' /\ sameShape (snd e) (snd e')) m m' ->
  map fst m' = map fst m.
Proof.
  induction 1 as [|e e' m m' [Hk _] _ IH]; simpl; [reflexivity|].
  rewrite Hk, IH. reflexivity.
Qed.

Section ShapeProperties.

Variable lib : GoLib.

(** What [replaceRandomPlaceholders] returns is a string, an [int] or a
    [float64]. *)
Lemma replaceRandomPlaceholders_leaf text src v src' :
  replaceRandomPlaceholders lib text src = Some (v, src') ->
  sameShape (VString text) v.
Proof.
  unfold replaceRandomPlaceholders, bind, next_order. intros H.
  destruct (replacePatterns lib _ text _) as [[result src1]|]; [|discriminate].
  destruct (negb (String.eqb result text)).
  - destruct (strconv_ParseFloat lib result) as [val|].
    + destruct (feqb val (math_Trunc val)); injection H as <- _; constructor.
    + injection H as <- _. constructor.
  - injection H as <- _. constructor.
Qed.

Lemma processRandomValue_sameShape t :
  forall src v src', processRandomValue lib t src = Some (v, src') -> sameShape t v.
Proof.
  induction t as [| b | n | f | s | l IH | m IH] using Value_tree_ind;
    intros src v src' H; cbn [processRandomValue] in H;
    try (injection H as <- _; constructor).
  - exact (replaceRandomPlaceholders_leaf _ _ _ _ H).
  - unfold bind in H.
    destruct (forEach (processRandomValue lib) l src) as [[rs src1]|] eqn:E; [|discriminate].
    injection H as <- _. constructor.
    exact (forEach_Forall2 _ sameShape l IH _ _ _ E).
  - unfold bind in H.
    match type of H with
    | match forEach ?f m src with _ => _ end = _ =>
        destruct (forEach f m src) as [[rs src1]|] eqn:E; [|discriminate];
        injection H as <- _; constructor;
        apply (forEach_Forall2 f _ m) with (src := src) (src' := src1); [|exact E]
    end.
    eapply List.Forall_impl; [|exact IH]. intros e He src0 r src0' Hr.
    unfold bind in Hr.
    destruct (processRandomValue lib (snd e) src0) as [[r0 src2]|] eqn:Er; [|discriminate].
    injection Hr as <- _. split; [reflexivity | exact (He _ _ _ Er)].
Qed.

(** C6. When expansion returns a tree, the tree has the shape of the
    template: a map comes back as a map with the same keys in the same
    entries, a list as a list of the same length, and a leaf that is not a
    string comes back as it is. *)
Theorem processRandomValue_shape (t : Value) (src : Source) (v : Value) (src' : Source) :
  processRandomValue lib t src = Some (v, src') ->
  sameShape t v
  /\ (forall m, t = VMap m -> exists m', v = VMap m' /\ map fst m' = map fst m)
  /\ (forall l, t = VList l ->
        exists l', v = VList l' /\ List.length l' = List.length l
                   /\ Forall2 sameShape l l')
  /\ ((forall s, t <> VString s) -> (forall l, t <> VList l) -> (forall m, t <> VMap m) ->
      v = t).
Proof.
  intros H. pose proof (processRandomValue_sameShape t src v src' H) as Hs.
  split; [exact Hs|]. split; [|split].
  - intros m ->. inversion Hs as [| | | | | | | |m0 m' Hall]; subst.
    exists m'. split; [reflexivity | exact (sameShape_keys _ _ Hall)].
  - intros l ->. inversion Hs as [| | | | | | |l0 l' Hall|]; subst.
    exists l'. split; [reflexivity|]. split; [|exact Hall].
    symmetry. exact (Forall2_length _ _ _ Hall).
  - intros Hstr Hlst Hmp.
    destruct t; cbn [processRandomValue] in H;
      try (injection H as <- _; reflexivity).
    + exfalso. exact (Hstr s eq_refl).
    + exfalso. exact (Hlst l eq_refl).
    + exfalso. exact (Hmp m eq_refl).
Qed.

(** A tree without tokens is returned as it is: expansion does return. *)
Lemma processRandomValue_tokenFree t :
  tokenFree t = true ->
  forall src, exists src', processRandomValue lib t src = Some (t, src').
Proof.
  induction t as [| b | n | f | s | l IH | m IH] using Value_tree_ind;
    intros Hfree src; cbn [processRandomValue];
    try (eexists; reflexivity).
  - cbn [tokenFree] in Hfree. apply negb_true_iff in Hfree.
    rewrite (replace_no_token lib s src Hfree). eauto.
  - cbn [tokenFree] in Hfree.
    destruct (forEach_unchanged (processRandomValue lib) l) with (src := src)
      as [src' E].
    { rewrite forallb_forall in Hfree. rewrite List.Forall_forall in IH |- *.
      intros x Hx. apply IH; [exact Hx | apply Hfree, Hx]. }
    exists src'. unfold bind. rewrite E. reflexivity.
  - cbn [tokenFree] in Hfree.
    destruct (forEach_unchanged
                (fun kv => let* r := processRandomValue lib (snd kv) in ret (fst kv, r)) m)
      with (src := src) as [src' E].
    { rewrite forallb_forall in Hfree. rewrite List.Forall_forall in IH |- *.
      intros e He src0. destruct (IH e He (Hfree e He) src0) as [src1 E1].
      exists src1. unfold bind. rewrite E1. destruct e; reflexivity. }
    exists src'. unfold bind at 1. rewrite E. reflexivity.
Qed.

End ShapeProperties.

Lemma processRandomValue_shape_witness :
  sameShape exampleTree expandedTree
  /\ (forall m, exampleTree = VMap m ->
        exists m', expandedTree = VMap m' /\ map fst m' = map fst m)
  /\ (forall l, exampleTree = VList l ->
        exists l', expandedTree = VList l' /\ List.length l' = List.length l
                   /\ Forall2 sameShape l l')
  /\ ((forall s, exampleTree <> VString s) -> (forall l, exampleTree <> VList l) ->
      (forall m, exampleTree <> VMap m) -> expandedTree = exampleTree).
Proof.
  apply (processRandomValue_shape exampleLib exampleTree exampleSource
           expandedTree exampleSourceAfter).
  vm_compute. reflexivity.
Defined.

(** A reversed range makes [rand.Intn] panic: expansion returns nothing. *)
Example reversed_range_panics :
  processRandomValue exampleLib (VString "{{random.int(5,1)}}") exampleSource = None.
Proof. vm_compute. reflexivity. Qed.

(** *** Where the engine can panic *)

Lemma rand_Intn_returns n src :
  0 < n -> exists r, rand_Intn n src = Some (r, afterDraw src).
Proof.
  intros Hn. unfold rand_Intn.
  destruct (Z.leb_spec n 0) as [Hle|_]; [lia|].
  eexists. reflexivity.
Qed.

Lemma fillFromCharset_returns n src :
  exists b src', fillFromCharset n src = Some (b, src').
Proof.
  revert src. induction n as [|n IH]; intros src; cbn [fillFromCharset].
  - eexists _, _. reflexivity.
  - destruct (rand_Intn_returns (Z.of_nat (String.length charset)) src) as [r Hr];
      [reflexivity|].
    destruct (IH (afterDraw src)) as (b & src' & Hb).
    unfold bind. rewrite Hr, Hb. eexists _, _. reflexivity.
Qed.

Lemma rand_Read_returns n src :
  exists b src', rand_Read n src = Some (b, src').
Proof.
  revert src. induction n as [|n IH]; intros src; cbn [rand_Read].
  - eexists _, _. reflexivity.
  - unfold bind, next_draw. fold (afterDraw src).
    destruct (IH (afterDraw src)) as (b & src' & Hb). rewrite Hb.
    eexists _, _. reflexivity.
Qed.

Section PanicProperties.

Variable lib : GoLib.

Lemma bind_returns {A B} (c : M A) (k : A -> M B) src a src1 :
  c src = Some (a, src1) -> bind c k src = k a src1.
Proof. intros H. unfold bind. rewrite H. reflexivity. Qed.

Lemma generateRandomFloat_returns m src :
  exists v src', generateRandomFloat lib m src = Some (v, src').
Proof.
  unfold generateRandomFloat.
  match goal with
  | |- exists v src', (let '(min, max) := ?c in _) src = _ => destruct c as [min max]
  end.
  destruct (rand_Intn_returns (2 ^ 53) src) as [r Hr]; [reflexivity|].
  assert (Hf : rand_Float64 src
               = Some (fdiv (float64_of_Z r) (float64_of_Z (2 ^ 53)), afterDraw src)).
  { unfold rand_Float64. rewrite (bind_returns _ _ _ _ _ Hr). reflexivity. }
  rewrite (bind_returns _ _ _ _ _ Hf). eexists _, _. reflexivity.
Qed.

Lemma generateRandomUUID_returns m src :
  exists v src', generateRandomUUID m src = Some (v, src').
Proof.
  unfold generateRandomUUID.
  destruct (rand_Read_returns 16 src) as (b & src' & Hb).
  rewrite (bind_returns _ _ _ _ _ Hb). eexists _, _. reflexivity.
Qed.

Lemma generateRandomEmail_returns m src :
  exists v src', generateRandomEmail m src = Some (v, src').
Proof.
  unfold generateRandomEmail. cbv zeta.
  destruct (rand_Intn_returns (Z.of_nat 8) src) as [r1 H1]; [reflexivity|].
  destruct (rand_Intn_returns (Z.of_nat 4) (afterDraw src)) as [r2 H2]; [reflexivity|].
  destruct (rand_Intn_returns 9999 (afterDraw (afterDraw src))) as [r3 H3]; [reflexivity|].
  cbn [List.length].
  rewrite (bind_returns _ _ _ _ _ H1), (bind_returns _ _ _ _ _ H2),
    (bind_returns _ _ _ _ _ H3).
  eexists _, _. reflexivity.
Qed.

Lemma generateRandomName_returns m src :
  exists v src', generateRandomName m src = Some (v, src').
Proof.
  unfold generateRandomName. cbv zeta.
  destruct (rand_Intn_returns (Z.of_nat 10) src) as [r1 H1]; [reflexivity|].
  destruct (rand_Intn_returns (Z.of_nat 10) (afterDraw src)) as [r2 H2]; [reflexivity|].
  cbn [List.length].
  rewrite (bind_returns _ _ _ _ _ H1), (bind_returns _ _ _ _ _ H2).
  eexists _, _. reflexivity.
Qed.

Lemma generateRandomChoice_returns m src :
  exists v src', generateRandomChoice m src = Some (v, src').
Proof.
  unfold generateRandomChoice.
  destruct (List.length m <? 2)%nat; [eexists _, _; reflexivity|].
  destruct (map strings_TrimSpace (strings_Split_comma (group 1 m))) as [|c cs];
    [eexists _, _; reflexivity|].
  cbn [List.length Nat.eqb].
  destruct (rand_Intn_returns (Z.of_nat (S (List.length cs))) src) as [r Hr]; [lia|].
  rewrite (bind_returns _ _ _ _ _ Hr). eexists _, _. reflexivity.
Qed.

Lemma generateRandomNumber_returns m src :
  0 < wrap64 (snd (numberRange m) - fst (numberRange m) + 1) ->
  exists v src', generateRandomNumber m src = Some (v, src').
Proof.
  unfold generateRandomNumber. fold (numberRange m).
  destruct (numberRange m) as [min max]. cbn [fst snd]. intros Hpos.
  destruct (rand_Intn_returns _ src Hpos) as [r Hr].
  rewrite (bind_returns _ _ _ _ _ Hr). eexists _, _. reflexivity.
Qed.

Lemma generateRandomString_returns m src :
  0 <= stringLength m <= makeslice_limit lib ->
  exists v src', generateRandomString lib m src = Some (v, src').
Proof.
  unfold generateRandomString. fold (stringLength m). intros Hlen.
  destruct (Z.ltb_spec (stringLength m) 0) as [Hlt|_]; [lia|].
  destruct (Z.ltb_spec (makeslice_limit lib) (stringLength m)) as [Hlt|_]; [lia|].
  cbn [orb].
  destruct (fillFromCharset_returns (Z.to_nat (stringLength m)) src) as (b & src' & Hb).
  rewrite (bind_returns _ _ _ _ _ Hb). eexists _, _. reflexivity.
Qed.

Lemma generateRandomTimestamp_returns m src :
  0 < clock src - time_AddDate lib (clock src) 0 0 (-30) ->
  exists v src', generateRandomTimestamp lib m src = Some (v, src').
Proof.
  unfold generateRandomTimestamp. intros Hpos.
  assert (Hnow : time_Now src = Some (clock src, src)) by reflexivity.
  rewrite (bind_returns _ _ _ _ _ Hnow).
  destruct (rand_Intn_returns _ src Hpos) as [r Hr].
  rewrite (bind_returns _ _ _ _ _ Hr). eexists _, _. reflexivity.
Qed.

Lemma generator_table k :
  generator lib k
  = match k with
    | KString => generateRandomString lib
    | KNumber => generateRandomNumber
    | KInt => generateRandomNumber
    | KFloat => generateRandomFloat lib
    | KUUID => generateRandomUUID
    | KEmail => generateRandomEmail
    | KName => generateRandomName
    | KTimestamp => generateRandomTimestamp lib
    | KChoice => generateRandomChoice
    end.
Proof. destruct k; reflexivity. Qed.

(** A generator panics only when [rand.Intn] gets a bound that is not
    positive (a range of [random.number] or [random.int] with no element,
    or a calendar whose date 30 days back is not in the past) and when
    [make] cannot allocate the string asked for.  (A negative length does
    not arise from a match of [\d+].) *)
Lemma generator_panics_only_on_bad_bound k m src :
  generator lib k m src = None ->
  ((k = KNumber \/ k = KInt)
   /\ wrap64 (snd (numberRange m) - fst (numberRange m) + 1) <= 0)
  \/ (k = KTimestamp /\ clock src - time_AddDate lib (clock src) 0 0 (-30) <= 0)
  \/ (k = KString /\ (stringLength m < 0 \/ makeslice_limit lib < stringLength m)).
Proof.
  rewrite generator_table. intros Hnone.
  destruct k.
  - right. right. split; [reflexivity|].
    destruct (Z.lt_ge_cases (stringLength m) 0) as [Hlt|Hge]; [left; exact Hlt|].
    destruct (Z.lt_ge_cases (makeslice_limit lib) (stringLength m)) as [Hbig|Hfit];
      [right; exact Hbig|].
    destruct (generateRandomString_returns m src (conj Hge Hfit)) as (v & src' & H).
    congruence.
  - left. split; [left; reflexivity|].
    destruct (Z.le_gt_cases (wrap64 (snd (numberRange m) - fst (numberRange m) + 1)) 0)
      as [Hle|Hgt]; [exact Hle|].
    destruct (generateRandomNumber_returns m src Hgt) as (v & src' & H). congruence.
  - left. split; [right; reflexivity|].
    destruct (Z.le_gt_cases (wrap64 (snd (numberRange m) - fst (numberRange m) + 1)) 0)
      as [Hle|Hgt]; [exact Hle|].
    destruct (generateRandomNumber_returns m src Hgt) as (v & src' & H). congruence.
  - destruct (generateRandomFloat_returns m src) as (v & src' & H). congruence.
  - destruct (generateRandomUUID_returns m src) as (v & src' & H). congruence.
  - destruct (generateRandomEmail_returns m src) as (v & src' & H). congruence.
  - destruct (generateRandomName_returns m src) as (v & src' & H). congruence.
  - right. left. split; [reflexivity|].
    destruct (Z.le_gt_cases (clock src - time_AddDate lib (clock src) 0 0 (-30)) 0)
      as [Hle|Hgt]; [exact Hle|].
    destruct (generateRandomTimestamp_returns m src Hgt) as (v & src' & H). congruence.
  - destruct (generateRandomChoice_returns m src) as (v & src' & H). congruence.
Qed.

End PanicProperties.

Section CoercionProperties.

Variable lib : GoLib.

Lemma mixedLeaf_other_kinds k :
  k <> KInt -> FindAllStringSubmatch (pattern k) mixedLeaf = [].
Proof. destruct k; intros H; try reflexivity. congruence. Qed.

Lemma mixedLeaf_int :
  FindAllStringSubmatch (pattern KInt) mixedLeaf = [["{{random.int(7,7)}}"; "7"; "7"]].
Proof. reflexivity. Qed.

Lemma digits_no_match k : FindAllStringSubmatch (pattern k) "5557" = [].
Proof. destruct k; reflexivity. Qed.

Lemma int_7_7 src :
  generateRandomInt ["{{random.int(7,7)}}"; "7"; "7"] src = Some (VInt 7, afterDraw src).
Proof.
  unfold generateRandomInt, generateRandomNumber.
  change (strconv_Atoi (group 1 ["{{random.int(7,7)}}"; "7"; "7"])) with (Some 7).
  change (strconv_Atoi (group 2 ["{{random.int(7,7)}}"; "7"; "7"])) with (Some 7).
  cbn [Nat.ltb Nat.leb List.length group nth nonempty andb].
  change (wrap64 (7 - 7 + 1)) with 1.
  unfold rand_Intn. cbn [Z.leb Z.compare].
  unfold bind, next_draw, ret. rewrite Z.mod_1_r. reflexivity.
Qed.

Lemma replacePatterns_digits order src :
  replacePatterns lib order "5557" src = Some ("5557", src).
Proof.
  induction order as [|k order IH]; [reflexivity|].
  cbn [replacePatterns]. rewrite digits_no_match. exact IH.
Qed.

Lemma replacePatterns_mixedLeaf order src :
  In KInt order ->
  replacePatterns lib order mixedLeaf src = Some ("5557", afterDraw src).
Proof.
  induction order as [|k order IH]; intros Hin; [destruct Hin|].
  cbn [replacePatterns].
  assert (Hk : k = KInt \/ k <> KInt) by (destruct k; auto; right; discriminate).
  destruct Hk as [-> | Hne].
  - rewrite mixedLeaf_int. cbn [replaceMatches generator]. unfold bind at 1 2.
    rewrite int_7_7. cbn [fmt_v].
    change (strings_Replace1 mixedLeaf (group 0 ["{{random.int(7,7)}}"; "7"; "7"])
              (fmt_int 7)) with "5557".
    unfold ret at 1. apply replacePatterns_digits.
  - rewrite (mixedLeaf_other_kinds k Hne). cbn [replaceMatches]. unfold bind, ret at 1.
    apply IH. destruct Hin as [Heq | Hin]; [congruence | exact Hin].
Qed.

(** C4 fails on the code. The leaf [555{{random.int(7,7)}}] is not a single
    token, yet whatever the random source draws it comes back as the
    integer 5557: the substituted text is parsed as a number whenever it
    differs from the original. *)
Theorem mixed_leaf_is_coerced (src : Source) :
  strconv_ParseFloat lib "5557" = Some (float64_of_Z 5557) ->
  In KInt (orders src (ranges src)) ->
  replaceRandomPlaceholders lib mixedLeaf src = Some (VInt 5557, afterDraw (afterRange src)).
Proof.
  intros Hparse Hin. unfold replaceRandomPlaceholders, bind, next_order.
  fold (afterRange src).
  rewrite (replacePatterns_mixedLeaf _ (afterRange src) Hin).
  change (negb (String.eqb "5557" mixedLeaf)) with true. cbv iota.
  rewrite Hparse. reflexivity.
Qed.

End CoercionProperties.

Lemma mixed_leaf_is_coerced_witness :
  replaceRandomPlaceholders exampleLib mixedLeaf exampleSource
  = Some (VInt 5557, afterDraw (afterRange exampleSource)).
Proof.
  apply (mixed_leaf_is_coerced exampleLib exampleSource).
  - vm_compute. reflexivity.
  - vm_compute. tauto.
Defined.

(** A leaf that is exactly one numeric token becomes a number, and a leaf
    that is one token of another kind can become one too. *)
Example single_tokens :
  (exists src', replaceRandomPlaceholders exampleLib "{{random.int(5,5)}}" exampleSource
                = Some (VInt 5, src'))
  /\ (exists src', replaceRandomPlaceholders exampleLib "{{random.choice(7)}}" exampleSource
                   = Some (VInt 7, src')).
Proof. split; eexists; vm_compute; reflexivity. Qed.

(** * Further properties of the code *)

(** ** The dispatcher: bounds, histogram, shutdown *)

Lemma filter_count_insert (f : WorkerPC -> bool) ws i w0 w :
  ws !! i = Some w0 ->
  Z.of_nat (List.length (List.filter f (<[i := w]> ws)))
  = Z.of_nat (List.length (List.filter f ws))
    - (if f w0 then 1 else 0) + (if f w then 1 else 0).
Proof.
  revert i. induction ws as [|x ws IH]; intros [|i] H; simpl in *; try discriminate.
  - injection H as ->. destruct (f w0), (f w); simpl; lia.
  - specialize (IH _ H). destruct (f x); simpl; lia.
Qed.

Lemma filter_count_app (f : WorkerPC -> bool) ws w :
  Z.of_nat (List.length (List.filter f (ws ++ [w])))
  = Z.of_nat (List.length (List.filter f ws)) + (if f w then 1 else 0).
Proof.
  rewrite List.filter_app, length_app. simpl. destruct (f w); simpl; lia.
Qed.

Lemma inTransit_le_inFlight ws : inTransit ws <= inFlight ws.
Proof.
  unfold inTransit, inFlight. induction ws as [|w ws IH]; simpl; [lia|].
  destruct w; simpl; lia.
Qed.

Section DispatcherBounds.

Variable lib : GoLib.
Variable json_Marshal : string -> option (list (string * Value)) -> option string.
Variable json_Unmarshal : string -> GraphQLResponse * option string.
Variable config : Config.

Local Abbreviation step := (step lib json_Marshal json_Unmarshal config).
Local Abbreviation reachable := (reachable lib json_Marshal json_Unmarshal config).
Local Abbreviation steps := (steps lib json_Marshal json_Unmarshal config).

Lemma inFlight_step s a s' :
  step s a s' ->
  inFlight (workers s) <= Z.max 0 (semaphore s) ->
  inFlight (workers s') <= Z.max 0 (semaphore s') /\ semaphore s' = semaphore s.
Proof.
  intros Hstep Hle. unfold inFlight in *.
  inversion Hstep; subst; simpl; try (split; [exact Hle | reflexivity]);
    try (rewrite (filter_count_insert holdsSlot _ _ _ _ H0); simpl; split; [lia | reflexivity]).
  - rewrite filter_count_app. simpl. split; [lia | reflexivity].
  - rewrite (filter_count_insert holdsSlot _ _ _ _ H0). simpl.
    unfold inFlight in H1. split; [lia | reflexivity].
Qed.

(** The concurrency bound: in every state of a run the number of workers
    that hold a slot, and so the number of requests inside the transport,
    is at most the configured concurrency. *)
Theorem concurrency_bound (s : Run) :
  reachable s ->
  inFlight (workers s) <= Z.max 0 (Concurrency config)
  /\ inTransit (workers s) <= Z.max 0 (Concurrency config).
Proof.
  intros Hreach.
  assert (H : inFlight (workers s) <= Z.max 0 (semaphore s)
              /\ semaphore s = Concurrency config).
  { induction Hreach as [|s a s' _ [IH1 IH2] Hstep].
    - split; [unfold inFlight; simpl; lia | reflexivity].
    - destruct (inFlight_step s a s' Hstep IH1) as [H1 H2].
      split; [exact H1 | congruence]. }
  destruct H as [H1 H2]. rewrite H2 in H1.
  split; [exact H1|]. pose proof (inTransit_le_inFlight (workers s)). lia.
Qed.

Lemma histogramTotal_increment code m :
  histogramTotal (increment code m) = histogramTotal m + 1.
Proof.
  unfold histogramTotal, increment.
  destruct (m !! code) as [n|] eqn:E; simpl.
  - rewrite <- (insert_delete_eq m code (n + 1)).
    rewrite map_fold_insert_L; [| intros; lia | apply lookup_delete_eq].
    rewrite (map_fold_delete_L _ _ code n m); [lia | intros; lia | exact E].
  - rewrite map_fold_insert_L; [lia | intros; lia | exact E].
Qed.

Lemma counts_grow s a s' code :
  step s a s' ->
  default 0 (statusCodes s !! code) <= default 0 (statusCodes s' !! code).
Proof.
  intros Hstep. inversion Hstep; subst; simpl; try lia.
  unfold increment. destruct (decide (StatusCode result = code)) as [-> | Hne].
  - rewrite lookup_insert_eq. simpl. lia.
  - rewrite lookup_insert_ne by exact Hne. lia.
Qed.

(** The histogram counts every recorded outcome once: in every state the
    counts of the map add up to the two counters, and none of them ever
    goes down.  A [TestResults] holds the map itself: read through the
    result that [runLoadTest] returns the counts add up to the total the
    result reports; read through a result published earlier, as the signal
    handler reads it without the mutex, they add up to at least the total
    the result reports. *)
Theorem histogram_consistent (s : Run) :
  reachable s ->
  histogramTotal (statusCodes s) = successCount s + failedCount s
  /\ (forall r, loop s = Returned r ->
        histogramTotal (histogramOf s (StatusCodes r)) = TotalRequests r)
  /\ (forall r, testResults s = Some r \/ handler s = Printing r \/ handler s = Saving r ->
        TotalRequests r <= histogramTotal (histogramOf s (StatusCodes r)))
  /\ (forall s' code, steps s s' ->
        default 0 (statusCodes s !! code) <= default 0 (statusCodes s' !! code)).
Proof.
  intros Hreach.
  assert (H : histogramTotal (statusCodes s) = successCount s + failedCount s).
  { induction Hreach as [|s a s' _ IH Hstep]; [reflexivity|].
    inversion Hstep; subst; simpl; try exact IH.
    rewrite histogramTotal_increment. destruct (Success result); lia. }
  split; [exact H|].
  destruct (reachable_invariant lib json_Marshal json_Unmarshal config s Hreach)
    as [_ _ _ _ _ Hpub Hheld Hret].
  split; [|split].
  - intros r Hr. destruct (Hret r Hr) as [-> _]. simpl. exact H.
  - intros r [Hr | Hr].
    + rewrite (Hpub r Hr). simpl. lia.
    + destruct (Hheld r Hr) as (a & b & -> & Ha & Hb). simpl. lia.
  - intros s' code Hsteps. clear H Hpub Hheld Hret Hreach.
    induction Hsteps as [s0 | s0 a s1 s2 Hstep _ IH]; [lia|].
    pose proof (counts_grow _ _ _ code Hstep). lia.
Qed.

Lemma flag_stays_set s a s' :
  step s a s' -> gracefulShutdown s = true -> gracefulShutdown s' = true.
Proof. intros Hstep Hflag. inversion Hstep; subst; simpl; auto. Qed.

Lemma no_admission_after_flag s a s' :
  step s a s' -> gracefulShutdown s = true ->
  Z.of_nat (List.length (workers s')) + admitted s'
  <= Z.of_nat (List.length (workers s)) + admitted s.
Proof.
  intros Hstep Hflag. unfold admitted.
  inversion Hstep; subst; simpl; rewrite ?length_insert, ?length_app; simpl;
    try match goal with H : loop _ = _ |- _ => rewrite H end;
    try congruence; try lia.
  all: destruct (loop s); lia.
Qed.

(** Once the shutdown flag is set it stays set, and at most one more worker
    is spawned: the one of an iteration that had passed the check at the
    head of the loop before the flag was set. *)
Theorem at_most_one_worker_after_signal (s s' : Run) :
  steps s s' ->
  gracefulShutdown s = true ->
  gracefulShutdown s' = true
  /\ Z.of_nat (List.length (workers s')) + admitted s'
     <= Z.of_nat (List.length (workers s)) + admitted s
  /\ (List.length (workers s') <= List.length (workers s) + 1)%nat.
Proof.
  intros Hsteps Hflag.
  assert (H : gracefulShutdown s' = true
              /\ Z.of_nat (List.length (workers s')) + admitted s'
                 <= Z.of_nat (List.length (workers s)) + admitted s).
  { induction Hsteps as [s | s a s1 s2 Hstep _ IH]; [split; [exact Hflag | lia]|].
    destruct (IH (flag_stays_set _ _ _ Hstep Hflag)) as [IH1 IH2].
    pose proof (no_admission_after_flag _ _ _ Hstep Hflag). split; [exact IH1 | lia]. }
  destruct H as [H1 H2]. split; [exact H1|]. split; [exact H2|].
  assert (0 <= admitted s' /\ admitted s <= 1)
    by (unfold admitted; destruct (loop s), (loop s'); lia).
  lia.
Qed.

Lemma undisturbed_loop s :
  reachable s ->
  TargetRPS config <= 0 ->
  gracefulShutdown s = false ->
  loop s <> AtLimiterWait /\ (loopLeft s -> TotalReqs config <= requestCount s).
Proof.
  intros Hreach Hrate. induction Hreach as [|s a s' Hreach IH Hstep]; intros Hflag.
  - split; [discriminate|]. intros [H | [r H]]; discriminate.
  - assert (Hflag0 : gracefulShutdown s = false).
    { destruct (gracefulShutdown s) eqn:E; [|reflexivity].
      rewrite (flag_stays_set _ _ _ Hstep E) in Hflag. discriminate. }
    destruct (IH Hflag0) as [IH1 IH2]. unfold loopLeft in *.
    inversion Hstep; subst; simpl in *; try congruence;
      try solve [split; [assumption | exact IH2]];
      try solve [split; [discriminate | intros _; assumption]];
      try solve [split; [discriminate | intros _; apply IH2; left; assumption]];
      try solve [split; [discriminate | intros [? | [? ?]]; discriminate]].
    destruct (Z.ltb_spec 0 (TargetRPS config)); [lia|].
    split; [discriminate | intros [? | [? ?]]; discriminate].
Qed.

(** Without a rate limit and as long as no shutdown has been signalled, the
    loop leaves the [for] statement only after it has spawned one worker per
    configured request. *)
Theorem spawns_every_request (s : Run) :
  reachable s ->
  TargetRPS config <= 0 ->
  gracefulShutdown s = false ->
  loopLeft s ->
  Z.of_nat (List.length (workers s)) = Z.max 0 (TotalReqs config).
Proof.
  intros Hreach Hrate Hflag Hleft.
  destruct (undisturbed_loop s Hreach Hrate Hflag) as [_ Hge]. specialize (Hge Hleft).
  destruct (reachable_invariant lib json_Marshal json_Unmarshal config s Hreach)
    as [_ Hcnt Hbnd _ _ _ _ _].
  rewrite <- Hcnt. destruct Hleft as [Hl | [r Hl]]; rewrite Hl in Hbnd; lia.
Qed.

Lemma all_acquiring_lookup ws i w :
  forallb isAcquiring ws = true -> ws !! i = Some w -> w = Acquiring.
Proof.
  intros Hall Hi. rewrite forallb_forall in Hall.
  apply list_elem_of_lookup_2, list_elem_of_In in Hi. apply Hall in Hi.
  destruct w; try discriminate. reflexivity.
Qed.

Lemma all_acquiring_inFlight ws : forallb isAcquiring ws = true -> inFlight ws = 0.
Proof.
  unfold inFlight. induction ws as [|w ws IH]; simpl; [reflexivity|].
  intros H. apply andb_prop in H as [Hw Hws]. destruct w; try discriminate.
  simpl. exact (IH Hws).
Qed.

(** With a concurrency of 0 the semaphore is an unbuffered channel that
    nobody receives from: every worker stays at the acquisition of its
    slot, nothing is ever recorded or published, and [runLoadTest] returns
    only when it has spawned no worker at all. *)
Theorem zero_concurrency_blocks (s : Run) :
  reachable s ->
  Concurrency config = 0 ->
  forallb isAcquiring (workers s) = true
  /\ successCount s = 0 /\ failedCount s = 0 /\ testResults s = None
  /\ (forall r, loop s = Returned r -> workers s = [] /\ TotalRequests r = 0).
Proof.
  intros Hreach Hzero.
  assert (H : forallb isAcquiring (workers s) = true
              /\ successCount s = 0 /\ failedCount s = 0 /\ testResults s = None).
  { induction Hreach as [|s a s' Hreach (IH1 & IH2 & IH3 & IH4) Hstep];
      [repeat split|].
    pose proof (reachable_invariant lib json_Marshal json_Unmarshal config s Hreach)
      as [Hsem _ _ _ _ _ _ Hret].
    inversion Hstep; subst; simpl; try (repeat split; assumption);
      try congruence;
      try (pose proof (all_acquiring_lookup _ _ _ IH1 H0); discriminate).
    - rewrite forallb_app, IH1. repeat split; assumption.
    - rewrite (all_acquiring_inFlight _ IH1) in H1. lia.
    - destruct (Hret _ H1) as [_ Hall].
      exfalso. exact (unfinished_not_all _ _ _ H0 eq_refl Hall). }
  destruct H as (H1 & H2 & H3 & H4). repeat split; try assumption.
  - destruct (reachable_invariant lib json_Marshal json_Unmarshal config s Hreach)
      as [_ _ _ _ _ _ _ Hret].
    destruct (Hret r H) as [_ Hall].
    destruct (workers s) as [|w ws]; [reflexivity|].
    simpl in H1, Hall. apply andb_prop in H1 as [Hw _]. apply andb_prop in Hall as [Hf _].
    destruct w; discriminate.
  - destruct (reachable_invariant lib json_Marshal json_Unmarshal config s Hreach)
      as [_ _ _ _ _ _ _ Hret].
    destruct (Hret r H) as [-> _]. simpl. lia.
Qed.

End DispatcherBounds.

Lemma concurrency_bound_witness :
  inFlight (workers recordedRun) <= Z.max 0 (Concurrency config_two)
  /\ inTransit (workers recordedRun) <= Z.max 0 (Concurrency config_two).
Proof.
  apply (concurrency_bound exampleLib queryOnlyEncoder noErrorsDecoder config_two recordedRun).
  exact recordedRun_reachable.
Defined.

Lemma staleRun_reachable :
  reachable exampleLib queryOnlyEncoder noErrorsDecoder config_two staleRun.
Proof.
  unfold staleRun.
  eapply reachable_step; [|apply worker_record; reflexivity].
  eapply reachable_step;
    [|apply (worker_result _ _ _ _ _ 1%nat "{query:query { ok }}" "Bearer x"
               (HTTPResponse 200 "{}" None 50));
      reflexivity].
  eapply reachable_step;
    [|apply (worker_send _ _ _ _ _ 1%nat exampleSource (afterRange exampleSource));
      reflexivity].
  eapply reachable_step; [|apply (handler_print _ _ _ _ _ (snapshot 1 0)); reflexivity].
  eapply reachable_step; [|apply handler_signal; reflexivity].
  eapply reachable_step; [|apply (worker_proceed _ _ _ _ _ 1%nat); reflexivity].
  eapply reachable_step; [|apply (worker_acquire _ _ _ _ _ 1%nat); reflexivity].
  eapply reachable_step; [|apply loop_spawn; reflexivity].
  eapply reachable_step;
    [|apply (loop_admit exampleLib queryOnlyEncoder noErrorsDecoder config_two recordedRun);
      reflexivity].
  exact recordedRun_reachable.
Qed.

Lemma histogram_consistent_witness :
  histogramTotal (statusCodes staleRun) = successCount staleRun + failedCount staleRun
  /\ (forall r, loop staleRun = Returned r ->
        histogramTotal (histogramOf staleRun (StatusCodes r)) = TotalRequests r)
  /\ (forall r, testResults staleRun = Some r
                \/ handler staleRun = Printing r \/ handler staleRun = Saving r ->
        TotalRequests r <= histogramTotal (histogramOf staleRun (StatusCodes r)))
  /\ (forall s' code,
        steps exampleLib queryOnlyEncoder noErrorsDecoder config_two staleRun s' ->
        default 0 (statusCodes staleRun !! code) <= default 0 (statusCodes s' !! code)).
Proof.
  apply (histogram_consistent exampleLib queryOnlyEncoder noErrorsDecoder config_two
           staleRun).
  exact staleRun_reachable.
Defined.

(** The result that the handler prints in [staleRun] reports one request,
    and the map it prints with it counts two. *)
Example stale_result_undercounts :
  handler staleRun = Printing (snapshot 1 0)
  /\ TotalRequests (snapshot 1 0) = 1
  /\ histogramTotal (histogramOf staleRun (StatusCodes (snapshot 1 0))) = 2.
Proof. repeat split. Qed.

Lemma at_most_one_worker_after_signal_witness :
  gracefulShutdown (spawn signalledAfterCheck) = true
  /\ Z.of_nat (List.length (workers (spawn signalledAfterCheck)))
     + admitted (spawn signalledAfterCheck)
     <= Z.of_nat (List.length (workers signalledAfterCheck)) + admitted signalledAfterCheck
  /\ (List.length (workers (spawn signalledAfterCheck))
      <= List.length (workers signalledAfterCheck) + 1)%nat.
Proof.
  apply (at_most_one_worker_after_signal exampleLib queryOnlyEncoder noErrorsDecoder
           config_two signalledAfterCheck (spawn signalledAfterCheck)).
  - eapply steps_step; [apply loop_spawn; reflexivity | apply steps_refl].
  - reflexivity.
Defined.

Lemma spawnedAll_reachable :
  reachable exampleLib queryOnlyEncoder noErrorsDecoder config_two spawnedAll.
Proof.
  unfold spawnedAll.
  eapply reachable_step; [|apply loop_end; [reflexivity | reflexivity | vm_compute; discriminate]].
  eapply reachable_step; [|apply loop_spawn; reflexivity].
  eapply reachable_step; [|apply loop_admit; reflexivity].
  eapply reachable_step; [|apply loop_spawn; reflexivity].
  apply reachable_admitted; vm_compute; congruence.
Qed.

Lemma spawns_every_request_witness :
  Z.of_nat (List.length (workers spawnedAll)) = Z.max 0 (TotalReqs config_two).
Proof.
  apply (spawns_every_request exampleLib queryOnlyEncoder noErrorsDecoder config_two
           spawnedAll).
  - exact spawnedAll_reachable.
  - vm_compute. discriminate.
  - reflexivity.
  - left. reflexivity.
Defined.

Lemma blockedRun_reachable :
  reachable exampleLib queryOnlyEncoder noErrorsDecoder config_zero blockedRun.
Proof.
  unfold blockedRun.
  eapply reachable_step; [|apply loop_spawn; reflexivity].
  apply reachable_admitted; vm_compute; congruence.
Qed.

Lemma zero_concurrency_blocks_witness :
  forallb isAcquiring (workers blockedRun) = true
  /\ successCount blockedRun = 0 /\ failedCount blockedRun = 0
  /\ testResults blockedRun = None
  /\ (forall r, loop blockedRun = Returned r ->
        workers blockedRun = [] /\ TotalRequests r = 0).
Proof.
  apply (zero_concurrency_blocks exampleLib queryOnlyEncoder noErrorsDecoder config_zero
           blockedRun).
  - exact blockedRun_reachable.
  - reflexivity.
Defined.

(** ** The log sink: shutdown *)

Lemma drain_rows q w :
  werr w = None ->
  csv_Flush (drain q w None) None
  = mkWriter (rows w ++ map entryRow q)%list
             (List.length (rows w ++ map entryRow q)%list) None.
Proof.
  revert w. induction q as [|entry q IH]; intros w Hw.
  - cbn [drain map]. unfold csv_Flush. rewrite Hw, app_nil_r. reflexivity.
  - cbn [drain map]. unfold csv_Write at 1. rewrite Hw. cbn [fst].
    unfold csv_Flush at 2. cbn [werr rows].
    rewrite IH by reflexivity. cbn [rows]. rewrite <- !app_assoc. reflexivity.
Qed.

Lemma running_logFile al :
  running al -> enabled al = true -> exists path, logFile al = Some path.
Proof.
  induction 1 as [en path create al Hnew | al al' err Hrun IH Hstart
                 | al entry al' Hrun IH Hlog | al io al' Hrun IH Hw]; intros Hen.
  - unfold NewAsyncLogger in Hnew. destruct en; simpl in Hnew.
    + destruct create; [discriminate|]. injection Hnew as <-. eauto.
    + injection Hnew as <-. discriminate.
  - unfold Start in Hstart.
    destruct (negb (enabled al) || started al); [injection Hstart as <- <-; auto|].
    destruct (csvWriter al) as [w|]; [|discriminate].
    destruct (csv_Write w csvHeader) as [w' [e|]]; injection Hstart as <- <-; auto.
  - unfold Log in Hlog.
    destruct (negb (enabled al) || negb (started al)); [injection Hlog as <-; auto|].
    destruct (trySend (logChannel al) entry); [|discriminate].
    injection Hlog as <-. auto.
  - unfold logWorkerStep in Hw.
    destruct (logChannel al) as [c|]; [|discriminate].
    destruct (csvWriter al) as [w|]; [|discriminate].
    destruct (queue c); [discriminate|]. injection Hw as <-. auto.
Qed.

Lemma runLog_rows events : forall lf w q,
  werr w = None ->
  exists w' q',
    runLog None events
      (mkAsyncLogger true lf (Some w) (Some (mkChannel q 1000 false)) 1 true)
    = Returns (mkAsyncLogger true lf (Some w') (Some (mkChannel q' 1000 false)) 1 true)
    /\ werr w' = None
    /\ (rows w' ++ map entryRow q')%list
       = (rows w ++ map entryRow (q ++ accepted events (List.length q)))%list.
Proof.
  induction events as [|[entry|] events IH]; intros lf w q Hw.
  - exists w, q. cbn [runLog accepted]. rewrite app_nil_r. auto.
  - cbn [runLog accepted]. unfold Log, trySend.
    cbn [enabled started logChannel closed capacity queue negb orb logFile csvWriter
         waitGroup].
    destruct (Nat.ltb_spec (List.length q) 1000) as [Hlt | Hge].
    + destruct (IH lf w (q ++ [entry])%list Hw) as (w' & q' & Hrun & Hw' & Hrows).
      exists w', q'. split; [exact Hrun|]. split; [exact Hw'|].
      rewrite Hrows, length_app, <- app_assoc. cbn [List.length app].
      replace (List.length q + 1)%nat with (S (List.length q)) by lia. reflexivity.
    + destruct (IH lf w q Hw) as (w' & q' & Hrun & Hw' & Hrows).
      exists w', q'. split; [destruct q; exact Hrun | auto].
  - cbn [runLog accepted]. unfold logWorkerStep.
    cbn [enabled started logChannel closed capacity queue logFile csvWriter waitGroup].
    destruct q as [|entry q].
    + destruct (IH lf w [] Hw) as (w' & q' & Hrun & Hw' & Hrows).
      exists w', q'. auto.
    + unfold csv_Write. rewrite Hw. cbn [fst]. unfold csv_Flush. cbn [werr rows].
      destruct (IH lf (mkWriter (rows w ++ [entryRow entry])
                         (List.length (rows w ++ [entryRow entry])) None) q eq_refl)
        as (w' & q' & Hrun & Hw' & Hrows).
      exists w', q'. split; [exact Hrun|]. split; [exact Hw'|].
      rewrite Hrows. cbn [rows List.length Nat.pred map app].
      rewrite <- app_assoc. reflexivity.
Qed.

(** Entries are written in the order in which they were accepted, and none
    that was accepted is lost at shutdown, whatever the interleaving of the
    calls of [Log] with the iterations of [logWorker]: when a started
    logger with the entries [queue c] waiting goes through a schedule of
    events and is then stopped, with no write failing, the file holds the
    rows it held, then the rows of [queue c], then the rows of the entries
    that the schedule offered while fewer than 1000 were waiting, all
    flushed.  The other entries offered were dropped. *)
Theorem accepted_entries_are_written (al : AsyncLogger) (events : list LogEvent)
    (w : Writer) (c : Channel) :
  running al -> enabled al = true -> started al = true ->
  csvWriter al = Some w -> logChannel al = Some c -> werr w = None ->
  exists al1 al2,
    runLog None events al = Returns al1
    /\ Stop al1 None None = Returns (al2, None)
    /\ started al2 = false /\ waitGroup al2 = 0%nat
    /\ logChannel al2 = Some (mkChannel [] 1000 true)
    /\ csvWriter al2
       = Some (let written :=
                 (rows w ++ map entryRow
                              (queue c ++ accepted events (List.length (queue c))))%list in
               mkWriter written (List.length written) None).
Proof.
  intros Hrun Hen Hst Hw Hc Herr.
  destruct (running_invariant al Hrun Hen)
    as [_ [c0 (Hc0 & Hcap & Hcl & _ & _)] Hwg].
  rewrite Hc in Hc0. injection Hc0 as <-. rewrite Hst in Hwg.
  destruct (running_logFile al Hrun Hen) as [path Hpath].
  destruct al as [en lf cw lc wg st]. cbn in Hen, Hst, Hw, Hc, Hwg, Hpath. subst.
  destruct c as [q cap cl]. cbn in Hcap, Hcl. subst.
  destruct (runLog_rows events (Some path) w q Herr) as (w' & q' & Hlog & Hw' & Hrows).
  rewrite Hlog. eexists _, _. split; [reflexivity|].
  unfold Stop, closeChannel.
  cbn [enabled started logChannel closed capacity queue negb orb waitGroup Nat.eqb
       csvWriter logFile].
  rewrite drain_rows by exact Hw'. rewrite Hrows.
  repeat split.
Qed.

(** When [logFile.Close()] fails, [Stop] returns the error and leaves the
    logger marked as started although its channel is closed: the next [Log]
    panics (send on a closed channel), and so does the next [Stop]. *)
Theorem Stop_close_failure (al : AsyncLogger) (io : option string) (err : string) :
  running al -> enabled al = true -> started al = true ->
  exists al',
    Stop al io (Some err) = Returns (al', Some ("failed to close log file: " ++ err))
    /\ started al' = true
    /\ (forall entry, Log al' entry = Panics)
    /\ (forall io' closeErr, Stop al' io' closeErr = Panics).
Proof.
  intros Hrun Hen Hst.
  destruct (running_invariant al Hrun Hen)
    as [[w [Hw _]] [c (Hc & Hcap & Hcl & _ & _)] Hwg].
  rewrite Hst in Hwg.
  destruct (running_logFile al Hrun Hen) as [path Hpath].
  destruct al as [en lf cw lc wg st]. cbn in Hen, Hst, Hw, Hc, Hwg, Hpath. subst.
  destruct c as [q cap cl]. cbn in Hcap, Hcl. subst.
  eexists. split; [reflexivity|]. split; [reflexivity|]. split.
  - intros entry. reflexivity.
  - intros io' closeErr. reflexivity.
Qed.

(** After a [Stop] that succeeded the logger is inert: [Log] and a second
    [Stop] change nothing.  It cannot be used again: a [Start] that marks
    it started again leaves the channel closed, so the next [Log] panics. *)
Theorem stopped_logger_is_inert (al : AsyncLogger) (io : option string) :
  running al -> enabled al = true -> started al = true ->
  exists al',
    Stop al io None = Returns (al', None)
    /\ (forall entry, Log al' entry = Returns al')
    /\ (forall io' closeErr, Stop al' io' closeErr = Returns (al', None))
    /\ (forall al'' err entry,
          Start al' = Returns (al'', err) -> started al'' = true ->
          Log al'' entry = Panics).
Proof.
  intros Hrun Hen Hst.
  destruct (running_invariant al Hrun Hen)
    as [[w [Hw _]] [c (Hc & Hcap & Hcl & _ & _)] Hwg].
  rewrite Hst in Hwg.
  destruct (running_logFile al Hrun Hen) as [path Hpath].
  destruct al as [en lf cw lc wg st]. cbn in Hen, Hst, Hw, Hc, Hwg, Hpath. subst.
  destruct c as [q cap cl]. cbn in Hcap, Hcl. subst.
  eexists. split; [reflexivity|]. split; [|split].
  - intros entry. reflexivity.
  - intros io' closeErr. reflexivity.
  - intros al'' err entry HS Hstarted. unfold Start in HS.
    cbn [enabled started negb orb csvWriter logFile logChannel waitGroup queue
         capacity closed] in HS.
    destruct (csv_Write (csv_Flush (drain q w io) io) csvHeader) as [w' [e|]];
      injection HS as <- <-; [discriminate Hstarted | reflexivity].
Qed.

(** A logger that is not enabled never opens a file, and every operation
    returns it unchanged, without error. *)
Theorem disabled_logger_is_inert (path : string) (create : option string) :
  exists al,
    NewAsyncLogger false path create = (Some al, None)
    /\ logFile al = None /\ csvWriter al = None /\ logChannel al = None
    /\ Start al = Returns (al, None)
    /\ (forall entry, Log al entry = Returns al)
    /\ (forall now code request response,
          LogRequest al now code request response = Returns al)
    /\ (forall io closeErr, Stop al io closeErr = Returns (al, None)).
Proof.
  eexists. split; [reflexivity|]. repeat split.
Qed.

(** Two entries are offered to a logger with one entry waiting, the writer
    taking one entry in between. *)
Lemma accepted_entries_are_written_witness :
  exists al1 al2,
    runLog None [Offer exampleEntry; Consume; Offer exampleEntry]
      (loggerWithQueue [exampleEntry]) = Returns al1
    /\ Stop al1 None None = Returns (al2, None)
    /\ started al2 = false /\ waitGroup al2 = 0%nat
    /\ logChannel al2 = Some (mkChannel [] 1000 true)
    /\ csvWriter al2
       = Some (let written :=
                 (rows (mkWriter [csvHeader] 0 None)
                  ++ map entryRow
                       (queue (mkChannel [exampleEntry] 1000 false)
                        ++ accepted [Offer exampleEntry; Consume; Offer exampleEntry]
                             (List.length (queue (mkChannel [exampleEntry] 1000 false)))))%list in
               mkWriter written (List.length written) None).
Proof.
  apply (accepted_entries_are_written (loggerWithQueue [exampleEntry])
           [Offer exampleEntry; Consume; Offer exampleEntry] (mkWriter [csvHeader] 0 None)
           (mkChannel [exampleEntry] 1000 false)).
  - apply (loggerWithQueue_running 1). lia.
  - reflexivity.
  - reflexivity.
  - reflexivity.
  - reflexivity.
  - reflexivity.
Defined.

Lemma Stop_close_failure_witness :
  exists al',
    Stop (loggerWithQueue [exampleEntry]) None (Some "disk full")
    = Returns (al', Some ("failed to close log file: " ++ "disk full"))
    /\ started al' = true
    /\ (forall entry, Log al' entry = Panics)
    /\ (forall io' closeErr, Stop al' io' closeErr = Panics).
Proof.
  apply (Stop_close_failure (loggerWithQueue [exampleEntry]) None "disk full").
  - apply (loggerWithQueue_running 1). lia.
  - reflexivity.
  - reflexivity.
Defined.

Lemma stopped_logger_is_inert_witness :
  exists al',
    Stop (loggerWithQueue [exampleEntry]) None None = Returns (al', None)
    /\ (forall entry, Log al' entry = Returns al')
    /\ (forall io' closeErr, Stop al' io' closeErr = Returns (al', None))
    /\ (forall al'' err entry,
          Start al' = Returns (al'', err) -> started al'' = true ->
          Log al'' entry = Panics).
Proof.
  apply (stopped_logger_is_inert (loggerWithQueue [exampleEntry]) None).
  - apply (loggerWithQueue_running 1). lia.
  - reflexivity.
  - reflexivity.
Defined.

(** ** The configuration loader *)

Lemma nonempty_true s : nonempty s = true <-> s <> EmptyString.
Proof. destruct s; simpl; split; congruence. Qed.

Lemma never_at_limiter_without_rate lib json_Marshal json_Unmarshal config s :
  reachable lib json_Marshal json_Unmarshal config s ->
  TargetRPS config <= 0 -> loop s <> AtLimiterWait.
Proof.
  intros Hreach Hrate. induction Hreach as [|s a s' _ IH Hstep]; [discriminate|].
  inversion Hstep; subst; simpl; try assumption; try discriminate.
  destruct (Z.ltb_spec 0 (TargetRPS config)); [lia | discriminate].
Qed.

Section LoaderProperties.

Variable yaml_Unmarshal : string -> MutationConfig + string.

(** What every configuration that the loader returns satisfies: the URL,
    the query, the auth value and the auth header name are not empty, the
    concurrency and the request count are not 0 (they may be negative),
    and when logging is on a log file is named. *)
Theorem loaded_config_is_valid (file : string + string) (environment timestamp : string)
    (config : Config) :
  loadConfigFromFile yaml_Unmarshal file environment timestamp = inl config ->
  URL config <> EmptyString
  /\ Mutation config <> EmptyString
  /\ AuthValue config <> EmptyString
  /\ BaseAuthValue config = AuthValue config
  /\ AuthHeader config <> EmptyString
  /\ Concurrency config <> 0
  /\ TotalReqs config <> 0
  /\ (LogRequests config = true -> LogFile config <> EmptyString)
  /\ OutputDir config = "results/" ++ environment
  /\ ShowProgress config = true /\ SaveResults config = true.
Proof.
  unfold loadConfigFromFile. intros H.
  destruct file as [data|err]; [|discriminate].
  destruct (yaml_Unmarshal data) as [yc|err]; [|discriminate].
  destruct (Environments yc !! environment) as [ec|]; [|discriminate].
  destruct (nonempty (EnvURL ec)) eqn:Hurl; [|discriminate].
  destruct (nonempty (Query yc)) eqn:Hq; [|discriminate].
  destruct (nonempty (AuthHeaderValue ec)) eqn:Hv; [|discriminate].
  cbn [negb] in H. injection H as <-. cbn.
  apply nonempty_true in Hurl, Hq, Hv.
  repeat split; try assumption.
  - destruct (nonempty (AuthHeaderName ec)) eqn:Hh; [apply nonempty_true, Hh | discriminate].
  - destruct (Z.eqb_spec (LoadConcurrency yc) 0); [discriminate | assumption].
  - destruct (Z.eqb_spec (LoadRequests yc) 0); [discriminate | assumption].
  - intros ->. cbn [andb].
    destruct (nonempty (LoggingLogFile yc)) eqn:Hl; cbn [negb];
      [apply nonempty_true, Hl | discriminate].
Qed.

(** The loader never copies the [rps], [duration_seconds] and [headers]
    settings of the file: a loaded configuration has no target rate, so
    [runLoadTest] derives no concurrency for it and its loop never waits
    on a rate limiter. *)
Theorem loaded_config_has_no_rate (file : string + string)
    (environment timestamp : string) (config : Config) :
  loadConfigFromFile yaml_Unmarshal file environment timestamp = inl config ->
  TargetRPS config = 0 /\ DurationSec config = 0 /\ Headers config = []
  /\ deriveConcurrency config = config
  /\ forall lib json_Marshal json_Unmarshal s,
       reachable lib json_Marshal json_Unmarshal (deriveConcurrency config) s ->
       loop s <> AtLimiterWait.
Proof.
  unfold loadConfigFromFile. intros H.
  destruct file as [data|err]; [|discriminate].
  destruct (yaml_Unmarshal data) as [yc|err]; [|discriminate].
  destruct (Environments yc !! environment) as [ec|]; [|discriminate].
  destruct (negb (nonempty (EnvURL ec))); [discriminate|].
  destruct (negb (nonempty (Query yc))); [discriminate|].
  destruct (negb (nonempty (AuthHeaderValue ec))); [discriminate|].
  injection H as <-.
  split; [reflexivity|]. split; [reflexivity|]. split; [reflexivity|].
  split; [reflexivity|].
  intros lib json_Marshal json_Unmarshal s Hs.
  apply (never_at_limiter_without_rate _ _ _ _ s Hs). cbn. lia.
Qed.

(** The loader succeeds exactly when the file can be read and decoded, the
    environment is one of the file's, and the URL, the query and the auth
    value are not empty. *)
Theorem loadConfigFromFile_succeeds_iff (file : string + string)
    (environment timestamp : string) :
  (exists config,
      loadConfigFromFile yaml_Unmarshal file environment timestamp = inl config)
  <-> exists data yamlConfig envConfig,
        file = inl data
        /\ yaml_Unmarshal data = inl yamlConfig
        /\ Environments yamlConfig !! environment = Some envConfig
        /\ EnvURL envConfig <> EmptyString
        /\ Query yamlConfig <> EmptyString
        /\ AuthHeaderValue envConfig <> EmptyString.
Proof.
  unfold loadConfigFromFile. split.
  - intros [config H].
    destruct file as [data|err]; [|discriminate].
    destruct (yaml_Unmarshal data) as [yc|err] eqn:Hy; [|discriminate].
    destruct (Environments yc !! environment) as [ec|] eqn:He; [|discriminate].
    destruct (nonempty (EnvURL ec)) eqn:Hurl; [|discriminate].
    destruct (nonempty (Query yc)) eqn:Hq; [|discriminate].
    destruct (nonempty (AuthHeaderValue ec)) eqn:Hv; [|discriminate].
    exists data, yc, ec. rewrite <- !nonempty_true. auto 10.
  - intros (data & yc & ec & -> & Hy & He & Hurl & Hq & Hv).
    rewrite Hy, He. apply nonempty_true in Hurl, Hq, Hv. rewrite Hurl, Hq, Hv.
    eexists. reflexivity.
Qed.

End LoaderProperties.

Lemma exampleLoadedConfig_loaded :
  loadConfigFromFile exampleYamlDecoder (inl "name: create user") "dev" "20240501_100000"
  = inl exampleLoadedConfig.
Proof. vm_compute. reflexivity. Qed.

Lemma loaded_config_is_valid_witness :
  URL exampleLoadedConfig <> EmptyString
  /\ Mutation exampleLoadedConfig <> EmptyString
  /\ AuthValue exampleLoadedConfig <> EmptyString
  /\ BaseAuthValue exampleLoadedConfig = AuthValue exampleLoadedConfig
  /\ AuthHeader exampleLoadedConfig <> EmptyString
  /\ Concurrency exampleLoadedConfig <> 0
  /\ TotalReqs exampleLoadedConfig <> 0
  /\ (LogRequests exampleLoadedConfig = true -> LogFile exampleLoadedConfig <> EmptyString)
  /\ OutputDir exampleLoadedConfig = "results/" ++ "dev"
  /\ ShowProgress exampleLoadedConfig = true /\ SaveResults exampleLoadedConfig = true.
Proof.
  apply (loaded_config_is_valid exampleYamlDecoder (inl "name: create user") "dev"
           "20240501_100000" exampleLoadedConfig).
  exact exampleLoadedConfig_loaded.
Defined.

Lemma loaded_config_has_no_rate_witness :
  TargetRPS exampleLoadedConfig = 0 /\ DurationSec exampleLoadedConfig = 0
  /\ Headers exampleLoadedConfig = []
  /\ deriveConcurrency exampleLoadedConfig = exampleLoadedConfig
  /\ forall lib json_Marshal json_Unmarshal s,
       reachable lib json_Marshal json_Unmarshal (deriveConcurrency exampleLoadedConfig) s ->
       loop s <> AtLimiterWait.
Proof.
  apply (loaded_config_has_no_rate exampleYamlDecoder (inl "name: create user") "dev"
           "20240501_100000" exampleLoadedConfig).
  exact exampleLoadedConfig_loaded.
Defined.

(** ** The generators *)

Lemma mod_range_nat d n : (0 < n)%nat -> (Z.to_nat (d mod Z.of_nat n) < n)%nat.
Proof. intros Hn. pose proof (Z.mod_pos_bound d (Z.of_nat n)). lia. Qed.

Lemma byte_at_charset i :
  0 <= i < Z.of_nat (String.length charset) -> in_charset (byte_at charset i) = true.
Proof.
  intros Hi.
  assert (Hall : forallb (fun n => in_charset (byte_at charset (Z.of_nat n)))
                         (seq 0 (String.length charset)) = true) by (vm_compute; reflexivity).
  rewrite forallb_forall in Hall.
  rewrite <- (Z2Nat.id i) by lia. apply Hall, in_seq. lia.
Qed.

Lemma afterDraws_S n src : afterDraws n (afterDraw src) = afterDraws (S n) src.
Proof. unfold afterDraws, afterDraw. cbn. f_equal. lia. Qed.

Lemma fillFromCharset_spec n src :
  exists b,
    fillFromCharset n src = Some (b, afterDraws n src)
    /\ String.length b = n /\ all_bytes in_charset b = true.
Proof.
  revert src. induction n as [|n IH]; intros src; cbn [fillFromCharset].
  - exists EmptyString. destruct src. repeat split.
  - destruct (rand_Intn_returns (Z.of_nat (String.length charset)) src) as [r Hr];
      [reflexivity|].
    assert (Hrange : 0 <= r < Z.of_nat (String.length charset)).
    { unfold rand_Intn in Hr. cbn [Z.leb Z.compare String.length Z.of_nat
                                      Pos.of_succ_nat Pos.succ] in Hr.
      unfold bind, next_draw, ret in Hr. injection Hr as <-.
      apply Z.mod_pos_bound. reflexivity. }
    destruct (IH (afterDraw src)) as (b & Hb & Hlen & Hall).
    exists (String (byte_at charset r) b).
    rewrite (bind_returns _ _ _ _ _ Hr), (bind_returns _ _ _ _ _ Hb).
    rewrite afterDraws_S. cbn [String.length all_bytes].
    rewrite Hlen, Hall, (byte_at_charset r Hrange). repeat split.
Qed.

(** [generateRandomString] returns a string of exactly the requested
    length, every byte of which is one of the 62 letters and digits of the
    charset, and draws one value per byte, when the runtime can allocate a
    slice of that length; when it cannot, the call panics.  The length is
    never negative on a match of the pattern. *)
Theorem generateRandomString_length (lib : GoLib) (m : list string) (src : Source) :
  0 <= stringLength m ->
  (stringLength m <= makeslice_limit lib ->
   exists b,
     generateRandomString lib m src
     = Some (VString b, afterDraws (Z.to_nat (stringLength m)) src)
     /\ Z.of_nat (String.length b) = stringLength m
     /\ all_bytes in_charset b = true)
  /\ (makeslice_limit lib < stringLength m -> generateRandomString lib m src = None).
Proof.
  intros Hlen. unfold generateRandomString. fold (stringLength m).
  destruct (Z.ltb_spec (stringLength m) 0) as [Hlt|_]; [lia|]. cbn [orb].
  destruct (Z.ltb_spec (makeslice_limit lib) (stringLength m)) as [Hbig|Hfit].
  - split; [lia | reflexivity].
  - split; [intros _ | lia].
    destruct (fillFromCharset_spec (Z.to_nat (stringLength m)) src) as (b & Hb & Hl & Hall).
    exists b. rewrite (bind_returns _ _ _ _ _ Hb). rewrite Hl.
    split; [reflexivity|]. split; [lia | exact Hall].
Qed.

Lemma generateRandomString_length_witness :
  (stringLength ["{{random.string(5)}}"; "5"] <= makeslice_limit exampleLib ->
   exists b,
     generateRandomString exampleLib ["{{random.string(5)}}"; "5"] exampleSource
     = Some (VString b,
             afterDraws (Z.to_nat (stringLength ["{{random.string(5)}}"; "5"])) exampleSource)
     /\ Z.of_nat (String.length b) = stringLength ["{{random.string(5)}}"; "5"]
     /\ all_bytes in_charset b = true)
  /\ (makeslice_limit exampleLib < stringLength ["{{random.string(5)}}"; "5"] ->
      generateRandomString exampleLib ["{{random.string(5)}}"; "5"] exampleSource = None).
Proof.
  apply (generateRandomString_length exampleLib ["{{random.string(5)}}"; "5"] exampleSource).
  vm_compute. discriminate.
Defined.

(** The length [999999999999999999] is a match of [\d+] that [strconv.Atoi]
    reads, and more than the runtime allocates. *)
Example huge_string_panics (src : Source) :
  In ["{{random.string(999999999999999999)}}"; "999999999999999999"]
     (FindAllStringSubmatch (pattern KString) "{{random.string(999999999999999999)}}")
  /\ generateRandomString exampleLib
       ["{{random.string(999999999999999999)}}"; "999999999999999999"] src = None.
Proof. split; [left; reflexivity | reflexivity]. Qed.

Lemma wrap64_small z : minInt <= z <= maxInt -> wrap64 z = z.
Proof.
  unfold wrap64, minInt, maxInt. intros H.
  rewrite Z.mod_small; lia.
Qed.

(** [generateRandomNumber] on bounds as the pattern captures them (two
    numbers that fit in [int]): with [min <= max] it returns an integer
    between [min] and [max], both included, unless the range is all of the
    non-negative [int]s; with [max < min] it panics, and so it does on the
    range from 0 to the largest [int], whose size overflows. *)
Theorem generateRandomNumber_range (m : list string) (src : Source) :
  0 <= fst (numberRange m) <= maxInt ->
  0 <= snd (numberRange m) <= maxInt ->
  (fst (numberRange m) <= snd (numberRange m) ->
   snd (numberRange m) - fst (numberRange m) < maxInt ->
   exists r,
     generateRandomNumber m src = Some (VInt r, afterDraw src)
     /\ fst (numberRange m) <= r <= snd (numberRange m))
  /\ (snd (numberRange m) < fst (numberRange m) -> generateRandomNumber m src = None)
  /\ (fst (numberRange m) = 0 -> snd (numberRange m) = maxInt ->
      generateRandomNumber m src = None).
Proof.
  unfold generateRandomNumber. fold (numberRange m).
  destruct (numberRange m) as [min max]. cbn [fst snd]. intros Hmin Hmax.
  unfold maxInt in *. split; [|split].
  - intros Hle Hsize.
    rewrite (wrap64_small (max - min + 1)) by (unfold minInt, maxInt; lia).
    destruct (rand_Intn_returns (max - min + 1) src) as [r Hr]; [lia|].
    assert (Hrange : 0 <= r < max - min + 1).
    { unfold rand_Intn in Hr. destruct (Z.leb_spec (max - min + 1) 0); [lia|].
      unfold bind, next_draw, ret in Hr. injection Hr as <-.
      apply Z.mod_pos_bound. lia. }
    exists (r + min). rewrite (bind_returns _ _ _ _ _ Hr). unfold ret.
    rewrite (wrap64_small (r + min)) by (unfold minInt, maxInt; lia).
    split; [reflexivity | lia].
  - intros Hlt.
    rewrite (wrap64_small (max - min + 1)) by (unfold minInt, maxInt; lia).
    unfold bind, rand_Intn. destruct (Z.leb_spec (max - min + 1) 0); [reflexivity | lia].
  - intros -> ->. reflexivity.
Qed.

Lemma generateRandomNumber_range_witness :
  (fst (numberRange ["{{random.int(5,5)}}"; "5"; "5"])
   <= snd (numberRange ["{{random.int(5,5)}}"; "5"; "5"]) ->
   snd (numberRange ["{{random.int(5,5)}}"; "5"; "5"])
   - fst (numberRange ["{{random.int(5,5)}}"; "5"; "5"]) < maxInt ->
   exists r,
     generateRandomNumber ["{{random.int(5,5)}}"; "5"; "5"] exampleSource
     = Some (VInt r, afterDraw exampleSource)
     /\ fst (numberRange ["{{random.int(5,5)}}"; "5"; "5"]) <= r
        <= snd (numberRange ["{{random.int(5,5)}}"; "5"; "5"]))
  /\ (snd (numberRange ["{{random.int(5,5)}}"; "5"; "5"])
      < fst (numberRange ["{{random.int(5,5)}}"; "5"; "5"]) ->
      generateRandomNumber ["{{random.int(5,5)}}"; "5"; "5"] exampleSource = None)
  /\ (fst (numberRange ["{{random.int(5,5)}}"; "5"; "5"]) = 0 ->
      snd (numberRange ["{{random.int(5,5)}}"; "5"; "5"]) = maxInt ->
      generateRandomNumber ["{{random.int(5,5)}}"; "5"; "5"] exampleSource = None).
Proof.
  apply (generateRandomNumber_range ["{{random.int(5,5)}}"; "5"; "5"] exampleSource).
  - vm_compute. split; discriminate.
  - vm_compute. split; discriminate.
Defined.

(** [generateRandomChoice] on a match of the pattern returns one of the
    comma-separated options, trimmed of white space. *)
Theorem generateRandomChoice_member (m : list string) (src : Source) :
  (2 <= List.length m)%nat ->
  exists c,
    generateRandomChoice m src = Some (VString c, afterDraw src)
    /\ In c (map strings_TrimSpace (strings_Split_comma (group 1 m))).
Proof.
  intros Hlen. unfold generateRandomChoice.
  destruct (Nat.ltb_spec (List.length m) 2) as [Hlt|_]; [lia|].
  destruct (map strings_TrimSpace (strings_Split_comma (group 1 m))) as [|c cs] eqn:E.
  { destruct (group 1 m) as [|a s]; cbn in E; [discriminate|].
    destruct (Ascii.eqb a ","); [discriminate|].
    destruct (strings_Split_comma s); discriminate. }
  cbn [List.length Nat.eqb].
  destruct (rand_Intn_returns (Z.of_nat (S (List.length cs))) src) as [r Hr]; [lia|].
  assert (Hrange : 0 <= r < Z.of_nat (S (List.length cs))).
  { unfold rand_Intn in Hr. destruct (Z.leb_spec (Z.of_nat (S (List.length cs))) 0); [lia|].
    unfold bind, next_draw, ret in Hr. injection Hr as <-.
    apply Z.mod_pos_bound. lia. }
  exists (pick (c :: cs) r). rewrite (bind_returns _ _ _ _ _ Hr).
  split; [reflexivity|]. unfold pick. apply nth_In. cbn [List.length]. lia.
Qed.

Lemma generateRandomChoice_member_witness :
  exists c,
    generateRandomChoice ["{{random.choice(a, b)}}"; "a, b"] exampleSource
    = Some (VString c, afterDraw exampleSource)
    /\ In c (map strings_TrimSpace
               (strings_Split_comma (group 1 ["{{random.choice(a, b)}}"; "a, b"]))).
Proof.
  apply (generateRandomChoice_member ["{{random.choice(a, b)}}"; "a, b"] exampleSource).
  cbn. lia.
Defined.

Lemma rand_Read_spec n src :
  exists b, rand_Read n src = Some (b, afterDraws n src) /\ List.length b = n.
Proof.
  revert src. induction n as [|n IH]; intros src; cbn [rand_Read].
  - exists []. destruct src. split; reflexivity.
  - unfold bind, next_draw. fold (afterDraw src).
    destruct (IH (afterDraw src)) as (b & Hb & Hlen). rewrite Hb.
    rewrite afterDraws_S. eexists. split; [reflexivity|]. cbn. now rewrite Hlen.
Qed.

Lemma hex_digit_is_hex n : is_hex (hex_digit n) = true.
Proof.
  unfold hex_digit.
  generalize (Z.to_nat n). intros k.
  do 16 (destruct k as [|k]; [reflexivity|]). reflexivity.
Qed.

Lemma below_cases (P : Z -> Prop) (n : nat) :
  List.Forall (fun i => P (Z.of_nat i)) (seq 0 n) ->
  forall x, 0 <= x < Z.of_nat n -> P x.
Proof.
  intros Hall x Hx. rewrite List.Forall_forall in Hall.
  rewrite <- (Z2Nat.id x) by lia. apply Hall, in_seq. lia.
Qed.

Lemma version_nibble b : hex_digit (Z.lor (Z.land b 15) 64 / 16) = "4"%char.
Proof.
  change 15 with (Z.ones 4). rewrite Z.land_ones by lia.
  apply (below_cases (fun x => hex_digit (Z.lor x 64 / 16) = "4"%char) 16).
  - repeat constructor.
  - apply Z.mod_pos_bound. reflexivity.
Qed.

Lemma variant_nibble b :
  In (hex_digit (Z.lor (Z.land b 63) 128 / 16)) ["8"; "9"; "a"; "b"]%char.
Proof.
  change 63 with (Z.ones 6). rewrite Z.land_ones by lia.
  apply (below_cases
           (fun x => In (hex_digit (Z.lor x 128 / 16)) ["8"; "9"; "a"; "b"]%char) 64).
  - repeat (apply List.Forall_cons; [vm_compute; tauto|]). apply List.Forall_nil.
  - apply Z.mod_pos_bound. reflexivity.
Qed.

(** [generateRandomUUID] returns the text form of a version-4 UUID: 36
    bytes, hyphens at offsets 8, 13, 18 and 23 and lower-case hexadecimal
    digits elsewhere, the digit at offset 14 being 4 and the one at offset
    19 one of 8, 9, a, b.  It reads 16 bytes. *)
Theorem generateRandomUUID_format (m : list string) (src : Source) :
  exists u,
    generateRandomUUID m src = Some (VString u, afterDraws 16 src)
    /\ String.length u = 36%nat
    /\ (forall i, In i [8; 13; 18; 23]%nat -> String.get i u = Some "-"%char)
    /\ (forall i c, String.get i u = Some c -> ~ In i [8; 13; 18; 23]%nat -> is_hex c = true)
    /\ String.get 14 u = Some "4"%char
    /\ (exists c, String.get 19 u = Some c /\ In c ["8"; "9"; "a"; "b"]%char).
Proof.
  destruct (rand_Read_spec 16 src) as (b & Hb & Hlen).
  do 16 (destruct b as [|? b]; [discriminate Hlen|]).
  destruct b; [|discriminate Hlen].
  unfold generateRandomUUID. rewrite (bind_returns _ _ _ _ _ Hb).
  eexists. split; [reflexivity|].
  cbn [nth insert list_insert firstn skipn fmt_hex String.append String.length].
  split; [reflexivity|]. split; [|split; [|split]].
  - intros i [<-|[<-|[<-|[<-|[]]]]]; reflexivity.
  - intros i c Hget Hi.
    do 36 (destruct i as [|i];
           [cbn in Hget; first [ exfalso; apply Hi; cbn; tauto
                               | injection Hget as <-; apply hex_digit_is_hex ]|]).
    cbn in Hget. discriminate Hget.
  - cbv [String.append String.get]. f_equal. apply version_nibble.
  - cbv [String.append String.get]. eexists. split; [reflexivity|]. apply variant_nibble.
Qed.

(** ** Where the engine can panic *)

Lemma is_digit_val c : is_digit c = true -> 0 <= digit_val c <= 9.
Proof.
  unfold is_digit, digit_val. intros H. apply andb_true_iff in H as [H1 H2].
  apply Nat.leb_le in H1. apply Nat.leb_le in H2. lia.
Qed.

Lemma span_all f s : snd (span f s) = EmptyString -> fst (span f s) = s.
Proof.
  induction s as [|c s IH]; [reflexivity|]. cbn [span].
  destruct (f c); [|discriminate].
  destruct (span f s) as [a b]. cbn [fst snd] in *. intros H. now rewrite IH.
Qed.

Lemma span_idem f s : span f (fst (span f s)) = (fst (span f s), EmptyString).
Proof.
  induction s as [|c s IH]; [reflexivity|]. cbn [span].
  destruct (f c) eqn:Ec; [|reflexivity].
  destruct (span f s) as [a b]. cbn [fst snd] in *. cbn [span]. now rewrite Ec, IH.
Qed.

Lemma all_digits_span s :
  nonempty (fst (span is_digit s)) = true -> all_digits (fst (span is_digit s)) = true.
Proof.
  intros H. unfold all_digits. rewrite span_idem.
  destruct (fst (span is_digit s)); [discriminate H | reflexivity].
Qed.

Lemma all_digits_inv c s :
  all_digits (String c s) = true ->
  is_digit c = true /\ (s = EmptyString \/ all_digits s = true).
Proof.
  unfold all_digits. cbn [span]. destruct (is_digit c); [|discriminate].
  destruct (span is_digit s) as [a b] eqn:E. intros H. split; [reflexivity|].
  destruct b; [|discriminate H].
  assert (Ha : a = s) by (rewrite <- (span_all is_digit s); rewrite E; reflexivity).
  subst a. destruct s; [left; reflexivity | right; reflexivity].
Qed.

Lemma digits_value_nonneg s :
  all_digits s = true -> forall acc, 0 <= acc -> 0 <= digits_value s acc.
Proof.
  induction s as [|c s IH]; intros H acc Hacc; [discriminate H|].
  apply all_digits_inv in H as [Hc Hs]. cbn [digits_value].
  pose proof (is_digit_val c Hc).
  destruct Hs as [-> | Hs]; [cbn [digits_value]; lia | apply IH; [exact Hs | lia]].
Qed.

Lemma Atoi_digitCapture c v :
  digitCapture c -> strconv_Atoi c = Some v -> 0 <= v <= maxInt.
Proof.
  intros [-> | Hd]; [discriminate|]. intros H.
  assert (Hv := digits_value_nonneg c Hd 0 (Z.le_refl 0)).
  destruct c as [|a c]; [discriminate Hd|].
  pose proof (proj1 (all_digits_inv _ _ Hd)) as Ha.
  destruct a as [[] [] [] [] [] [] [] []]; try discriminate Ha;
    unfold strconv_Atoi in H; rewrite Hd in H;
    match type of H with
    | (if ?b then _ else _) = _ =>
        destruct b eqn:Eb; [|discriminate H];
        apply andb_true_iff in Eb as [_ Eb]; apply Z.leb_le in Eb
    end; injection H as <-; split; assumption.
Qed.

Lemma digitCapture_group i m : Forall digitCapture m -> digitCapture (group i m).
Proof.
  intros H. unfold group. revert i. induction H as [|c m Hc _ IH]; intros [|i]; cbn [nth];
    try (left; reflexivity); [exact Hc | apply IH].
Qed.

Lemma matchPiece_digitCapture p s t caps rest :
  digitPiece p = true -> matchPiece p s = Some (t, caps, rest) -> Forall digitCapture caps.
Proof.
  destruct p; try discriminate; intros _; cbn [matchPiece].
  - destruct (strip_prefix s0 s); [|discriminate]. intros H. injection H as _ <- _.
    constructor.
  - pose proof (all_digits_span s) as Hd.
    destruct (span is_digit s) as [d r]. cbn [fst] in Hd.
    destruct (nonempty d); [|discriminate]. intros H. injection H as _ <- _.
    constructor; [right; apply Hd; reflexivity | constructor].
Qed.

Lemma matchPieces_digitCapture ps : forall s t caps rest,
  forallb digitPiece ps = true ->
  matchPieces ps s = Some (t, caps, rest) -> Forall digitCapture caps.
Proof.
  induction ps as [|p ps IH]; intros s t caps rest Hps; cbn [matchPieces].
  - intros H. injection H as _ <- _. constructor.
  - cbn [forallb] in Hps. apply andb_true_iff in Hps as [Hp Hps].
    destruct (matchPiece p s) as [[[t1 c1] r1]|] eqn:E1; [|discriminate].
    destruct (matchPieces ps r1) as [[[t2 c2] r2]|] eqn:E2; [|discriminate].
    intros H. injection H as _ <- _. apply List.Forall_app. split.
    + exact (matchPiece_digitCapture _ _ _ _ _ Hp E1).
    + exact (IH _ _ _ _ Hps E2).
Qed.

Lemma emptyCaptures_digitCapture ps : Forall digitCapture (emptyCaptures ps).
Proof.
  unfold emptyCaptures. induction ps as [|p ps IH]; cbn [flat_map]; [constructor|].
  apply List.Forall_app. split; [|exact IH].
  destruct p; repeat constructor.
Qed.

Lemma matchItems_digitCapture items : forall s t caps rest,
  forallb digitItem items = true ->
  matchItems items s = Some (t, caps, rest) -> Forall digitCapture caps.
Proof.
  induction items as [|i items IH]; intros s t caps rest Hitems; cbn [matchItems].
  - intros H. injection H as _ <- _. constructor.
  - cbn [forallb] in Hitems. apply andb_true_iff in Hitems as [Hi Hitems].
    destruct i as [p | ps]; cbn [digitItem] in Hi.
    + destruct (matchPiece p s) as [[[t1 c1] r1]|] eqn:E1; [|discriminate].
      destruct (matchItems items r1) as [[[t2 c2] r2]|] eqn:E2; [|discriminate].
      intros H. injection H as _ <- _. apply List.Forall_app. split.
      * exact (matchPiece_digitCapture _ _ _ _ _ Hi E1).
      * exact (IH _ _ _ _ Hitems E2).
    + assert (Hskip : forall t caps rest,
                 match matchItems items s with
                 | Some (t', caps', rest') =>
                     Some (t', (emptyCaptures ps ++ caps')%list, rest')
                 | None => None
                 end = Some (t, caps, rest) -> Forall digitCapture caps).
      { intros t' caps' rest'.
        destruct (matchItems items s) as [[[t2 c2] r2]|] eqn:E2; [|discriminate].
        intros H. injection H as _ <- _. apply List.Forall_app. split.
        - apply emptyCaptures_digitCapture.
        - exact (IH _ _ _ _ Hitems E2). }
      destruct (matchPieces ps s) as [[[t1 c1] r1]|] eqn:E1; [|apply Hskip].
      destruct (matchItems items r1) as [[[t2 c2] r2]|] eqn:E2; [|apply Hskip].
      intros H. injection H as _ <- _. apply List.Forall_app. split.
      * exact (matchPieces_digitCapture _ _ _ _ _ Hi E1).
      * exact (IH _ _ _ _ Hitems E2).
Qed.

Lemma findAll_match items s : forall skip m,
  In m (findAll items skip s) ->
  exists s1 t caps rest, matchItems items s1 = Some (t, caps, rest) /\ m = t :: caps.
Proof.
  induction s as [|c s IH]; intros skip m; cbn [findAll]; [intros []|].
  destruct skip as [|n]; [|apply IH].
  destruct (matchItems items (String c s)) as [[[t caps] rest]|] eqn:E; [|apply IH].
  intros [<- | Hin]; [|exact (IH _ _ Hin)].
  exists (String c s), t, caps, rest. split; [exact E | reflexivity].
Qed.

Lemma match_digitCapture k text m :
  forallb digitItem (pattern k) = true ->
  In m (FindAllStringSubmatch (pattern k) text) -> Forall digitCapture (tl m).
Proof.
  intros Hk Hin. apply findAll_match in Hin as (s1 & t & caps & rest & Hm & ->).
  exact (matchItems_digitCapture _ _ _ _ _ Hk Hm).
Qed.

Lemma numberRange_tl t caps : Forall digitCapture caps ->
  0 <= fst (numberRange (t :: caps)) <= maxInt
  /\ 0 <= snd (numberRange (t :: caps)) <= maxInt.
Proof.
  intros H. unfold numberRange.
  destruct ((2 <? List.length (t :: caps))%nat && nonempty (group 1 (t :: caps))
            && nonempty (group 2 (t :: caps)));
    cbn [fst snd]; [|unfold maxInt; lia].
  unfold group. cbn [nth]. split.
  - destruct (strconv_Atoi (nth 0 caps EmptyString)) as [v|] eqn:E; [|unfold maxInt; lia].
    exact (Atoi_digitCapture _ _ (digitCapture_group 0 caps H) E).
  - destruct (strconv_Atoi (nth 1 caps EmptyString)) as [v|] eqn:E; [|unfold maxInt; lia].
    exact (Atoi_digitCapture _ _ (digitCapture_group 1 caps H) E).
Qed.

Lemma stringLength_tl t caps : Forall digitCapture caps -> 0 <= stringLength (t :: caps).
Proof.
  intros H. unfold stringLength.
  destruct ((1 <? List.length (t :: caps))%nat && nonempty (group 1 (t :: caps))); [|lia].
  unfold group. cbn [nth].
  destruct (strconv_Atoi (nth 0 caps EmptyString)) as [v|] eqn:E; [|lia].
  exact (proj1 (Atoi_digitCapture _ _ (digitCapture_group 0 caps H) E)).
Qed.

Lemma wrap64_empty lo hi :
  0 <= lo <= maxInt -> 0 <= hi <= maxInt ->
  wrap64 (hi - lo + 1) <= 0 -> hi < lo \/ (lo = 0 /\ hi = maxInt).
Proof.
  intros Hlo Hhi H. unfold maxInt in *.
  destruct (Z.le_gt_cases (hi - lo + 1) (2 ^ 63 - 1)) as [Hfit | Hover].
  - rewrite wrap64_small in H by (unfold minInt, maxInt; lia). left. lia.
  - right. lia.
Qed.

Lemma keepsClock_ret {A} (a : A) : keepsClock (ret a).
Proof. intros src a' src' H. injection H as _ <-. reflexivity. Qed.

Lemma keepsClock_panic {A} : keepsClock (@panic A).
Proof. intros src a src' H. discriminate H. Qed.

Lemma keepsClock_bind {A B} (c : M A) (k : A -> M B) :
  keepsClock c -> (forall a, keepsClock (k a)) -> keepsClock (bind c k).
Proof.
  intros Hc Hk src b src' H. unfold bind in H.
  destruct (c src) as [[a src1]|] eqn:E; [|discriminate H].
  rewrite (Hk a _ _ _ H). exact (Hc _ _ _ E).
Qed.

Lemma keepsClock_next_draw : keepsClock next_draw.
Proof. intros src a src' H. injection H as _ <-. reflexivity. Qed.

Lemma keepsClock_next_order : keepsClock next_order.
Proof. intros src a src' H. injection H as _ <-. reflexivity. Qed.

Lemma keepsClock_time_Now : keepsClock time_Now.
Proof. intros src a src' H. injection H as _ <-. reflexivity. Qed.

Lemma keepsClock_rand_Intn n : keepsClock (rand_Intn n).
Proof.
  unfold rand_Intn. destruct (n <=? 0)%Z; [apply keepsClock_panic|].
  apply keepsClock_bind; [apply keepsClock_next_draw | intros; apply keepsClock_ret].
Qed.

Lemma keepsClock_rand_Read n : keepsClock (rand_Read n).
Proof.
  induction n as [|n IH]; cbn [rand_Read]; [apply keepsClock_ret|].
  apply keepsClock_bind; [apply keepsClock_next_draw | intros].
  apply keepsClock_bind; [exact IH | intros; apply keepsClock_ret].
Qed.

Lemma keepsClock_fillFromCharset n : keepsClock (fillFromCharset n).
Proof.
  induction n as [|n IH]; cbn [fillFromCharset]; [apply keepsClock_ret|].
  apply keepsClock_bind; [apply keepsClock_rand_Intn | intros].
  apply keepsClock_bind; [exact IH | intros; apply keepsClock_ret].
Qed.

Lemma keepsClock_forEach {A B} (f : A -> M B) (l : list A) :
  Forall (fun x => keepsClock (f x)) l -> keepsClock (forEach f l).
Proof.
  induction 1 as [|x l Hx _ IH]; cbn [forEach]; [apply keepsClock_ret|].
  apply keepsClock_bind; [exact Hx | intros].
  apply keepsClock_bind; [exact IH | intros; apply keepsClock_ret].
Qed.

Create HintDb clock.

#[local] Hint Resolve keepsClock_ret keepsClock_panic keepsClock_next_draw
  keepsClock_next_order keepsClock_time_Now keepsClock_rand_Intn keepsClock_rand_Read
  keepsClock_fillFromCharset : clock.

Ltac keeps_clock :=
  repeat first [ apply keepsClock_bind; [|intros] | solve [auto with clock] ].

(** A [for] loop panics only where its body does. *)
Lemma forEach_panics {A B} (f : A -> M B) (l : list A) :
  Forall (fun x => keepsClock (f x)) l ->
  forall src, forEach f l src = None ->
  exists x src', In x l /\ f x src' = None /\ clock src' = clock src.
Proof.
  induction 1 as [|x l Hx _ IH]; intros src H; [discriminate H|].
  cbn [forEach] in H. unfold bind in H.
  destruct (f x src) as [[r src1]|] eqn:Ef.
  - fold (forEach f) in H.
    destruct (forEach f l src1) as [[rs src2]|] eqn:El; [discriminate H|].
    destruct (IH _ El) as (y & src' & Hin & Hy & Hclock).
    exists y, src'. split; [right; exact Hin|]. split; [exact Hy|].
    rewrite Hclock. exact (Hx _ _ _ Ef).
  - exists x, src. split; [left; reflexivity|]. split; [exact Ef | reflexivity].
Qed.

Section PanicSites.

Variable lib : GoLib.

Lemma keepsClock_generator k m : keepsClock (generator lib k m).
Proof.
  rewrite generator_table. destruct k.
  - unfold generateRandomString.
    match goal with |- context [if ?b then panic else _] => destruct b end; keeps_clock.
  - unfold generateRandomNumber. fold (numberRange m). destruct (numberRange m). keeps_clock.
  - unfold generateRandomNumber. fold (numberRange m). destruct (numberRange m). keeps_clock.
  - unfold generateRandomFloat.
    match goal with |- keepsClock (let '(a, b) := ?p in _) => destruct p end.
    unfold rand_Float64. keeps_clock.
  - unfold generateRandomUUID. keeps_clock.
  - unfold generateRandomEmail. cbv zeta. keeps_clock.
  - unfold generateRandomName. cbv zeta. keeps_clock.
  - unfold generateRandomTimestamp. keeps_clock.
  - unfold generateRandomChoice.
    destruct (List.length m <? 2)%nat; [keeps_clock|]. cbv zeta.
    match goal with |- context [if ?b then _ else _] => destruct b end; keeps_clock.
Qed.

Lemma keepsClock_replaceMatches k ms : forall result,
  keepsClock (replaceMatches lib k ms result).
Proof.
  induction ms as [|m ms IH]; intros result; cbn [replaceMatches]; [apply keepsClock_ret|].
  apply keepsClock_bind; [apply keepsClock_generator | intros; apply IH].
Qed.

Lemma keepsClock_replacePatterns order : forall result,
  keepsClock (replacePatterns lib order result).
Proof.
  induction order as [|k order IH]; intros result; cbn [replacePatterns];
    [apply keepsClock_ret|].
  apply keepsClock_bind; [apply keepsClock_replaceMatches | intros; apply IH].
Qed.

Lemma keepsClock_replaceRandomPlaceholders text :
  keepsClock (replaceRandomPlaceholders lib text).
Proof.
  unfold replaceRandomPlaceholders.
  apply keepsClock_bind; [apply keepsClock_next_order | intros order].
  apply keepsClock_bind; [apply keepsClock_replacePatterns | intros result].
  destruct (negb (String.eqb result text)); [|apply keepsClock_ret].
  destruct (strconv_ParseFloat lib result) as [val|]; [|apply keepsClock_ret].
  destruct (feqb val (math_Trunc val)); apply keepsClock_ret.
Qed.

Lemma keepsClock_processRandomValue t : keepsClock (processRandomValue lib t).
Proof.
  induction t as [| b | n | f | s | l IH | m IH] using Value_tree_ind;
    cbn [processRandomValue]; try apply keepsClock_ret.
  - apply keepsClock_replaceRandomPlaceholders.
  - apply keepsClock_bind; [|intros; apply keepsClock_ret].
    apply keepsClock_forEach, IH.
  - apply keepsClock_bind; [|intros; apply keepsClock_ret].
    apply keepsClock_forEach. eapply List.Forall_impl; [|exact IH].
    intros e He. cbv beta in He.
    apply keepsClock_bind; [exact He | intros; apply keepsClock_ret].
Qed.

Lemma replaceMatches_panics k ms : forall result src,
  replaceMatches lib k ms result src = None ->
  exists m src', In m ms /\ generator lib k m src' = None /\ clock src' = clock src.
Proof.
  induction ms as [|m ms IH]; intros result src H; [discriminate H|].
  cbn [replaceMatches] in H. unfold bind in H.
  destruct (generator lib k m src) as [[v src1]|] eqn:E.
  - destruct (IH _ _ H) as (m' & src' & Hin & Hm & Hclock).
    exists m', src'. split; [right; exact Hin|]. split; [exact Hm|].
    rewrite Hclock. exact (keepsClock_generator _ _ _ _ _ E).
  - exists m, src. split; [left; reflexivity|]. split; [exact E | reflexivity].
Qed.

Lemma replacePatterns_panics order : forall text src,
  replacePatterns lib order text src = None ->
  exists done k rest result src1 m src2,
    order = (done ++ k :: rest)%list
    /\ replacePatterns lib done text src = Some (result, src1)
    /\ In m (FindAllStringSubmatch (pattern k) result)
    /\ generator lib k m src2 = None /\ clock src2 = clock src.
Proof.
  induction order as [|k order IH]; intros text src H; [discriminate H|].
  cbn [replacePatterns] in H. unfold bind in H.
  destruct (replaceMatches lib k (FindAllStringSubmatch (pattern k) text) text src)
    as [[result src1]|] eqn:E.
  - destruct (IH _ _ H) as (done & k' & rest & result' & src1' & m & src2
                            & -> & Hdone & Hin & Hm & Hclock).
    exists (k :: done), k', rest, result', src1', m, src2.
    split; [reflexivity|]. split.
    { cbn [replacePatterns]. unfold bind. rewrite E. exact Hdone. }
    split; [exact Hin|]. split; [exact Hm|].
    rewrite Hclock. exact (keepsClock_replaceMatches _ _ _ _ _ _ E).
  - destruct (replaceMatches_panics _ _ _ _ E) as (m & src2 & Hin & Hm & Hclock).
    exists [], k, order, text, src, m, src2. auto.
Qed.

(** A panic of a generator on a match of its own pattern, with a calendar
    that puts the day thirty days back in the past, is an empty range or a
    string that cannot be allocated. *)
Lemma generator_panics_on_match k result m src :
  time_AddDate lib (clock src) 0 0 (-30) < clock src ->
  In m (FindAllStringSubmatch (pattern k) result) ->
  generator lib k m src = None ->
  panicSite lib k m.
Proof.
  intros Hcal Hin Hnone.
  destruct (generator_panics_only_on_bad_bound lib k m src Hnone)
    as [[Hk Hw] | [[_ Hc] | [-> Hl]]].
  - left. split; [exact Hk|].
    assert (Hcaps : Forall digitCapture (tl m)).
    { apply (match_digitCapture k result); [destruct Hk as [-> | ->]; reflexivity | exact Hin]. }
    apply findAll_match in Hin as (s1 & t & caps & rest & _ & ->). cbn [tl] in Hcaps.
    destruct (numberRange_tl t caps Hcaps) as [Hlo Hhi].
    destruct (wrap64_empty _ _ Hlo Hhi Hw) as [Hrev | [H0 Hmax]]; [left; exact Hrev|].
    right. destruct (numberRange (t :: caps)). cbn [fst snd] in *. congruence.
  - lia.
  - right. split; [reflexivity|].
    assert (Hcaps : Forall digitCapture (tl m)).
    { apply (match_digitCapture KString result); [reflexivity | exact Hin]. }
    apply findAll_match in Hin as (s1 & t & caps & rest & _ & ->). cbn [tl] in Hcaps.
    pose proof (stringLength_tl t caps Hcaps). lia.
Qed.

(** Where the expansion of one leaf panics: the engine has worked through
    the kinds [done] of its iteration order, which turned [text] into
    [result], and the generator of the next kind [k] panics on a match [m]
    of its pattern in [result]. *)
Lemma replaceRandomPlaceholders_panics text src :
  time_AddDate lib (clock src) 0 0 (-30) < clock src ->
  replaceRandomPlaceholders lib text src = None ->
  exists done k rest result src1 m,
    orders src (ranges src) = (done ++ k :: rest)%list
    /\ replacePatterns lib done text (afterRange src) = Some (result, src1)
    /\ In m (FindAllStringSubmatch (pattern k) result)
    /\ panicSite lib k m.
Proof.
  intros Hcal H. unfold replaceRandomPlaceholders, bind, next_order in H.
  fold (afterRange src) in H.
  destruct (replacePatterns lib (orders src (ranges src)) text (afterRange src))
    as [[result src1]|] eqn:E.
  - destruct (negb (String.eqb result text)); [|discriminate H].
    destruct (strconv_ParseFloat lib result) as [val|]; [|discriminate H].
    destruct (feqb val (math_Trunc val)); discriminate H.
  - destruct (replacePatterns_panics _ _ _ E)
      as (done & k & rest & result & src1 & m & src2 & Horder & Hdone & Hin & Hm & Hclock).
    cbn [clock afterRange] in Hclock. rewrite <- Hclock in Hcal.
    exists done, k, rest, result, src1, m.
    split; [exact Horder|]. split; [exact Hdone|]. split; [exact Hin|].
    exact (generator_panics_on_match k result m src2 Hcal Hin Hm).
Qed.

(** The expansion of a template panics only at an empty range or at a
    string the runtime cannot allocate.  When it panics, and the calendar
    puts the day thirty days back in the past, then one of the string
    leaves of the template, [text], reached with the source [src0], was
    being expanded: the engine had worked through the kinds [done] of the
    iteration order, which had turned [text] into [result], and the next
    kind [k] has a match [m] in [result] on which its generator panics,
    either a [random.number] or [random.int] token whose bounds are
    reversed or span all the non-negative [int]s, or a [random.string]
    token longer than the runtime allocates. *)
Theorem expansion_panic_sites (t : Value) (src : Source) :
  time_AddDate lib (clock src) 0 0 (-30) < clock src ->
  processRandomValue lib t src = None ->
  exists text src0 done k rest result src1 m,
    In text (leaves t)
    /\ clock src0 = clock src
    /\ replaceRandomPlaceholders lib text src0 = None
    /\ orders src0 (ranges src0) = (done ++ k :: rest)%list
    /\ replacePatterns lib done text (afterRange src0) = Some (result, src1)
    /\ In m (FindAllStringSubmatch (pattern k) result)
    /\ panicSite lib k m.
Proof.
  revert src.
  induction t as [| b | n | f | s | l IH | m IH] using Value_tree_ind;
    intros src Hcal H; cbn [processRandomValue] in H; try discriminate H.
  - destruct (replaceRandomPlaceholders_panics s src Hcal H)
      as (done & k & rest & result & src1 & m & Ho & Hd & Hin & Hsite).
    exists s, src, done, k, rest, result, src1, m.
    cbn [leaves]. repeat split; auto. left. reflexivity.
  - unfold bind in H.
    destruct (forEach (processRandomValue lib) l src) as [[rs src1]|] eqn:E;
      [discriminate H|].
    apply forEach_panics in E as (x & src' & Hin & Hx & Hclock).
    + rewrite List.Forall_forall in IH.
      destruct (IH x Hin src') as (text & src0 & done & k & rest & result & src2 & m
                                   & Hleaf & Hc & Hrest);
        [rewrite Hclock; exact Hcal | exact Hx |].
      exists text, src0, done, k, rest, result, src2, m.
      split; [cbn [leaves]; apply in_flat_map; exists x; auto|].
      split; [congruence | exact Hrest].
    + apply List.Forall_forall. intros x _. apply keepsClock_processRandomValue.
  - unfold bind in H.
    match type of H with
    | match forEach ?f m src with _ => _ end = None =>
        destruct (forEach f m src) as [[rs src1]|] eqn:E; [discriminate H|];
        apply forEach_panics in E as (x & src' & Hin & Hx & Hclock)
    end.
    + unfold bind in Hx.
      destruct (processRandomValue lib (snd x) src') as [[r src2]|] eqn:Ex;
        [discriminate Hx|].
      rewrite List.Forall_forall in IH.
      destruct (IH x Hin src') as (text & src0 & done & k & rest & result & src3 & m'
                                   & Hleaf & Hc & Hrest);
        [rewrite Hclock; exact Hcal | exact Ex |].
      exists text, src0, done, k, rest, result, src3, m'.
      split; [cbn [leaves]; apply in_flat_map; exists x; auto|].
      split; [congruence | exact Hrest].
    + apply List.Forall_forall. intros x _.
      apply keepsClock_bind; [apply keepsClock_processRandomValue | intros; apply keepsClock_ret].
Qed.

End PanicSites.

Lemma expansion_panic_sites_witness :
  exists text src0 done k rest result src1 m,
    In text (leaves reversedTree)
    /\ clock src0 = clock exampleSource
    /\ replaceRandomPlaceholders exampleLib text src0 = None
    /\ orders src0 (ranges src0) = (done ++ k :: rest)%list
    /\ replacePatterns exampleLib done text (afterRange src0) = Some (result, src1)
    /\ In m (FindAllStringSubmatch (pattern k) result)
    /\ panicSite exampleLib k m.
Proof.
  apply (expansion_panic_sites exampleLib reversedTree exampleSource).
  - reflexivity.
  - vm_compute. reflexivity.
Defined.

Section TemplateProperties.

Variable lib : GoLib.
Variable json_Marshal : string -> option (list (string * Value)) -> option string.

(** [generateRandomVariables] keeps a nil map nil, without touching the
    random source, and gives back for a map a map with the same keys in the
    same entries, every value of the shape of its template. *)
Theorem generateRandomVariables_keys
    (baseVars r : option (list (string * Value))) (src src' : Source) :
  generateRandomVariables lib baseVars src = Some (r, src') ->
  match baseVars, r with
  | None, None => src' = src
  | Some vars, Some res =>
      map fst res = map fst vars
      /\ Forall2 (fun e e' => sameShape (snd e) (snd e')) vars res
  | _, _ => False
  end.
Proof.
  destruct baseVars as [vars|]; cbn [generateRandomVariables]; intros H.
  - unfold bind in H.
    match type of H with
    | match forEach ?f vars src with _ => _ end = _ =>
        destruct (forEach f vars src) as [[res src1]|] eqn:E; [|discriminate H];
        apply (forEach_Forall2 f
                 (fun e e' => fst e = fst e' /\ sameShape (snd e) (snd e'))) in E
    end.
    + injection H as <- _. clear -E.
      induction E as [|e e' vars res [Hk Hs] _ [IHk IHs]]; [split; constructor|].
      cbn [map]. rewrite Hk, IHk. split; [reflexivity | constructor; assumption].
    + apply List.Forall_forall. intros e _ src0 r0 src0' Hr. unfold bind in Hr.
      destruct (processRandomValue lib (snd e) src0) as [[v src2]|] eqn:Ev; [|discriminate Hr].
      injection Hr as <- _. split; [reflexivity|].
      exact (processRandomValue_sameShape lib _ _ _ _ Ev).
  - injection H as <- <-. reflexivity.
Qed.

(** A configuration without tokens sends the same request every time: the
    payload is the encoding of the mutation with the variables as they
    are, the auth value is the configured one, whatever the random source
    holds. *)
Theorem static_template_is_sent_unchanged (config : Config) (src : Source) :
  staticTemplate config = true ->
  exists src',
    buildRequest lib json_Marshal config src
    = Some (match json_Marshal (Mutation config) (BaseVariables config) with
            | Some payloadBytes => Some (payloadBytes, BaseAuthValue config)
            | None => None
            end, src').
Proof.
  unfold staticTemplate. intros H. apply andb_true_iff in H as [Hvars Hauth].
  apply negb_true_iff in Hauth. unfold buildRequest.
  assert (Hv : exists src1,
             match BaseVariables config with
             | Some _ => generateRandomVariables lib (BaseVariables config)
             | None => ret None
             end src = Some (BaseVariables config, src1)).
  { destruct (BaseVariables config) as [vars|]; [|eexists; reflexivity].
    destruct (processRandomValue_tokenFree lib (VMap vars) Hvars src) as [src1 E].
    exists src1. cbn [processRandomValue] in E. cbn [generateRandomVariables].
    unfold bind in E |- *.
    match type of E with
    | match ?c with _ => _ end = _ => destruct c as [[res src2]|]; [|discriminate E]
    end.
    unfold ret in E |- *. congruence. }
  destruct Hv as [src1 Hv]. rewrite (bind_returns _ _ _ _ _ Hv).
  assert (Ha : exists src2,
             (if nonempty (BaseAuthValue config)
              then let* processed := replaceRandomPlaceholders lib (BaseAuthValue config) in
                   match processed with
                   | VString str => ret str
                   | _ => ret (fmt_v lib processed)
                   end
              else ret (BaseAuthValue config)) src1 = Some (BaseAuthValue config, src2)).
  { destruct (nonempty (BaseAuthValue config)); [|eexists; reflexivity].
    eexists. unfold bind. rewrite (replace_no_token lib _ src1 Hauth). reflexivity. }
  destruct Ha as [src2 Ha]. rewrite (bind_returns _ _ _ _ _ Ha).
  exists src2. destruct (json_Marshal (Mutation config) (BaseVariables config)); reflexivity.
Qed.

End TemplateProperties.

Lemma generateRandomVariables_keys_witness :
  match Some [("id", VString "{{random.int(5,5)}}"); ("tag", VString "plain")],
        Some [("id", VInt 5); ("tag", VString "plain")] with
  | None, None => afterDraw (afterRange (afterRange exampleSource)) = exampleSource
  | Some vars, Some res =>
      map fst res = map fst vars
      /\ Forall2 (fun e e' => sameShape (snd e) (snd e')) vars res
  | _, _ => False
  end.
Proof.
  apply (generateRandomVariables_keys exampleLib
           (Some [("id", VString "{{random.int(5,5)}}"); ("tag", VString "plain")])
           (Some [("id", VInt 5); ("tag", VString "plain")])
           exampleSource (afterDraw (afterRange (afterRange exampleSource)))).
  vm_compute. reflexivity.
Defined.

Lemma static_template_is_sent_unchanged_witness :
  exists src',
    buildRequest exampleLib queryOnlyEncoder config_static exampleSource
    = Some (match queryOnlyEncoder (Mutation config_static) (BaseVariables config_static) with
            | Some payloadBytes => Some (payloadBytes, BaseAuthValue config_static)
            | None => None
            end, src').
Proof.
  apply (static_template_is_sent_unchanged exampleLib queryOnlyEncoder config_static
           exampleSource).
  vm_compute. reflexivity.
Defined.

(** ** A leaf that is one integer token *)

Lemma append_cons c s t : String c s ++ t = String c (s ++ t).
Proof. reflexivity. Qed.

Lemma append_empty_l s : "" ++ s = s.
Proof. reflexivity. Qed.

Lemma append_empty_r s : s ++ "" = s.
Proof. induction s as [|c s IH]; [reflexivity | now rewrite append_cons, IH]. Qed.

Lemma append_assoc s1 s2 s3 : (s1 ++ s2) ++ s3 = s1 ++ s2 ++ s3.
Proof.
  induction s1 as [|c s1 IH]; [reflexivity|]. now rewrite !append_cons, IH.
Qed.

Lemma all_bytes_append f s1 s2 :
  all_bytes f (s1 ++ s2) = all_bytes f s1 && all_bytes f s2.
Proof.
  induction s1 as [|c s1 IH]; [reflexivity|].
  rewrite append_cons. cbn [all_bytes]. rewrite IH. apply andb_assoc.
Qed.

Lemma is_digit_no_brace c : is_digit c = true -> no_brace c = true.
Proof. destruct c as [[] [] [] [] [] [] [] []]; try discriminate; reflexivity. Qed.

Lemma all_digits_no_brace s : all_digits s = true -> all_bytes no_brace s = true.
Proof.
  induction s as [|c s IH]; intros H; [reflexivity|].
  apply all_digits_inv in H as [Hc Hs]. cbn [all_bytes].
  rewrite (is_digit_no_brace c Hc).
  destruct Hs as [-> | Hs]; [reflexivity | exact (IH Hs)].
Qed.

Lemma string_of_uint_no_brace d :
  all_bytes no_brace (DecimalString.NilEmpty.string_of_uint d) = true.
Proof. induction d; cbn; auto. Qed.

Lemma fmt_int_no_brace n : all_bytes no_brace (fmt_int n) = true.
Proof.
  unfold fmt_int, DecimalString.NilZero.string_of_int, DecimalString.NilZero.string_of_uint.
  destruct (Z.to_int n) as [d | d].
  - destruct d; try reflexivity; apply (string_of_uint_no_brace (_ d)).
  - cbn [all_bytes]. destruct d; try reflexivity; apply (string_of_uint_no_brace (_ d)).
Qed.

Lemma no_brace_no_marker s :
  all_bytes no_brace s = true -> occursIn "{{random." s = false.
Proof.
  induction s as [|c s IH]; intros H; [reflexivity|].
  cbn [all_bytes] in H. apply andb_true_iff in H as [Hc Hs].
  cbn [occursIn strip_prefix]. unfold no_brace in Hc. apply negb_true_iff in Hc.
  rewrite Ascii.eqb_sym, Hc. exact (IH Hs).
Qed.

Lemma fmt_int_no_token n : containsToken (fmt_int n) = false.
Proof. apply no_marker_no_token, no_brace_no_marker, fmt_int_no_brace. Qed.

Lemma strip_prefix_same p s : strip_prefix p (p ++ s) = Some s.
Proof.
  induction p as [|c p IH]; [reflexivity|].
  rewrite append_cons. cbn [strip_prefix]. now rewrite Ascii.eqb_refl.
Qed.

Lemma strings_Replace1_prefix s old new r :
  strip_prefix old s = Some r -> strings_Replace1 s old new = new ++ r.
Proof. intros H. destruct s; cbn [strings_Replace1]; now rewrite H. Qed.

Lemma span_digits_append a rest :
  all_digits a = true ->
  match rest with String c _ => is_digit c = false | EmptyString => True end ->
  span is_digit (a ++ rest) = (a, rest).
Proof.
  intros Ha Hrest. induction a as [|c a IH]; [discriminate Ha|].
  apply all_digits_inv in Ha as [Hc Ha]. rewrite append_cons. cbn [span]. rewrite Hc.
  destruct Ha as [-> | Ha].
  - rewrite append_empty_l. destruct rest as [|r rest]; [reflexivity|].
    cbn [span]. now rewrite Hrest.
  - now rewrite (IH Ha).
Qed.

Lemma matchPiece_Lit l s : matchPiece (Lit l) (l ++ s) = Some (l, [], s).
Proof. cbn [matchPiece]. now rewrite strip_prefix_same. Qed.

Lemma matchPiece_Digits a rest :
  all_digits a = true ->
  match rest with String c _ => is_digit c = false | EmptyString => True end ->
  matchPiece Digits (a ++ rest) = Some (a, [a], rest).
Proof.
  intros Ha Hrest. cbn [matchPiece]. rewrite (span_digits_append a rest Ha Hrest).
  destruct a; [discriminate Ha | reflexivity].
Qed.

Lemma findAll_skip_all items s : forall n,
  (String.length s <= n)%nat -> findAll items n s = [].
Proof.
  induction s as [|c s IH]; intros n Hn; [reflexivity|].
  cbn [String.length] in Hn. destruct n as [|n]; [lia|].
  cbn [findAll]. apply IH. lia.
Qed.

Lemma length_append s1 s2 :
  String.length (s1 ++ s2) = (String.length s1 + String.length s2)%nat.
Proof.
  induction s1 as [|c s1 IH]; [reflexivity|].
  rewrite append_cons. cbn [String.length]. now rewrite IH.
Qed.

Lemma rangeToken_match k a b :
  k = KNumber \/ k = KInt ->
  all_digits a = true -> all_digits b = true ->
  matchItems (pattern k) (rangeToken k a b) = Some (rangeToken k a b, [a; b], EmptyString).
Proof.
  intros Hk Ha Hb.
  destruct Hk as [-> | ->]; unfold pattern, rangeToken; cbn [matchItems matchPieces];
    rewrite !matchPiece_Lit;
    rewrite (matchPiece_Digits a ("," ++ b ++ ")" ++ "}}") Ha eq_refl); cbv beta iota;
    rewrite matchPiece_Lit; cbv beta iota;
    rewrite (matchPiece_Digits b (")" ++ "}}") Hb eq_refl); cbv beta iota;
    rewrite matchPiece_Lit; cbv beta iota;
    change (matchPiece (Lit "}}") "}}") with (Some ("}}", @nil string, EmptyString));
    cbv beta iota; cbn [app]; rewrite !append_empty_r, !append_assoc; reflexivity.
Qed.

Lemma rangeToken_findAll k a b :
  k = KNumber \/ k = KInt ->
  all_digits a = true -> all_digits b = true ->
  FindAllStringSubmatch (pattern k) (rangeToken k a b) = [[rangeToken k a b; a; b]].
Proof.
  intros Hk Ha Hb. pose proof (rangeToken_match k a b Hk Ha Hb) as Hm.
  unfold FindAllStringSubmatch.
  destruct (rangeToken k a b) as [|c s] eqn:E.
  - destruct Hk as [-> | ->]; discriminate E.
  - cbn [findAll]. rewrite Hm. f_equal. apply findAll_skip_all.
    cbn [String.length]. lia.
Qed.

Lemma findAll_miss items c s :
  matchItems items (String c s) = None ->
  findAll items 0 (String c s) = findAll items 0 s.
Proof. intros H. cbn [findAll]. now rewrite H. Qed.

Lemma occursIn_cons_false marker c s :
  strip_prefix marker (String c s) = None -> occursIn marker s = false ->
  occursIn marker (String c s) = false.
Proof. intros H Hs. cbn [occursIn]. now rewrite H. Qed.

Lemma rangeToken_other k k' a b :
  k = KNumber \/ k = KInt ->
  all_digits a = true -> all_digits b = true ->
  k' <> k -> FindAllStringSubmatch (pattern k') (rangeToken k a b) = [].
Proof.
  intros Hk Ha Hb Hne. unfold FindAllStringSubmatch.
  pose proof (all_digits_no_brace a Ha) as Hna.
  pose proof (all_digits_no_brace b Hb) as Hnb.
  destruct Hk as [-> | ->].
  - change (rangeToken KNumber a b)
      with (String "{" (String "{" ("random.number(" ++ a ++ "," ++ b ++ ")}}"))).
    rewrite findAll_miss by (destruct k'; try congruence; vm_compute; reflexivity).
    apply findAll_no_marker.
    apply occursIn_cons_false; [vm_compute; reflexivity|].
    apply no_brace_no_marker.
    rewrite !all_bytes_append, Hna, Hnb. reflexivity.
  - change (rangeToken KInt a b)
      with (String "{" (String "{" ("random.int(" ++ a ++ "," ++ b ++ ")}}"))).
    rewrite findAll_miss by (destruct k'; try congruence; vm_compute; reflexivity).
    apply findAll_no_marker.
    apply occursIn_cons_false; [vm_compute; reflexivity|].
    apply no_brace_no_marker.
    rewrite !all_bytes_append, Hna, Hnb. reflexivity.
Qed.

Lemma strip_prefix_refl s : strip_prefix s s = Some EmptyString.
Proof. rewrite <- (append_empty_r s) at 2. apply strip_prefix_same. Qed.

Lemma no_brace_not_token k a b s :
  k = KNumber \/ k = KInt -> all_bytes no_brace s = true ->
  String.eqb s (rangeToken k a b) = false.
Proof.
  intros Hk Hs. apply String.eqb_neq. intros ->.
  destruct Hk as [-> | ->]; discriminate Hs.
Qed.

Lemma numberRange_token t a b lo hi :
  all_digits a = true -> all_digits b = true ->
  strconv_Atoi a = Some lo -> strconv_Atoi b = Some hi ->
  numberRange [t; a; b] = (lo, hi).
Proof.
  intros Ha Hb Hlo Hhi. unfold numberRange, group. cbn [List.length nth Nat.ltb Nat.leb].
  rewrite Hlo, Hhi. destruct a; [discriminate Ha|]. destruct b; [discriminate Hb|].
  reflexivity.
Qed.

Lemma generateRandomNumber_draw m lo hi src :
  numberRange m = (lo, hi) ->
  0 <= lo -> hi <= maxInt -> lo <= hi -> hi - lo < maxInt ->
  generateRandomNumber m src
  = Some (VInt (draws src (cursor src) mod (hi - lo + 1) + lo), afterDraw src).
Proof.
  intros Hr Hlo Hhi Hle Hsize. unfold generateRandomNumber. fold (numberRange m).
  rewrite Hr. unfold maxInt in *.
  rewrite (wrap64_small (hi - lo + 1)) by (unfold minInt, maxInt; lia).
  unfold rand_Intn. destruct (Z.leb_spec (hi - lo + 1) 0); [lia|].
  unfold bind, next_draw, ret. fold (afterDraw src).
  pose proof (Z.mod_pos_bound (draws src (cursor src)) (hi - lo + 1)).
  rewrite wrap64_small by (unfold minInt, maxInt; lia). reflexivity.
Qed.

Section RangeToken.

Variable lib : GoLib.

Lemma replacePatterns_rangeToken k a b lo hi order src :
  k = KNumber \/ k = KInt ->
  all_digits a = true -> all_digits b = true ->
  strconv_Atoi a = Some lo -> strconv_Atoi b = Some hi ->
  lo <= hi -> hi - lo < maxInt ->
  In k order ->
  replacePatterns lib order (rangeToken k a b) src
  = Some (fmt_int (draws src (cursor src) mod (hi - lo + 1) + lo), afterDraw src).
Proof.
  intros Hk Ha Hb Hlo Hhi Hle Hsize.
  induction order as [|k' order IH]; intros Hin; [destruct Hin|].
  cbn [replacePatterns].
  assert (Hkk : k' = k \/ k' <> k) by (destruct k', k; auto; right; discriminate).
  destruct Hkk as [-> | Hne].
  - rewrite (rangeToken_findAll k a b Hk Ha Hb). cbn [replaceMatches].
    assert (Hgen : generator lib k [rangeToken k a b; a; b] src
                   = Some (VInt (draws src (cursor src) mod (hi - lo + 1) + lo),
                           afterDraw src)).
    { rewrite generator_table.
      assert (H0 := Atoi_digitCapture a lo (or_intror Ha) Hlo).
      assert (H1 := Atoi_digitCapture b hi (or_intror Hb) Hhi).
      destruct Hk as [-> | ->];
        apply generateRandomNumber_draw;
        try apply numberRange_token; try assumption; lia. }
    rewrite (bind_returns _ _ _ _ _ (bind_returns _ _ _ _ _ Hgen)).
    unfold group. cbn [nth fmt_v].
    rewrite (strings_Replace1_prefix _ _ _ _ (strip_prefix_refl (rangeToken k a b))).
    rewrite append_empty_r. unfold ret.
    apply replacePatterns_no_token, fmt_int_no_token.
  - rewrite (rangeToken_other k k' a b Hk Ha Hb Hne). cbn [replaceMatches].
    unfold bind, ret at 1. apply IH.
    destruct Hin as [Heq | Hin]; [congruence | exact Hin].
Qed.

(** A leaf that is one [random.number] or [random.int] token with bounds
    [lo <= hi] becomes an integer between [lo] and [hi], both included,
    for one value drawn, where the library reads the decimal form of each
    such integer as the [float64] equal to it. *)
Theorem range_token_yields_integer_in_range
    (k : Kind) (a b : string) (lo hi : Z) (src : Source) :
  k = KNumber \/ k = KInt ->
  all_digits a = true -> all_digits b = true ->
  strconv_Atoi a = Some lo -> strconv_Atoi b = Some hi ->
  lo <= hi -> hi - lo < maxInt ->
  (forall n, lo <= n <= hi ->
     exists f, strconv_ParseFloat lib (fmt_int n) = Some f
               /\ feqb f (math_Trunc f) = true /\ int_of_float64 f = n) ->
  In k (orders src (ranges src)) ->
  exists n,
    lo <= n <= hi
    /\ replaceRandomPlaceholders lib (rangeToken k a b) src
       = Some (VInt n, afterDraw (afterRange src)).
Proof.
  intros Hk Ha Hb Hlo Hhi Hle Hsize Hlib Hin.
  set (n := draws src (cursor src) mod (hi - lo + 1) + lo).
  assert (Hn : lo <= n <= hi).
  { pose proof (Z.mod_pos_bound (draws src (cursor src)) (hi - lo + 1)). unfold n. lia. }
  exists n. split; [exact Hn|].
  destruct (Hlib n Hn) as (f & Hparse & Hint & Hval).
  unfold replaceRandomPlaceholders, bind, next_order. fold (afterRange src).
  rewrite (replacePatterns_rangeToken k a b lo hi _ (afterRange src)
             Hk Ha Hb Hlo Hhi Hle Hsize Hin).
  cbn [draws cursor afterRange]. fold n.
  rewrite (no_brace_not_token k a b _ Hk (fmt_int_no_brace n)). cbn [negb].
  rewrite Hparse, Hint, Hval. reflexivity.
Qed.

End RangeToken.

Lemma range_token_yields_integer_in_range_witness :
  exists n,
    5 <= n <= 7
    /\ replaceRandomPlaceholders exampleLib (rangeToken KInt "5" "7") exampleSource
       = Some (VInt n, afterDraw (afterRange exampleSource)).
Proof.
  apply (range_token_yields_integer_in_range exampleLib KInt "5" "7" 5 7 exampleSource).
  - right. reflexivity.
  - reflexivity.
  - reflexivity.
  - reflexivity.
  - reflexivity.
  - lia.
  - vm_compute. reflexivity.
  - intros n Hn. assert (Hcases : n = 5 \/ n = 6 \/ n = 7) by lia.
    exists (float64_of_Z n).
    destruct Hcases as [-> | [-> | ->]]; vm_compute; repeat split.
  - vm_compute. tauto.
Defined.

(** ** The report *)


Section Report.

Variable lib : GoLib.
Variable json_Marshal : string -> option (list (string * Value)) -> option string.
Variable json_Unmarshal : string -> GraphQLResponse * option string.
Variable config : Config.


End Report.

